(** * AZ Snooker Master: physics engine, trajectory predictor, snooker checker,
      rule engine and AI shot planner

    A shallow embedding of the algorithmic core of the game
    ([utils/physics.ts], [utils/ai.ts], the rule functions, the shot, the
    placement of the cue ball and the physics frame of the [SnookerGame]
    component, and the accumulator of [usePhysicsLoop]) together with the
    properties its design document states about it and further properties
    that the code keeps.

    Modelling conventions.
    - A JavaScript [number] holding a coordinate, a speed or a time is an exact
      real number ([R]): rounding, overflow and NaN are outside the model.  The
      one place where the source computes with [Infinity]
      ([calculatePreciseTrajectory]) uses the extended distances [Dist].  In
      [pickBestColor], where a cosine rounded above 1 makes [Math.acos] answer
      NaN and changes the colour chosen, the rounding of that cosine is an
      explicit input [fl] and [Math_acos] is partial.
    - Point values, scores and penalties are integers ([Z]); ball ids are
      natural numbers.
    - The ball array is a [list Ball]; a JavaScript reference to a ball object
      of that array is the index of the ball in the list, so that in-place
      mutation through any alias is an update of the store at that index.
    - The callbacks [onPot] and [onCollision] are observers: each invocation is
      recorded, in order, in an event trace.
    - [Math.random()] is an explicit input: every draw of a function is an
      argument of its model.
    - A handler returns the state it leaves together with the messages it
      hands to [sendNetworkMessage]; sounds, texts and animations are outside
      the model.  The React state that the handlers read besides the game
      (balls moving, stroke in progress, statistics shown, input blocked) is
      the record [Controls].
    - The [while] loop of [usePhysicsLoop] runs on fuel; the bound on the
      number of its iterations is proved, not assumed. *)

From Stdlib Require Import Reals Lra Lia List ZArith Bool String.
Import ListNotations.

Local Open Scope R_scope.

(** ** Numbers *)

Definition Rltb (a b : R) : bool := if Rlt_dec a b then true else false.
Definition Rleb (a b : R) : bool := if Rle_dec a b then true else false.
Definition Reqb (a b : R) : bool := if Req_dec_T a b then true else false.

(** ** types.ts *)

Record Vector2 : Type := mkVec { x : R; y : R }.

Inductive BallType : Type :=
  | CUE | RED | YELLOW | GREEN | BROWN | BLUE | PINK | BLACK.

(** [TargetState = 'RED' | 'COLOR' | BallType]: the string ['RED'] is the very
    value of [BallType.RED], so a target is either ['COLOR'] or a ball type. *)
Inductive TargetState : Type :=
  | TColor
  | TType (t : BallType).

Abbreviation TRed := (TType RED).

Record Ball : Type := mkBall {
  id : nat;
  type : BallType;
  pos : Vector2;
  vel : Vector2;
  radius : R;
  color : string;
  mass : R;
  potted : bool;
  value : Z
}.

Record TableConfig : Type := mkTable {
  width : R;
  height : R;
  pocketRadius : R;
  cushionWidth : R
}.

(** [Spin] has the shape of a vector: [x] is side spin, [y] is top/back spin
    (-1 to 1, where -1 is backspin/draw). *)
Definition Spin : Type := Vector2.

Inductive GameMode : Type :=
  | SINGLE_PLAYER | TWO_PLAYER | ONLINE_HOST | ONLINE_CLIENT.

Inductive Difficulty : Type := EASY | MEDIUM | HARD.

Inductive GameState : Type := WELCOME | MENU | PLAYING | GAME_OVER.

Inductive Player : Type := ONE | TWO | AI.

Definition BALL_RADIUS : R := 9.25.
Definition TABLE_WIDTH : R := 800.
Definition TABLE_HEIGHT : R := 400.

Definition BallType_eqb (a b : BallType) : bool :=
  match a, b with
  | CUE, CUE | RED, RED | YELLOW, YELLOW | GREEN, GREEN
  | BROWN, BROWN | BLUE, BLUE | PINK, PINK | BLACK, BLACK => true
  | _, _ => false
  end.

Definition set_pos (b : Ball) (p : Vector2) : Ball :=
  mkBall (id b) (type b) p (vel b) (radius b) (color b) (mass b) (potted b) (value b).

Definition set_vel (b : Ball) (v : Vector2) : Ball :=
  mkBall (id b) (type b) (pos b) v (radius b) (color b) (mass b) (potted b) (value b).

Definition set_potted (b : Ball) (p : bool) : Ball :=
  mkBall (id b) (type b) (pos b) (vel b) (radius b) (color b) (mass b) p (value b).

(** ** The ball store *)

(** [modify i f l] is the store after the object at index [i] was mutated by
    [f]; an index outside the store touches nothing. *)
Fixpoint modify (i : nat) (f : Ball -> Ball) (l : list Ball) : list Ball :=
  match l, i with
  | [], _ => []
  | b :: t, O => f b :: t
  | b :: t, S k => b :: modify k f t
  end.

Definition put (i : nat) (b : Ball) (l : list Ball) : list Ball :=
  modify i (fun _ => b) l.

(** Indices of the store whose ball satisfies [p], in array order. *)
Definition indices_where (p : Ball -> bool) (l : list Ball) : list nat :=
  filter (fun i => match nth_error l i with Some b => p b | None => false end)
         (seq 0 (List.length l)).

(** ** utils/physics.ts: vector math *)

Definition vecAdd (v1 v2 : Vector2) : Vector2 := mkVec (x v1 + x v2) (y v1 + y v2).
Definition vecSub (v1 v2 : Vector2) : Vector2 := mkVec (x v1 - x v2) (y v1 - y v2).
Definition vecMult (v : Vector2) (s : R) : Vector2 := mkVec (x v * s) (y v * s).
Definition vecDot (v1 v2 : Vector2) : R := x v1 * x v2 + y v1 * y v2.
Definition vecLen (v : Vector2) : R := sqrt (x v * x v + y v * y v).
Definition vecNorm (v : Vector2) : Vector2 :=
  let len := vecLen v in
  if Reqb len 0 then mkVec 0 0 else mkVec (x v / len) (y v / len).
Definition vecDist (v1 v2 : Vector2) : R := vecLen (vecSub v1 v2).

Definition zeroVec : Vector2 := mkVec 0 0.

(** ** utils/physics.ts: constants *)

Definition ROLLING_RESISTANCE : R := 0.12.
Definition WALL_RESTITUTION : R := 0.80.
Definition BALL_RESTITUTION : R := 0.92.
Definition STOP_THRESHOLD : R := 0.15.
Definition SUB_STEPS : nat := 10.
Definition SPIN_POWER_FACTOR : R := 4.5.
Definition PENETRATION_SLOP : R := 0.05.

(** ** utils/physics.ts: [updatePhysics] *)

Inductive Event : Type :=
  | Pot (i : nat)                          (* onPot(balls[i]) *)
  | Collision (i j : nat) (impact : R).    (* onCollision(balls[i], balls[j], impact) *)

(** The mutable ball array and the callbacks invoked so far. *)
Record World : Type := mkWorld { store : list Ball; trace : list Event }.

Definition pockets (table : TableConfig) : list Vector2 :=
  let pOffset := 0 in
  [ mkVec (cushionWidth table - pOffset) (cushionWidth table - pOffset);
    mkVec (width table / 2) (cushionWidth table - 8);
    mkVec (width table - (cushionWidth table - pOffset)) (cushionWidth table - pOffset);
    mkVec (cushionWidth table - pOffset) (height table - (cushionWidth table - pOffset));
    mkVec (width table / 2) (height table + 8 - cushionWidth table);
    mkVec (width table - (cushionWidth table - pOffset))
          (height table - (cushionWidth table - pOffset)) ].

Fixpoint inPocketZone (ps : list Vector2) (pocketRadius : R) (p : Vector2) : bool :=
  match ps with
  | [] => false
  | q :: rest =>
      if Rltb (vecDist p q) (pocketRadius * 1.1) then true
      else inPocketZone rest pocketRadius p
  end.

(** 1. Integration (Move): the body of the loop, for one ball. *)
Definition integrateBall (subDt : R) (b : Ball) : Ball :=
  if Rltb 0.001 (vecLen (vel b))
  then set_pos b (vecAdd (pos b) (vecMult (vel b) subDt))
  else b.

(** 2. Pocket Detection: the inner loop over the pockets; [true] when the
    ball is captured (the loop breaks at the first capturing pocket). *)
Fixpoint captured (ps : list Vector2) (pocketRadius : R) (p : Vector2) : bool :=
  match ps with
  | [] => false
  | q :: rest =>
      if Rltb (vecDist p q) (pocketRadius * 0.95) then true
      else captured rest pocketRadius p
  end.

Definition potBall (b : Ball) : Ball := set_vel (set_potted b true) zeroVec.

Definition pocketStep (table : TableConfig) (i : nat) (w : World) : World :=
  match nth_error (store w) i with
  | None => w
  | Some b =>
      if potted b then w
      else if captured (pockets table) (pocketRadius table) (pos b)
      then mkWorld (put i (potBall b) (store w)) (trace w ++ [Pot i])
      else w
  end.

(** 3. Wall Collisions: the body of the loop, for one ball. *)
Definition wallBall (table : TableConfig) (spin : Spin) (b : Ball) : Ball :=
  if potted b then b
  else if inPocketZone (pockets table) (pocketRadius table) (pos b) then b
  else
    let wallMinX := cushionWidth table in
    let wallMaxX := width table - cushionWidth table in
    let wallMinY := cushionWidth table in
    let wallMaxY := height table - cushionWidth table in
    let '(px, velx, collidedX) :=
      if Rltb (x (pos b)) (wallMinX + radius b)
      then (wallMinX + radius b, Rabs (x (vel b)) * WALL_RESTITUTION, true)
      else if Rltb (wallMaxX - radius b) (x (pos b))
      then (wallMaxX - radius b, - Rabs (x (vel b)) * WALL_RESTITUTION, true)
      else (x (pos b), x (vel b), false) in
    let '(py, vely, collidedY) :=
      if Rltb (y (pos b)) (wallMinY + radius b)
      then (wallMinY + radius b, Rabs (y (vel b)) * WALL_RESTITUTION, true)
      else if Rltb (wallMaxY - radius b) (y (pos b))
      then (wallMaxY - radius b, - Rabs (y (vel b)) * WALL_RESTITUTION, true)
      else (y (pos b), y (vel b), false) in
    let v :=
      if BallType_eqb (type b) CUE && negb (Reqb (x spin) 0) then
        let speed := vecLen (mkVec velx vely) in
        if Rltb 1 speed then
          let spinForce := x spin * 0.6 in
          let velx' := if collidedY then velx + spinForce * (speed * 0.15) else velx in
          let vely' := if collidedX then vely + spinForce * (speed * 0.15) else vely in
          mkVec velx' vely'
        else mkVec velx vely
      else mkVec velx vely in
    set_vel (set_pos b (mkVec px py)) v.

(** 4. Ball-Ball Collisions: the body of the inner loop, for the pair
    [(b1, b2)]; returns the two balls after the contact and the impact
    reported to [onCollision], if the callback is invoked. *)
Definition collide (spin : Spin) (b1 b2 : Ball) : Ball * Ball * option R :=
  let dist := vecDist (pos b1) (pos b2) in
  let minDist := radius b1 + radius b2 in
  if Rltb dist minDist then
    let n := vecNorm (vecSub (pos b1) (pos b2)) in
    let overlap := minDist - dist in
    let correctionMag := Rmax 0 (overlap - PENETRATION_SLOP) in
    let correction := vecMult n (correctionMag * 0.5) in
    let c1 := if Rltb 0 correctionMag then set_pos b1 (vecAdd (pos b1) correction) else b1 in
    let c2 := if Rltb 0 correctionMag then set_pos b2 (vecSub (pos b2) correction) else b2 in
    let relVel := vecSub (vel c1) (vel c2) in
    let velAlongNormal := vecDot relVel n in
    let report := if Rleb velAlongNormal 0.05 then Some (Rabs velAlongNormal) else None in
    if Rltb 0 velAlongNormal then (c1, c2, report)
    else
      let j := - (1 + BALL_RESTITUTION) * velAlongNormal in
      let impulse := j / 2 in
      let impulseVec := vecMult n impulse in
      let d1 := set_vel c1 (vecAdd (vel c1) impulseVec) in
      let d2 := set_vel c2 (vecSub (vel c2) impulseVec) in
      let isCue1 := BallType_eqb (type d1) CUE in
      let isCue2 := BallType_eqb (type d2) CUE in
      if (isCue1 || isCue2) && (negb (Reqb (x spin) 0) || negb (Reqb (y spin) 0)) then
        let impactForce := Rabs velAlongNormal in
        if Rltb 0.1 impactForce then
          let dirToObject := if isCue1 then vecMult n (-1) else n in
          let spinMagnitude := impactForce * SPIN_POWER_FACTOR in
          let spinImpulseY := vecMult dirToObject (y spin * spinMagnitude * 0.30) in
          let tangent := mkVec (- y dirToObject) (x dirToObject) in
          let spinImpulseX := vecMult tangent (x spin * spinMagnitude * 0.08) in
          let addSpin (c : Ball) :=
            set_vel c (vecAdd (vecAdd (vel c) spinImpulseY) spinImpulseX) in
          if isCue1 then (addSpin d1, d2, report) else (d1, addSpin d2, report)
        else (d1, d2, report)
      else (d1, d2, report)
  else (b1, b2, None).

(** The pairs [(l[i], l[j])], [i < j], in the order of the nested loops. *)
Fixpoint pairs (l : list nat) : list (nat * nat) :=
  match l with
  | [] => []
  | a :: t => map (pair a) t ++ pairs t
  end.

Definition collideStep (spin : Spin) (onCollision : bool) (w : World) (ij : nat * nat) : World :=
  let '(i, j) := ij in
  match nth_error (store w) i, nth_error (store w) j with
  | Some b1, Some b2 =>
      let '(b1', b2', report) := collide spin b1 b2 in
      mkWorld (put j b2' (put i b1' (store w)))
              (match report with
               | Some impact => if onCollision then trace w ++ [Collision i j impact] else trace w
               | None => trace w
               end)
  | _, _ => w
  end.

Definition on_store (f : list Ball -> list Ball) (w : World) : World :=
  mkWorld (f (store w)) (trace w).

(** One iteration of the sub-step loop; [activeBalls] are the references
    taken at entry. *)
Definition subStep (table : TableConfig) (spin : Spin) (onCollision : bool)
    (subDt : R) (activeBalls : list nat) (w : World) : World :=
  let w1 := fold_left (fun w i => on_store (modify i (integrateBall subDt)) w) activeBalls w in
  let w2 := fold_left (fun w i => pocketStep table i w) activeBalls w1 in
  let w3 := fold_left (fun w i => on_store (modify i (wallBall table spin)) w) activeBalls w2 in
  let currentActive :=
    filter (fun i => match nth_error (store w3) i with
                     | Some b => negb (potted b)
                     | None => false
                     end) activeBalls in
  fold_left (collideStep spin onCollision) (pairs currentActive) w3.

(** Apply Friction: the value of [drag] for one ball. *)
Definition effectiveDrag (spin : Spin) (timeScale : R) (b : Ball) : R :=
  let drag := ROLLING_RESISTANCE * timeScale in
  if BallType_eqb (type b) CUE then drag * (1.0 - (y spin * 0.2)) else drag.

(** Apply Friction: the body of the loop, for one ball. *)
Definition frictionBall (spin : Spin) (timeScale : R) (b : Ball) : Ball :=
  if potted b then b
  else
    let speed := vecLen (vel b) in
    if Rltb speed STOP_THRESHOLD then set_vel b zeroVec
    else
      let drag := effectiveDrag spin timeScale b in
      let drop := drag in
      let newSpeed := Rmax 0 (speed - drop) in
      if Rltb newSpeed (STOP_THRESHOLD * 2)
      then set_vel b (vecMult (vecNorm (vel b)) (newSpeed * 0.90))
      else set_vel b (vecMult (vecNorm (vel b)) newSpeed).

(** [updatePhysics balls table spin onPot dt onCollision]: the array after
    the call and the callbacks invoked, in order.  [onCollision] tells whether
    the optional collision callback was passed. *)
Definition updatePhysics (balls : list Ball) (table : TableConfig) (spin : Spin)
    (dt : R) (onCollision : bool) : World :=
  let timeScale := dt * 60 in
  let activeBalls := indices_where (fun b => negb (potted b)) balls in
  let subDt := timeScale / INR SUB_STEPS in
  let w := Nat.iter SUB_STEPS (subStep table spin onCollision subDt activeBalls)
                    (mkWorld balls []) in
  on_store (map (frictionBall spin timeScale)) w.

(** ** components/SnookerGame.tsx: geometry helpers *)

Definition BAULK_X : R := 170.
Definition CENTER_Y : R := 200.
Definition D_RADIUS : R := 60.

Definition getBallValue (t : BallType) : Z :=
  match t with
  | RED => 1
  | YELLOW => 2
  | GREEN => 3
  | BROWN => 4
  | BLUE => 5
  | PINK => 6
  | BLACK => 7
  | CUE => 0
  end%Z.

(** A distance that may still be the initial [Infinity]. *)
Inductive Dist : Type :=
  | Finite (d : R)
  | Infinity.

(** [Math.min] on distances. *)
Definition Dmin (a b : Dist) : Dist :=
  match a, b with
  | Finite p, Finite q => Finite (Rmin p q)
  | Finite p, Infinity => Finite p
  | Infinity, _ => b
  end.

(** [a < b] on distances. *)
Definition Dltb (a b : Dist) : bool :=
  match a, b with
  | Finite p, Finite q => Rltb p q
  | Finite _, Infinity => true
  | Infinity, _ => false
  end.

(** A computed point; [NaNPoint] is the point whose coordinates are NaN, the
    result of scaling the zero direction by [Infinity]. *)
Inductive Point : Type :=
  | At (p : Vector2)
  | NaNPoint.

Record Trajectory : Type := mkTrajectory {
  points : list Point;
  ghostBall : option Point;
  opacity : R
}.

(** 1. Find Distance to Walls. *)
Definition wallDistance (startPos dir : Vector2) (table : TableConfig) : Dist :=
  let minX := cushionWidth table + BALL_RADIUS in
  let maxX := width table - cushionWidth table - BALL_RADIUS in
  let minY := cushionWidth table + BALL_RADIUS in
  let maxY := height table - cushionWidth table - BALL_RADIUS in
  let distToWall := Infinity in
  let distToWall :=
    if Rltb 0 (x dir) then Dmin distToWall (Finite ((maxX - x startPos) / x dir))
    else if Rltb (x dir) 0 then Dmin distToWall (Finite ((minX - x startPos) / x dir))
    else distToWall in
  if Rltb 0 (y dir) then Dmin distToWall (Finite ((maxY - y startPos) / y dir))
  else if Rltb (y dir) 0 then Dmin distToWall (Finite ((minY - y startPos) / y dir))
  else distToWall.

(** 2. Find Closest Ball Intersection (Ray-Circle): the body of the loop on
    the pair [(closestHitDist, hitBall)]. *)
Definition hitStep (startPos dir : Vector2) (acc : Dist * option Ball) (b : Ball)
    : Dist * option Ball :=
  if BallType_eqb (type b) CUE || potted b then acc
  else
    let f := vecSub startPos (pos b) in
    let a := 1 in
    let bCoeff := 2 * vecDot f dir in
    let c := vecDot f f - (4 * BALL_RADIUS * BALL_RADIUS) in
    let delta := bCoeff * bCoeff - 4 * a * c in
    if Rleb 0 delta then
      let t := (- bCoeff - sqrt delta) / (2 * a) in
      if Rltb 0 t && Dltb (Finite t) (fst acc) then (Finite t, Some b) else acc
    else acc.

Definition closestHit (startPos dir : Vector2) (balls : list Ball) : Dist * option Ball :=
  fold_left (hitStep startPos dir) balls (Infinity, None).

Definition calculatePreciseTrajectory (startPos direction : Vector2) (balls : list Ball)
    (table : TableConfig) : Trajectory :=
  let dir := vecNorm direction in
  let distToWall := wallDistance startPos dir table in
  let closestHitDist := fst (closestHit startPos dir balls) in
  (* 3. Determine Endpoint *)
  let finalDist := Dmin distToWall closestHitDist in
  let endPos :=
    match finalDist with
    | Finite d => At (vecAdd startPos (vecMult dir d))
    | Infinity => NaNPoint
    end in
  mkTrajectory [At startPos; endPos]
               (if Dltb closestHitDist distToWall then Some endPos else None)
               1.

(** ** Check if Snookered *)

Fixpoint canSeeLoop (start dir : Vector2) (dist : R) (target : Ball) (l : list Ball) : bool :=
  match l with
  | [] => true
  | b :: rest =>
      if (id b =? id target)%nat || BallType_eqb (type b) CUE || potted b
      then canSeeLoop start dir dist target rest
      else
        let f := vecSub (pos b) start in
        let d := vecDot f dir in
        if Rltb d 0 || Rltb dist d then canSeeLoop start dir dist target rest
        else
          let closestPoint := vecAdd start (vecMult dir d) in
          let distToBall := vecDist closestPoint (pos b) in
          if Rltb distToBall (radius b * 1.95) then false
          else canSeeLoop start dir dist target rest
  end.

Definition canSeeBall (start : Vector2) (target : Ball) (allBalls : list Ball) : bool :=
  let dir := vecNorm (vecSub (pos target) start) in
  let dist := vecDist (pos target) start in
  canSeeLoop start dir dist target allBalls.

Definition legalTargetsOf (balls : list Ball) (targetState : TargetState) : list Ball :=
  match targetState with
  | TRed => filter (fun b => BallType_eqb (type b) RED && negb (potted b)) balls
  | TColor =>
      filter (fun b => negb (BallType_eqb (type b) RED)
                       && negb (BallType_eqb (type b) CUE) && negb (potted b)) balls
  | TType t => filter (fun b => BallType_eqb (type b) t && negb (potted b)) balls
  end.

Definition checkIsSnookered (balls : list Ball) (targetState : TargetState) : bool :=
  match find (fun b => BallType_eqb (type b) CUE && negb (potted b)) balls with
  | None => false
  | Some cueBall =>
      let legalTargets := legalTargetsOf balls targetState in
      match legalTargets with
      | [] => false
      | _ => forallb (fun t => negb (canSeeBall (pos cueBall) t balls)) legalTargets
      end
  end.

(** ** components/SnookerGame.tsx: the rule engine *)

(** [turnStatusRef.current]: the per-shot scratch record. *)
Record TurnStatus : Type := mkTurnStatus {
  statusPotted : bool;                 (* potted *)
  statusFoul : bool;                   (* foul *)
  firstHitType : option BallType;
  pottedBall : option Ball;
  pushShot : bool
}.

Record FoulInfo : Type := mkFoulInfo {
  active : bool;
  message : string;
  points_ : Z                          (* points *)
}.

(** The state of the component that the rule functions read and write.  The
    fields named [...Ref] are refs (written at once); the others are React
    state: a function reads the value of its render and its writes show in
    the state it returns.  Messages, statistics and animations are left out. *)
Record Game : Type := mkGame {
  ballsRef : list Ball;
  turnStatusRef : TurnStatus;
  currentBreakRef : Z;
  gameState : GameState;
  gameMode : GameMode;
  currentPlayer : Player;
  scoreP1 : Z;
  scoreP2 : Z;
  spin_ : Spin;                        (* spin *)
  targetState : TargetState;
  isFreeBall : bool;
  ballInHand : bool;
  showColorSelection : bool;
  foulDecisionNeeded : bool;
  offerFreeBall : bool;
  touchingBall : option Ball;
  isClearance : bool;
  foulNotification : FoulInfo
}.

Definition set_ballsRef (v : list Ball) (s : Game) : Game :=
  mkGame v (turnStatusRef s) (currentBreakRef s) (gameState s) (gameMode s)
    (currentPlayer s) (scoreP1 s) (scoreP2 s) (spin_ s) (targetState s) (isFreeBall s)
    (ballInHand s) (showColorSelection s) (foulDecisionNeeded s) (offerFreeBall s)
    (touchingBall s) (isClearance s) (foulNotification s).

Definition set_currentBreakRef (v : Z) (s : Game) : Game :=
  mkGame (ballsRef s) (turnStatusRef s) v (gameState s) (gameMode s)
    (currentPlayer s) (scoreP1 s) (scoreP2 s) (spin_ s) (targetState s) (isFreeBall s)
    (ballInHand s) (showColorSelection s) (foulDecisionNeeded s) (offerFreeBall s)
    (touchingBall s) (isClearance s) (foulNotification s).

Definition setGameState (v : GameState) (s : Game) : Game :=
  mkGame (ballsRef s) (turnStatusRef s) (currentBreakRef s) v (gameMode s)
    (currentPlayer s) (scoreP1 s) (scoreP2 s) (spin_ s) (targetState s) (isFreeBall s)
    (ballInHand s) (showColorSelection s) (foulDecisionNeeded s) (offerFreeBall s)
    (touchingBall s) (isClearance s) (foulNotification s).

Definition setCurrentPlayer (v : Player) (s : Game) : Game :=
  mkGame (ballsRef s) (turnStatusRef s) (currentBreakRef s) (gameState s) (gameMode s)
    v (scoreP1 s) (scoreP2 s) (spin_ s) (targetState s) (isFreeBall s)
    (ballInHand s) (showColorSelection s) (foulDecisionNeeded s) (offerFreeBall s)
    (touchingBall s) (isClearance s) (foulNotification s).

Definition setScoreP1 (v : Z) (s : Game) : Game :=
  mkGame (ballsRef s) (turnStatusRef s) (currentBreakRef s) (gameState s) (gameMode s)
    (currentPlayer s) v (scoreP2 s) (spin_ s) (targetState s) (isFreeBall s)
    (ballInHand s) (showColorSelection s) (foulDecisionNeeded s) (offerFreeBall s)
    (touchingBall s) (isClearance s) (foulNotification s).

Definition setScoreP2 (v : Z) (s : Game) : Game :=
  mkGame (ballsRef s) (turnStatusRef s) (currentBreakRef s) (gameState s) (gameMode s)
    (currentPlayer s) (scoreP1 s) v (spin_ s) (targetState s) (isFreeBall s)
    (ballInHand s) (showColorSelection s) (foulDecisionNeeded s) (offerFreeBall s)
    (touchingBall s) (isClearance s) (foulNotification s).

Definition setSpin (v : Spin) (s : Game) : Game :=
  mkGame (ballsRef s) (turnStatusRef s) (currentBreakRef s) (gameState s) (gameMode s)
    (currentPlayer s) (scoreP1 s) (scoreP2 s) v (targetState s) (isFreeBall s)
    (ballInHand s) (showColorSelection s) (foulDecisionNeeded s) (offerFreeBall s)
    (touchingBall s) (isClearance s) (foulNotification s).

Definition setTargetState (v : TargetState) (s : Game) : Game :=
  mkGame (ballsRef s) (turnStatusRef s) (currentBreakRef s) (gameState s) (gameMode s)
    (currentPlayer s) (scoreP1 s) (scoreP2 s) (spin_ s) v (isFreeBall s)
    (ballInHand s) (showColorSelection s) (foulDecisionNeeded s) (offerFreeBall s)
    (touchingBall s) (isClearance s) (foulNotification s).

Definition setIsFreeBall (v : bool) (s : Game) : Game :=
  mkGame (ballsRef s) (turnStatusRef s) (currentBreakRef s) (gameState s) (gameMode s)
    (currentPlayer s) (scoreP1 s) (scoreP2 s) (spin_ s) (targetState s) v
    (ballInHand s) (showColorSelection s) (foulDecisionNeeded s) (offerFreeBall s)
    (touchingBall s) (isClearance s) (foulNotification s).

Definition setBallInHand (v : bool) (s : Game) : Game :=
  mkGame (ballsRef s) (turnStatusRef s) (currentBreakRef s) (gameState s) (gameMode s)
    (currentPlayer s) (scoreP1 s) (scoreP2 s) (spin_ s) (targetState s) (isFreeBall s)
    v (showColorSelection s) (foulDecisionNeeded s) (offerFreeBall s)
    (touchingBall s) (isClearance s) (foulNotification s).

Definition setShowColorSelection (v : bool) (s : Game) : Game :=
  mkGame (ballsRef s) (turnStatusRef s) (currentBreakRef s) (gameState s) (gameMode s)
    (currentPlayer s) (scoreP1 s) (scoreP2 s) (spin_ s) (targetState s) (isFreeBall s)
    (ballInHand s) v (foulDecisionNeeded s) (offerFreeBall s)
    (touchingBall s) (isClearance s) (foulNotification s).

Definition setFoulDecisionNeeded (v : bool) (s : Game) : Game :=
  mkGame (ballsRef s) (turnStatusRef s) (currentBreakRef s) (gameState s) (gameMode s)
    (currentPlayer s) (scoreP1 s) (scoreP2 s) (spin_ s) (targetState s) (isFreeBall s)
    (ballInHand s) (showColorSelection s) v (offerFreeBall s)
    (touchingBall s) (isClearance s) (foulNotification s).

Definition setOfferFreeBall (v : bool) (s : Game) : Game :=
  mkGame (ballsRef s) (turnStatusRef s) (currentBreakRef s) (gameState s) (gameMode s)
    (currentPlayer s) (scoreP1 s) (scoreP2 s) (spin_ s) (targetState s) (isFreeBall s)
    (ballInHand s) (showColorSelection s) (foulDecisionNeeded s) v
    (touchingBall s) (isClearance s) (foulNotification s).

Definition setIsClearance (v : bool) (s : Game) : Game :=
  mkGame (ballsRef s) (turnStatusRef s) (currentBreakRef s) (gameState s) (gameMode s)
    (currentPlayer s) (scoreP1 s) (scoreP2 s) (spin_ s) (targetState s) (isFreeBall s)
    (ballInHand s) (showColorSelection s) (foulDecisionNeeded s) (offerFreeBall s)
    (touchingBall s) v (foulNotification s).

Definition setFoulNotification (v : FoulInfo) (s : Game) : Game :=
  mkGame (ballsRef s) (turnStatusRef s) (currentBreakRef s) (gameState s) (gameMode s)
    (currentPlayer s) (scoreP1 s) (scoreP2 s) (spin_ s) (targetState s) (isFreeBall s)
    (ballInHand s) (showColorSelection s) (foulDecisionNeeded s) (offerFreeBall s)
    (touchingBall s) (isClearance s) v.

(** [.sort((a, b) => a.value - b.value)]: a stable sort by ascending value. *)
Fixpoint insertByValue (b : Ball) (l : list Ball) : list Ball :=
  match l with
  | [] => [b]
  | c :: t => if (value b <=? value c)%Z then b :: c :: t else c :: insertByValue b t
  end.

Definition sortByValue (l : list Ball) : list Ball := fold_right insertByValue [] l.

(** [balls.filter(b => !b.potted && b.type !== BallType.CUE).sort(...)] *)
Definition sortedOnTable (balls : list Ball) : list Ball :=
  sortByValue (filter (fun b => negb (potted b) && negb (BallType_eqb (type b) CUE)) balls).

Definition redsExist (balls : list Ball) : bool :=
  existsb (fun b => BallType_eqb (type b) RED && negb (potted b)) balls.

Definition switchTurn (s : Game) : Game :=
  let s := set_currentBreakRef 0%Z s in
  let s := setIsFreeBall false s in
  let s := setSpin zeroVec s in
  let s :=
    if redsExist (ballsRef s) then setIsClearance false (setTargetState TRed s)
    else
      match sortedOnTable (ballsRef s) with
      | b :: _ => setIsClearance true (setTargetState (TType (type b)) s)
      | [] => s
      end in
  setCurrentPlayer
    (match gameMode s with
     | SINGLE_PLAYER => match currentPlayer s with ONE => AI | _ => ONE end
     | _ => match currentPlayer s with ONE => TWO | _ => ONE end
     end) s.

(** The designated spots, in the order of the [spots] array. *)
Definition spots : list (BallType * Vector2) :=
  [ (BLACK, mkVec 720 CENTER_Y);
    (PINK, mkVec 600 CENTER_Y);
    (BLUE, mkVec 400 CENTER_Y);
    (BROWN, mkVec BAULK_X CENTER_Y);
    (GREEN, mkVec BAULK_X (CENTER_Y - D_RADIUS));
    (YELLOW, mkVec BAULK_X (CENTER_Y + D_RADIUS)) ].

Definition overflowSpot : Vector2 := mkVec (730 + BALL_RADIUS * 2.1) CENTER_Y.

Fixpoint findIndex (p : Ball -> bool) (l : list Ball) : option nat :=
  match l with
  | [] => None
  | b :: t => if p b then Some O else option_map S (findIndex p t)
  end.

Definition isOccupied (balls : list Ball) (currentId : nat) (p : Vector2) : bool :=
  existsb (fun b => negb (potted b) && negb (id b =? currentId)%nat
                    && Rltb (vecDist (pos b) p) (BALL_RADIUS * 2)) balls.

(** [respawnBall(ball)] on [ballsRef.current]; only [ball.id] is read. *)
Definition respawnBall (ballId : nat) (balls : list Ball) : list Ball :=
  match findIndex (fun b => (id b =? ballId)%nat) balls with
  | None => balls
  | Some i =>
      let balls := modify i (fun b => set_vel (set_potted b false) zeroVec) balls in
      match nth_error balls i with
      | None => balls
      | Some currentBall =>
          match find (fun s => BallType_eqb (fst s) (type currentBall)) spots with
          | None => balls
          | Some targetSpot =>
              if negb (isOccupied balls (id currentBall) (snd targetSpot))
              then modify i (fun b => set_pos b (snd targetSpot)) balls
              else
                match find (fun s => negb (isOccupied balls (id currentBall) (snd s))) spots with
                | Some spot => modify i (fun b => set_pos b (snd spot)) balls
                | None => modify i (fun b => set_pos b overflowSpot) balls
                end
          end
      end
  end.

Definition BallType_name (t : BallType) : string :=
  match t with
  | CUE => "CUE" | RED => "RED" | YELLOW => "YELLOW" | GREEN => "GREEN"
  | BROWN => "BROWN" | BLUE => "BLUE" | PINK => "PINK" | BLACK => "BLACK"
  end%string.

(** [validHit]: is the first ball contacted a legal target? *)
Definition validHit (isFreeBall : bool) (targetState : TargetState) (hit : BallType) : bool :=
  if isFreeBall then
    if BallType_eqb hit RED then true
    else if negb (BallType_eqb hit CUE) then true else false
  else
    match targetState with
    | TRed => BallType_eqb hit RED
    | TColor => negb (BallType_eqb hit RED) && negb (BallType_eqb hit CUE)
    | TType t => BallType_eqb hit t
    end.

(** [validPot]: is the potted ball a legal pot? *)
Definition validPot (isFreeBall : bool) (targetState : TargetState) (pottedType : BallType)
    : bool :=
  if isFreeBall then negb (BallType_eqb pottedType CUE)
  else
    match targetState with
    | TRed => BallType_eqb pottedType RED
    | TColor => negb (BallType_eqb pottedType RED) && negb (BallType_eqb pottedType CUE)
    | TType t => BallType_eqb pottedType t
    end.

(** The first part of [handleTurnEnd]: the values of [isFoul], [penalty] and
    [foulMsg] when the chain of foul tests is over. *)
Definition foulCheck (st : TurnStatus) (targetState : TargetState) (isFreeBall : bool)
    (touchingBall : option Ball) : bool * Z * string :=
  let isFoul := statusFoul st in
  let penalty := 4%Z in
  let foulMsg := "FOUL"%string in
  let targetVal :=
    match targetState with
    | TRed | TColor => 4%Z
    | TType t => getBallValue t
    end in
  let '(isFoul, penalty, foulMsg) :=
    if pushShot st then
      let touchingVal :=
        match touchingBall with Some tb => getBallValue (type tb) | None => 4%Z end in
      (true, Z.max (Z.max 4 targetVal) touchingVal,
       "Push Shot (Hit into touching ball)"%string)
    else if statusFoul st && negb (pushShot st) then
      let hitVal :=
        match firstHitType st with Some h => getBallValue h | None => 4%Z end in
      (true, Z.max (Z.max 4 targetVal) hitVal, "Cue ball potted"%string)
    else
      match firstHitType st with
      | None => (true, Z.max 4 targetVal, "Missed all balls"%string)
      | Some hit =>
          if negb (validHit isFreeBall targetState hit) then
            (true, Z.max (Z.max 4 (getBallValue hit)) targetVal,
             match targetState with
             | TRed => "Hit Color first"
             | TColor => "Hit Red first"
             | TType _ => "Hit wrong ball (Hit " ++ BallType_name hit ++ ")"
             end%string)
          else (isFoul, penalty, foulMsg)
      end in
  match pottedBall st with
  | Some pb =>
      if negb isFoul && statusPotted st then
        if negb (validPot isFreeBall targetState (type pb)) then
          (true, Z.max (Z.max 4 (getBallValue (type pb))) targetVal,
           match targetState with
           | TRed => "Potted " ++ BallType_name (type pb)
           | TColor => "Potted RED"
           | TType _ => "Potted wrong color"
           end%string)
        else (isFoul, penalty, foulMsg)
      else (isFoul, penalty, foulMsg)
  | None => (isFoul, penalty, foulMsg)
  end.

(** The foul branch of [handleTurnEnd]; [s0] is the state of the render, [s]
    the state written so far. *)
Definition foulResolution (s0 : Game) (penalty : Z) (foulMsg : string) (s : Game) : Game :=
  let s := setFoulNotification (mkFoulInfo true foulMsg penalty) s in
  let s :=
    match currentPlayer s0 with
    | ONE => setScoreP2 (scoreP2 s + penalty)%Z s
    | _ => setScoreP1 (scoreP1 s + penalty)%Z s
    end in
  let s :=
    match findIndex (fun b => BallType_eqb (type b) CUE) (ballsRef s) with
    | Some i =>
        match nth_error (ballsRef s) i with
        | Some cueBall =>
            if potted cueBall then
              setBallInHand true
                (set_ballsRef
                   (modify i (fun b => set_pos (set_vel (set_potted b false) zeroVec)
                                               (mkVec 140 220)) (ballsRef s)) s)
            else s
        | None => s
        end
    | None => s
    end in
  let s :=
    match pottedBall (turnStatusRef s0) with
    | Some pb =>
        if negb (BallType_eqb (type pb) RED)
        then set_ballsRef (respawnBall (id pb) (ballsRef s)) s
        else s
    | None => s
    end in
  let s := switchTurn s in
  let snookered :=
    if negb (ballInHand s0) then
      let nextTarget :=
        if redsExist (ballsRef s) then TRed
        else match sortedOnTable (ballsRef s) with
             | b :: _ => TType (type b)
             | [] => TRed
             end in
      checkIsSnookered (ballsRef s) nextTarget
    else false in
  setFoulDecisionNeeded true (setOfferFreeBall snookered s).

(** The branch [if (potted && pottedBall)] of [handleTurnEnd] after a shot
    without foul; returns the state and [turnContinues].  The early [return]
    after [GAME_OVER] happens with [turnContinues] set, when the rest of the
    function writes nothing that is modelled. *)
Definition potResolution (s0 : Game) (pb : Ball) (s : Game) : Game * bool :=
  let points :=
    if isFreeBall s0 && negb (BallType_eqb (type pb) RED) then 1%Z else value pb in
  let s := set_currentBreakRef (currentBreakRef s + points)%Z s in
  let s :=
    match currentPlayer s0 with
    | ONE => setScoreP1 (scoreP1 s + points)%Z s
    | _ => setScoreP2 (scoreP2 s + points)%Z s
    end in
  let remainingReds :=
    List.length (filter (fun b => BallType_eqb (type b) RED && negb (potted b)) (ballsRef s)) in
  if isFreeBall s0 then
    let s := set_ballsRef (respawnBall (id pb) (ballsRef s)) s in
    let s := setTargetState TColor s in
    let s := setShowColorSelection true s in
    let s := setIsFreeBall false s in
    (setIsClearance false s, true)
  else if BallType_eqb (type pb) RED then
    let s := setTargetState TColor s in
    let s := setShowColorSelection true s in
    (setIsClearance false s, true)
  else
    match targetState s0 with
    | TColor =>
        let s := set_ballsRef (respawnBall (id pb) (ballsRef s)) s in
        if (0 <? remainingReds)%nat
        then (setIsClearance false (setTargetState TRed s), true)
        else (setIsClearance true (setTargetState (TType YELLOW) s), true)
    | TType t =>
        if (0 <? remainingReds)%nat then
          let s := set_ballsRef (respawnBall (id pb) (ballsRef s)) s in
          (setTargetState TRed s, true)
        else if BallType_eqb (type pb) t then
          match sortedOnTable (ballsRef s) with
          | b :: _ => (setTargetState (TType (type b)) s, true)
          | [] => (setGameState GAME_OVER s, true)
          end
        else (s, false)
    end.

Definition handleTurnEnd (s0 : Game) : Game :=
  let s := setSpin zeroVec s0 in
  let st := turnStatusRef s0 in
  let '(isFoul, penalty, foulMsg) :=
    foulCheck st (targetState s0) (isFreeBall s0) (touchingBall s0) in
  if isFoul then foulResolution s0 penalty foulMsg s
  else
    let '(s, turnContinues) :=
      match pottedBall st with
      | Some pb => if statusPotted st then potResolution s0 pb s else (s, false)
      | None => (s, false)
      end in
    if turnContinues then s else switchTurn s.

(** ** utils/ai.ts *)

Record AIShot : Type := mkAIShot { aimDir : Vector2; power : R }.

(** [bestPot]: the best potting opportunity found so far. *)
Record PotOption : Type := mkPotOption {
  ball : Ball;
  dist : R;
  angleDiff : R;
  pocket : Vector2;
  confidence : R
}.

(** The values of the calls to [Math.random()], in [0, 1), by place of call. *)
Record Draws : Type := mkDraws {
  safetyPowerDraw : R;      (* power = 30 + Math.random() * 40 *)
  randomDirX : R;           (* finalDir = { x: Math.random(), ... } *)
  randomDirY : R;           (* finalDir = { ..., y: Math.random() } *)
  errorAngleDraw : R;       (* errorAngle = (Math.random() - 0.5) * ... *)
  powerErrorDraw : R        (* powerError = ... + Math.random() * ... *)
}.

(** 2. Evaluate Potting Opportunities: the body of the inner loop. *)
Definition considerPot (cueBall : Ball) (maxDist : R) (target : Ball)
    (bestPot : option PotOption) (pocket : Vector2) : option PotOption :=
  let toPocket := vecSub pocket (pos target) in
  let dirToPocket := vecNorm toPocket in
  let impactPos := vecSub (pos target) (vecMult dirToPocket (radius target * 2)) in
  let toImpact := vecSub impactPos (pos cueBall) in
  let distToImpact := vecLen toImpact in
  let vecCueToTarget := vecNorm (vecSub (pos target) (pos cueBall)) in
  let cutAngle := acos (vecDot vecCueToTarget dirToPocket) in
  if Rltb 1.4 cutAngle then bestPot
  else
    let angleScore := Rmax 0 (1 - (cutAngle / 1.3)) in
    let distScore := Rmax 0 (1 - (distToImpact / maxDist)) in
    let conf := (angleScore * 0.7) + (distScore * 0.3) in
    match bestPot with
    | None => Some (mkPotOption target distToImpact cutAngle pocket conf)
    | Some best =>
        if Rltb (confidence best) conf
        then Some (mkPotOption target distToImpact cutAngle pocket conf)
        else bestPot
    end.

Definition findBestPot (cueBall : Ball) (table : TableConfig) (legalTargets : list Ball)
    : option PotOption :=
  let maxDist := sqrt (width table * width table + height table * height table) in
  fold_left (fun best target => fold_left (considerPot cueBall maxDist target) (pockets table) best)
            legalTargets None.

(** The furthest legal ball: the loop on [(safetyTarget, bestSafetyDist)]. *)
Definition furthestTarget (cueBall : Ball) (legalTargets : list Ball) : option Ball :=
  fst (fold_left (fun (acc : option Ball * R) t =>
                    let d := vecDist (pos t) (pos cueBall) in
                    if Rltb (snd acc) d then (Some t, d) else acc)
                 legalTargets (hd_error legalTargets, 0)).

Definition calculateAIShot (cueBall : Ball) (balls : list Ball) (table : TableConfig)
    (difficulty : Difficulty) (targetState : TargetState) (rnd : Draws) : AIShot :=
  (* 1. Identify Legal Targets *)
  let activeBalls :=
    filter (fun b => negb (potted b) && negb (BallType_eqb (type b) CUE)) balls in
  let legalTargets :=
    match targetState with
    | TRed => filter (fun b => BallType_eqb (type b) RED) activeBalls
    | TColor => filter (fun b => negb (BallType_eqb (type b) RED)) activeBalls
    | TType t => filter (fun b => BallType_eqb (type b) t) activeBalls
    end in
  let legalTargets :=
    match legalTargets, activeBalls with
    | [], _ :: _ => activeBalls
    | _, _ => legalTargets
    end in
  let bestPot := findBestPot cueBall table legalTargets in
  (* 3. Strategic Decision Making based on Difficulty *)
  let safetyThreshold :=
    match difficulty with EASY => 0.05 | MEDIUM => 0.4 | HARD => 0.6 end in
  let safety :=
    match furthestTarget cueBall legalTargets with
    | Some safetyTarget =>
        let toCenter := vecSub (pos safetyTarget) (pos cueBall) in
        let dir := vecNorm toCenter in
        let perp := mkVec (- y dir) (x dir) in
        let thinFactor := match difficulty with HARD => 1.0 | _ => 0.5 end in
        let offset := vecMult perp (radius safetyTarget * 2 * thinFactor) in
        let safetyPoint := vecAdd (pos safetyTarget) offset in
        (vecNorm (vecSub safetyPoint (pos cueBall)),
         match difficulty with
         | HARD => 45
         | _ => 30 + safetyPowerDraw rnd * 40
         end)
    | None => (mkVec (randomDirX rnd) (randomDirY rnd), 20)
    end in
  let '(finalDir, power) :=
    match bestPot with
    | Some best =>
        if Rltb safetyThreshold (confidence best) then
          let target := ball best in
          let toPocket := vecNorm (vecSub (pocket best) (pos target)) in
          let impactPos := vecSub (pos target) (vecMult toPocket (radius target * 2)) in
          let power := 35 + (dist best / 8) in
          (vecNorm (vecSub impactPos (pos cueBall)),
           match difficulty with
           | HARD => Rmin 85 (power + 10)
           | _ => power
           end)
        else safety
    | None => safety
    end in
  (* 4. Apply Human Error (Accuracy) *)
  let '(errorAngle, powerError) :=
    match difficulty with
    | EASY => ((errorAngleDraw rnd - 0.5) * 0.12, 0.8 + powerErrorDraw rnd * 0.4)
    | MEDIUM => ((errorAngleDraw rnd - 0.5) * 0.05, 0.9 + powerErrorDraw rnd * 0.2)
    | HARD => ((errorAngleDraw rnd - 0.5) * 0.008, 0.98 + powerErrorDraw rnd * 0.04)
    end in
  let cos_ := cos errorAngle in
  let sin_ := sin errorAngle in
  let erroredDir :=
    mkVec (x finalDir * cos_ - y finalDir * sin_) (x finalDir * sin_ + y finalDir * cos_) in
  mkAIShot erroredDir (Rmin 100 (Rmax 5 (power * powerError))).

(** * Notions used to state the properties *)

(** The speed a ball loses in the friction phase of one call. *)
Definition speedLoss (spin : Spin) (timeScale : R) (b : Ball) : R :=
  vecLen (vel b) - vecLen (vel (frictionBall spin timeScale b)).

(** A cue ball rolling at speed 10 from its opening position. *)
Definition rollingCueBall : Ball :=
  mkBall 0 CUE (mkVec 150 230) (mkVec 10 0) BALL_RADIUS "#fefefe" 1 false 0.

(** The five fouls of a shot, and the order in which they take precedence. *)
Inductive FoulKind : Type :=
  | PushShotFoul
  | CueBallPotted
  | NoBallContacted
  | IllegalFirstContact
  | IllegalPot.

Definition foulPrecedence : list FoulKind :=
  [PushShotFoul; CueBallPotted; NoBallContacted; IllegalFirstContact; IllegalPot].

(** Does the condition of a foul hold for the shot recorded in [st]? *)
Definition foulCondition (st : TurnStatus) (target : TargetState) (freeBall : bool)
    (k : FoulKind) : bool :=
  match k with
  | PushShotFoul => pushShot st
  | CueBallPotted => statusFoul st
  | NoBallContacted => match firstHitType st with None => true | Some _ => false end
  | IllegalFirstContact =>
      match firstHitType st with
      | Some hit => negb (validHit freeBall target hit)
      | None => false
      end
  | IllegalPot =>
      match pottedBall st with
      | Some pb => statusPotted st && negb (validPot freeBall target (type pb))
      | None => false
      end
  end.

(** The first condition that matches, in the order of precedence. *)
Definition firstMatchingFoul (st : TurnStatus) (target : TargetState) (freeBall : bool)
    : option FoulKind :=
  find (foulCondition st target freeBall) foulPrecedence.

(** The value the penalty is raised to, above the minimum of 4: the value of
    the target colour and of the ball the foul involves. *)
Definition targetValue (target : TargetState) : Z :=
  match target with
  | TColor => 4%Z
  | TType RED => 4%Z
  | TType t => getBallValue t
  end.

Definition involvedValue (st : TurnStatus) (touching : option Ball) (k : FoulKind) : Z :=
  match k with
  | PushShotFoul =>
      match touching with Some tb => getBallValue (type tb) | None => 4%Z end
  | CueBallPotted | IllegalFirstContact =>
      match firstHitType st with Some h => getBallValue h | None => 4%Z end
  | NoBallContacted => 4%Z
  | IllegalPot =>
      match pottedBall st with Some pb => getBallValue (type pb) | None => 4%Z end
  end.

Definition foulPenalty (st : TurnStatus) (target : TargetState) (touching : option Ball)
    (k : FoulKind) : Z :=
  Z.max 4 (Z.max (targetValue target) (involvedValue st touching k)).

(** The message that names each foul to the players. *)
Definition foulMessage (st : TurnStatus) (target : TargetState) (k : FoulKind) : string :=
  match k with
  | PushShotFoul => "Push Shot (Hit into touching ball)"
  | CueBallPotted => "Cue ball potted"
  | NoBallContacted => "Missed all balls"
  | IllegalFirstContact =>
      match target with
      | TType RED => "Hit Color first"
      | TColor => "Hit Red first"
      | TType _ =>
          "Hit wrong ball (Hit "
          ++ match firstHitType st with Some h => BallType_name h | None => "" end ++ ")"
      end
  | IllegalPot =>
      match target with
      | TType RED =>
          "Potted " ++ match pottedBall st with Some pb => BallType_name (type pb) | None => "" end
      | TColor => "Potted RED"
      | TType _ => "Potted wrong color"
      end
  end%string.

(** The spot on which [setupBalls] places each colour: its designated spot. *)
Definition designatedSpot (t : BallType) : option Vector2 :=
  match t with
  | YELLOW => Some (mkVec BAULK_X (CENTER_Y + D_RADIUS))
  | GREEN => Some (mkVec BAULK_X (CENTER_Y - D_RADIUS))
  | BROWN => Some (mkVec BAULK_X CENTER_Y)
  | BLUE => Some (mkVec 400 CENTER_Y)
  | PINK => Some (mkVec 600 CENTER_Y)
  | BLACK => Some (mkVec 720 CENTER_Y)
  | CUE | RED => None
  end.

(** The order in which the spots are tried when a ball's own spot is taken. *)
Definition spotPriority : list BallType := [BLACK; PINK; BLUE; BROWN; GREEN; YELLOW].

(** A spot is occupied for the ball [self] when another ball that is not
    potted lies within two ball radii of it. *)
Definition occupiedBy (balls : list Ball) (self : nat) (p : Vector2) : Prop :=
  exists b : Ball,
    In b balls /\ potted b = false /\ id b <> self /\ vecDist (pos b) p < 2 * BALL_RADIUS.

Definition spotOf (t : BallType) : Vector2 :=
  match designatedSpot t with Some q => q | None => zeroVec end.

(** The balls a striker may play at: the reds, the colours, or the one
    colour that is on, among the balls still on the table. *)
Definition isLegalTarget (target : TargetState) (b : Ball) : Prop :=
  potted b = false /\
  match target with
  | TColor => type b <> RED /\ type b <> CUE
  | TType t => type b = t
  end.

(** [b] obstructs the line of sight from [start] to the centre of [target]:
    it is another ball on the table, not the cue ball, its projection on the
    line falls within the segment and it lies within 1.95 times its radius of
    the line. *)
Definition obstructs (start : Vector2) (target b : Ball) : Prop :=
  id b <> id target /\ type b <> CUE /\ potted b = false /\
  let dir := vecNorm (vecSub (pos target) start) in
  let d := vecDot (vecSub (pos b) start) dir in
  0 <= d <= vecDist (pos target) start /\
  vecDist (vecAdd start (vecMult dir d)) (pos b) < 1.95 * radius b.

(** The cue ball of the table, as [checkIsSnookered] finds it. *)
Definition cueBallOf (balls : list Ball) : option Ball :=
  find (fun b => BallType_eqb (type b) CUE && negb (potted b)) balls.

(** A ball other than the cue ball that is still on the table. *)
Definition onTable (balls : list Ball) (b : Ball) : Prop :=
  In b balls /\ potted b = false /\ type b <> CUE.

(** A ball on the table of the lowest value. *)
Definition lowestOnTable (balls : list Ball) (b : Ball) : Prop :=
  onTable balls b /\ forall c, onTable balls c -> (value b <= value c)%Z.

Definition redsRemain (balls : list Ball) : Prop :=
  exists b, In b balls /\ type b = RED /\ potted b = false.

(** The shot recorded in [s] potted [pb] and committed no foul. *)
Definition legitimatePot (s : Game) (pb : Ball) : Prop :=
  fst (fst (foulCheck (turnStatusRef s) (targetState s) (isFreeBall s) (touchingBall s)))
  = false /\
  statusPotted (turnStatusRef s) = true /\
  pottedBall (turnStatusRef s) = Some pb.

(** A list in ascending order of value. *)
Fixpoint ascending (l : list Ball) : Prop :=
  match l with
  | [] => True
  | b :: t => (forall c, In c t -> (value b <= value c)%Z) /\ ascending t
  end.

(** The end of a frame: no red is left, yellow is on and on its spot, the
    striker was awarded a free ball and potted the brown with it. *)
Definition pottedBrown : Ball :=
  mkBall 3 BROWN (mkVec 42 42) zeroVec BALL_RADIUS "#92400e" 1 true 4.

Definition yellowOnSpot : Ball :=
  mkBall 1 YELLOW (mkVec BAULK_X (CENTER_Y + D_RADIUS)) zeroVec BALL_RADIUS "#eab308" 1 false 2.

Definition cueAtBreak : Ball :=
  mkBall 0 CUE (mkVec 150 230) zeroVec BALL_RADIUS "#fefefe" 1 false 0.

Definition freeBallTable : list Ball := [cueAtBreak; yellowOnSpot; pottedBrown].

Definition freeBallShot : Game :=
  mkGame freeBallTable
    (mkTurnStatus true false (Some BROWN) (Some pottedBrown) false)
    0 PLAYING TWO_PLAYER ONE 0 0 zeroVec (TType YELLOW) true false false false false None
    true (mkFoulInfo false "" 0).

(** The first pot of a frame: a red goes down while the other reds stay. *)
Definition pottedRed : Ball :=
  mkBall 7 RED (mkVec 758 42) zeroVec BALL_RADIUS "#dc2626" 1 true 1.

Definition redOnTable : Ball :=
  mkBall 8 RED (mkVec 640 200) zeroVec BALL_RADIUS "#dc2626" 1 false 1.

Definition redPotShot : Game :=
  mkGame [cueAtBreak; yellowOnSpot; pottedRed; redOnTable]
    (mkTurnStatus true false (Some RED) (Some pottedRed) false)
    0 PLAYING TWO_PLAYER ONE 0 0 zeroVec (TType RED) false false false false false None
    false (mkFoulInfo false "" 0).

(** The distance at which the ray enters the circle of radius two ball radii
    around [b], as the loop of [calculatePreciseTrajectory] computes it. *)
Definition entryDistance (startPos dir : Vector2) (b : Ball) : option R :=
  if BallType_eqb (type b) CUE || potted b then None
  else
    let f := vecSub startPos (pos b) in
    let bCoeff := 2 * vecDot f dir in
    let c := vecDot f f - (4 * BALL_RADIUS * BALL_RADIUS) in
    let delta := bCoeff * bCoeff - 4 * 1 * c in
    if Rleb 0 delta then
      let t := (- bCoeff - sqrt delta) / (2 * 1) in
      if Rltb 0 t then Some t else None
    else None.

(** [a <= b] on distances. *)
Definition Dle (a b : Dist) : Prop :=
  match a, b with
  | Finite p, Finite q => p <= q
  | _, Infinity => True
  | Infinity, Finite _ => False
  end.

(** Travelling [d] along [dir] from [startPos] brings the ball centre onto
    the line of a wall of the inset rectangle that the ray is heading to. *)
Definition reachesWall (startPos dir : Vector2) (table : TableConfig) (d : R) : Prop :=
  (0 < x dir /\ x startPos + x dir * d = width table - cushionWidth table - BALL_RADIUS) \/
  (x dir < 0 /\ x startPos + x dir * d = cushionWidth table + BALL_RADIUS) \/
  (0 < y dir /\ y startPos + y dir * d = height table - cushionWidth table - BALL_RADIUS) \/
  (y dir < 0 /\ y startPos + y dir * d = cushionWidth table + BALL_RADIUS).

Definition nearestWall (startPos dir : Vector2) (table : TableConfig) (w : R) : Prop :=
  reachesWall startPos dir table w /\
  forall d, reachesWall startPos dir table d -> w <= d.

(** An object ball on the table whose circle of radius two ball radii does
    not contain the start point. *)
Definition inPlay (startPos : Vector2) (b : Ball) : Prop :=
  type b <> CUE /\ potted b = false /\ 2 * BALL_RADIUS < vecDist startPos (pos b).

(** The ray meets the circle of radius two ball radii around [b] at the
    positive distance [t]. *)
Definition meetsCircle (startPos dir : Vector2) (b : Ball) (t : R) : Prop :=
  0 < t /\ vecDist (vecAdd startPos (vecMult dir t)) (pos b) = 2 * BALL_RADIUS.

Definition nearestBallHit (startPos dir : Vector2) (balls : list Ball) (t : R) : Prop :=
  (exists b, In b balls /\ inPlay startPos b /\ meetsCircle startPos dir b t) /\
  forall b' t', In b' balls -> inPlay startPos b' -> meetsCircle startPos dir b' t' -> t <= t'.

(** The table of the game, and a red touching a cue ball placed at
    (100, 100): the two overlap by 0.04, within the penetration slop that the
    physics engine leaves between balls in contact. *)
Definition TABLE_CONFIG : TableConfig := mkTable TABLE_WIDTH TABLE_HEIGHT 17 42.

Definition touchingRed : Ball :=
  mkBall 9 RED (mkVec 118.46 100) zeroVec BALL_RADIUS "#dc2626" 1 false 1.

(** A red rolling into the top-left pocket. *)
Definition redRollingIn : Ball :=
  mkBall 7 RED (mkVec 52 42) (mkVec (-10) 0) BALL_RADIUS "#dc2626" 1 false 1.

(** A red further along the line from (100, 100), clear of the start point. *)
Definition redAhead : Ball :=
  mkBall 8 RED (mkVec 200 100) zeroVec BALL_RADIUS "#dc2626" 1 false 1.

(** The number of times [onPot] was invoked on the ball of index [k]. *)
Definition isPot (k : nat) (e : Event) : bool :=
  match e with
  | Pot i => (i =? k)%nat
  | Collision _ _ _ => false
  end.

Definition potCount (k : nat) (tr : list Event) : nat :=
  List.length (filter (isPot k) tr).

(** The ball of index [k] is [b] and was reported potted [c] times. *)
Definition Keeps (k : nat) (b : Ball) (c : nat) (w : World) : Prop :=
  nth_error (store w) k = Some b /\ potCount k (trace w) = c.

(** The ball of index [k] has potted flag [p] and was reported potted [c] times. *)
Definition Flag (k : nat) (p : bool) (c : nat) (w : World) : Prop :=
  exists b, nth_error (store w) k = Some b /\ potted b = p /\ potCount k (trace w) = c.

(** A ball that entered the call in play is either still in play and never
    reported, or captured: potted, at rest and reported exactly once. *)
Definition InPlayOrCaptured (k : nat) (w : World) : Prop :=
  exists b, nth_error (store w) k = Some b /\
    ((potted b = false /\ potCount k (trace w) = 0%nat) \/
     (potted b = true /\ vel b = zeroVec /\ potCount k (trace w) = 1%nat)).

(** Kinetic energy of a ball and of the balls of the table. *)
Definition kinetic (b : Ball) : R := / 2 * mass b * (vecLen (vel b))².

Definition totalEnergy (balls : list Ball) : R :=
  fold_right (fun b acc => kinetic b + acc) 0 balls.

(** [b'] is [b] moved and with another velocity, nothing else: what the
    phases of the engine do, the capture apart. *)
Definition moved (b b' : Ball) : Prop :=
  b' = set_vel (set_pos b (pos b')) (vel b').

(** All the balls have mass [m], and their energy does not exceed [E]. *)
Definition EnergyBound (m E : R) (w : World) : Prop :=
  Forall (fun b => mass b = m) (store w) /\ totalEnergy (store w) <= E.

(** The discriminant of [t^2 + B t + c] and its smaller root, as the
    trajectory loop writes them (with [a = 1]). *)
Definition discriminant (B c : R) : R := B * B - 4 * 1 * c.

Definition nearRoot (B c : R) : R := (- B - sqrt (discriminant B c)) / (2 * 1).

(** * Further notions *)

(** [b'] is the same ball as [b]: the fields that identify a ball and that
    no phase of the game may change. *)
Definition sameBall (b b' : Ball) : Prop :=
  id b' = id b /\ type b' = type b /\ radius b' = radius b /\
  color b' = color b /\ mass b' = mass b /\ value b' = value b.

(** The ball of index [k] is still the ball [b0], and still potted if [b0] was. *)
Definition StillBall (k : nat) (b0 : Ball) (w : World) : Prop :=
  exists b, nth_error (store w) k = Some b /\ sameBall b0 b /\
            (potted b0 = true -> potted b = true).

(** Every ball of the table is at rest. *)
Definition allAtRest (balls : list Ball) : Prop :=
  Forall (fun b => vel b = zeroVec) balls.

(** The centre [p] of a ball of radius [r] is within the cushions of [table]. *)
Definition withinCushions (table : TableConfig) (r : R) (p : Vector2) : Prop :=
  cushionWidth table + r <= x p <= width table - cushionWidth table - r /\
  cushionWidth table + r <= y p <= height table - cushionWidth table - r.

(** The player the turn passes to, by game mode. *)
Definition opponent (mode : GameMode) (p : Player) : Player :=
  match mode with
  | SINGLE_PLAYER => match p with ONE => AI | _ => ONE end
  | _ => match p with ONE => TWO | _ => ONE end
  end.

(** The score of the player at the table, and of the other one. *)
Definition strikerScore (p : Player) (s : Game) : Z :=
  match p with ONE => scoreP1 s | _ => scoreP2 s end.

Definition opponentScore (p : Player) (s : Game) : Z :=
  match p with ONE => scoreP2 s | _ => scoreP1 s end.

(** The points a pot is worth: the value of the ball, or 1 for a colour
    potted as a free ball. *)
Definition potPoints (s : Game) (pb : Ball) : Z :=
  if isFreeBall s && negb (BallType_eqb (type pb) RED) then 1%Z else value pb.

(** The first ball of type CUE is at index [i] and is [c]. *)
Definition cueBallAt (balls : list Ball) (i : nat) (c : Ball) : Prop :=
  findIndex (fun b => BallType_eqb (type b) CUE) balls = Some i /\
  nth_error balls i = Some c.

(** An in-off: the cue ball hit a red and followed it into a pocket. *)
Definition cueInPocket : Ball :=
  mkBall 0 CUE (mkVec 783 383) zeroVec BALL_RADIUS "#fefefe" 1 true 0.

Definition inOffShot : Game :=
  mkGame [cueInPocket; yellowOnSpot; pottedRed; redOnTable]
    (mkTurnStatus true true (Some RED) (Some pottedRed) false)
    8 PLAYING SINGLE_PLAYER AI 3 12 (mkVec 0 0.5) (TType RED) false false false false false None
    false (mkFoulInfo false "" 0).

(** The four writes of the foul branch of [handleTurnEnd], one by one: the
    notification and the penalty, the cue ball out of the pocket, the potted
    colour back on a spot, and the test for a free ball. *)
Definition chargeFoul (striker : Player) (penalty : Z) (foulMsg : string) (s : Game) : Game :=
  let s := setFoulNotification (mkFoulInfo true foulMsg penalty) s in
  match striker with
  | ONE => setScoreP2 (scoreP2 s + penalty)%Z s
  | _ => setScoreP1 (scoreP1 s + penalty)%Z s
  end.

Definition cueBackOnTable (s : Game) : Game :=
  match findIndex (fun b => BallType_eqb (type b) CUE) (ballsRef s) with
  | Some i =>
      match nth_error (ballsRef s) i with
      | Some cueBall =>
          if potted cueBall then
            setBallInHand true
              (set_ballsRef
                 (modify i (fun b => set_pos (set_vel (set_potted b false) zeroVec)
                                             (mkVec 140 220)) (ballsRef s)) s)
          else s
      | None => s
      end
  | None => s
  end.

Definition respotPotted (pottedBall : option Ball) (s : Game) : Game :=
  match pottedBall with
  | Some pb =>
      if negb (BallType_eqb (type pb) RED)
      then set_ballsRef (respawnBall (id pb) (ballsRef s)) s
      else s
  | None => s
  end.

Definition snookeredAfterFoul (hadBallInHand : bool) (s : Game) : bool :=
  if negb hadBallInHand then
    let nextTarget :=
      if redsExist (ballsRef s) then TRed
      else match sortedOnTable (ballsRef s) with
           | b :: _ => TType (type b)
           | [] => TRed
           end in
    checkIsSnookered (ballsRef s) nextTarget
  else false.

(** The D: the half disc of radius [D_RADIUS] behind the baulk line. *)
Definition inTheD (p : Vector2) : Prop :=
  x p <= BAULK_X /\ vecDist p (mkVec BAULK_X CENTER_Y) <= D_RADIUS.

(** * More of components/SnookerGame.tsx *)

Definition POWER_SCALE : R := 0.23.

Definition setTurnStatusRef (v : TurnStatus) (s : Game) : Game :=
  mkGame (ballsRef s) v (currentBreakRef s) (gameState s) (gameMode s)
    (currentPlayer s) (scoreP1 s) (scoreP2 s) (spin_ s) (targetState s) (isFreeBall s)
    (ballInHand s) (showColorSelection s) (foulDecisionNeeded s) (offerFreeBall s)
    (touchingBall s) (isClearance s) (foulNotification s).

Definition setTouchingBall (v : option Ball) (s : Game) : Game :=
  mkGame (ballsRef s) (turnStatusRef s) (currentBreakRef s) (gameState s) (gameMode s)
    (currentPlayer s) (scoreP1 s) (scoreP2 s) (spin_ s) (targetState s) (isFreeBall s)
    (ballInHand s) (showColorSelection s) (foulDecisionNeeded s) (offerFreeBall s)
    v (isClearance s) (foulNotification s).

(** ** The decisions of the players *)

Inductive Decision : Type := PLAY | AGAIN | FREE.

(** The messages [sendNetworkMessage] is given by the two handlers. *)
Inductive NetMessage : Type :=
  | INPUT_NOMINATE (ball : BallType)
  | INPUT_DECISION (decision : Decision).

(** [handleColorSelect(ballType)]: the state after the call and the messages
    sent. *)
Definition handleColorSelect (ballType : BallType) (s : Game) : Game * list NetMessage :=
  match gameMode s with
  | ONLINE_CLIENT => (s, [INPUT_NOMINATE ballType])
  | _ => (setShowColorSelection false (setTargetState (TType ballType) s), [])
  end.

(** [handleFoulDecision(decision)] *)
Definition handleFoulDecision (decision : Decision) (s : Game) : Game * list NetMessage :=
  match gameMode s with
  | ONLINE_CLIENT => (s, [INPUT_DECISION decision])
  | _ =>
      let s := setFoulDecisionNeeded false s in
      let s :=
        setFoulNotification
          (mkFoulInfo false (message (foulNotification s)) (points_ (foulNotification s))) s in
      (match decision with
       | PLAY => s
       | AGAIN => switchTurn s
       | FREE => setIsFreeBall true s
       end, [])
  end.

(** ** The callbacks given to [updatePhysics] *)

(** [onCollision(b1, b2, impact)], on [turnStatusRef.current]. *)
Definition onCollision (b1 b2 : Ball) (st : TurnStatus) : TurnStatus :=
  match firstHitType st with
  | None =>
      if BallType_eqb (type b1) CUE
      then mkTurnStatus (statusPotted st) (statusFoul st) (Some (type b2)) (pottedBall st)
                        (pushShot st)
      else if BallType_eqb (type b2) CUE
      then mkTurnStatus (statusPotted st) (statusFoul st) (Some (type b1)) (pottedBall st)
                        (pushShot st)
      else st
  | Some _ => st
  end.

(** [handlePot(ball)], on [turnStatusRef.current]; the ball it is given has
    been marked potted by [updatePhysics]. *)
Definition handlePot (b : Ball) (st : TurnStatus) : TurnStatus :=
  if BallType_eqb (type b) CUE
  then mkTurnStatus (statusPotted st) true (firstHitType st) (pottedBall st) (pushShot st)
  else mkTurnStatus true (statusFoul st) (firstHitType st) (Some b) (pushShot st).

(** The callbacks of one call to [updatePhysics], in the order of the trace;
    the balls are looked up in the array the call returns. *)
Definition runCallback (balls : list Ball) (st : TurnStatus) (e : Event) : TurnStatus :=
  match e with
  | Pot i =>
      match nth_error balls i with
      | Some b => handlePot b st
      | None => st
      end
  | Collision i j _ =>
      match nth_error balls i, nth_error balls j with
      | Some b1, Some b2 => onCollision b1 b2 st
      | _, _ => st
      end
  end.

Definition runCallbacks (balls : list Ball) (tr : list Event) (st : TurnStatus) : TurnStatus :=
  fold_left (runCallback balls) tr st.

(** ** The shot *)

(** [Math.atan2(y, x)] on the reals. *)
Definition atan2 (y x : R) : R :=
  if Rltb 0 x then atan (y / x)
  else if Rltb x 0 then (if Rleb 0 y then atan (y / x) + PI else atan (y / x) - PI)
  else if Rltb 0 y then PI / 2
  else if Rltb y 0 then - (PI / 2)
  else 0.

(** [takeShot(dir, power)].  [chalkLevel] is the chalk of the render;
    [miscueDraw] and [angleDraw] are the two calls to [Math.random()]. *)
Definition takeShot (dir : Vector2) (power : R) (chalkLevel miscueDraw angleDraw : R)
    (s : Game) : Game :=
  match findIndex (fun b => BallType_eqb (type b) CUE) (ballsRef s) with
  | None => s
  | Some i =>
      match nth_error (ballsRef s) i with
      | None => s
      | Some cueBall =>
          let st := mkTurnStatus false false None None false in
          let st :=
            match touchingBall s with
            | Some tb =>
                let vecToTouching := vecNorm (vecSub (pos tb) (pos cueBall)) in
                let dot := vecDot dir vecToTouching in
                if Rltb 0.05 dot
                then mkTurnStatus (statusPotted st) true (firstHitType st) (pottedBall st) true
                else
                  let tType := type tb in
                  let isValidTouch :=
                    if isFreeBall s then true
                    else match targetState s with
                         | TColor => negb (BallType_eqb tType RED)
                         | TType t => BallType_eqb tType t
                         end in
                  if isValidTouch
                  then mkTurnStatus (statusPotted st) (statusFoul st) (Some tType)
                                    (pottedBall st) (pushShot st)
                  else st
            | None => st
            end in
          let '(finalPower, finalDir) :=
            match currentPlayer s, gameMode s with
            | AI, _ => (power, dir)
            | _, SINGLE_PLAYER =>
                if Rltb chalkLevel 15 && Rltb 0.5 miscueDraw then
                  let angle := atan2 (y dir) (x dir) + (angleDraw - 0.5) in
                  (power * 0.1, mkVec (cos angle) (sin angle))
                else (power, dir)
            | _, _ => (power, dir)
            end in
          setTurnStatusRef st
            (set_ballsRef
               (modify i (fun b => set_vel b (vecMult finalDir (finalPower * POWER_SCALE)))
                       (ballsRef s)) s)
      end
  end.

(** ** Touching ball and ball in hand *)

(** The effect "Check for Touching Ball"; [balls] and [isMoving] are the
    state of the render. *)
Definition checkTouchingBall (balls : list Ball) (isMoving : bool) (s : Game) : Game :=
  match gameState s with
  | PLAYING =>
      if negb isMoving && negb (ballInHand s) then
        match find (fun b => BallType_eqb (type b) CUE) balls with
        | Some cueBall =>
            setTouchingBall
              (find (fun b => negb (potted b) && negb (BallType_eqb (type b) CUE)
                              && Rleb (vecDist (pos cueBall) (pos b)) (BALL_RADIUS * 2 + 0.5))
                    balls) s
        | None => s
        end
      else setTouchingBall None s
  | _ => setTouchingBall None s
  end.

Definition overlapsObject (balls : list Ball) (p : Vector2) : bool :=
  existsb (fun b => negb (potted b) && negb (BallType_eqb (type b) CUE)
                    && Rltb (vecDist p (pos b)) (BALL_RADIUS * 2)) balls.

(** The three writes that put the cue ball down at [p] and release it. *)
Definition putCueBall (p : Vector2) (s : Game) : option Game :=
  match findIndex (fun b => BallType_eqb (type b) CUE) (ballsRef s) with
  | Some i =>
      Some (setBallInHand false
              (set_ballsRef
                 (modify i (fun b => set_vel (set_potted (set_pos b p) false) zeroVec)
                         (ballsRef s)) s))
  | None => None
  end.

(** The state of the component that the handlers and effects read besides
    the game: balls are moving, a stroke is being played, the statistics are
    shown, input is blocked; and the drag that a click starts. *)
Record Controls : Type := mkControls {
  isMoving : bool;
  isShooting : bool;
  showStatsModal : bool;
  isInputBlocked : bool;
  isDragging : bool;
  dragStartPosRef : Vector2
}.

(** [handleMouseDown(e)], for the pointer at [p = getMousePos(e)]; [touch]
    is ['touches' in e].  The game and the controls after the call, and the
    messages sent. *)
Definition handleMouseDown (touch : bool) (p : Vector2) (c : Controls) (s : Game)
    : Game * Controls * list NetMessage :=
  if match gameMode s, currentPlayer s with ONLINE_HOST, TWO => true | _, _ => false end
  then (s, c, [])
  else if match gameMode s, currentPlayer s with ONLINE_CLIENT, ONE => true | _, _ => false end
  then (s, c, [])
  else if match gameState s with PLAYING => false | _ => true end
          || match currentPlayer s with AI => true | _ => false end
          || isMoving c || isShooting c || showStatsModal c
          || foulDecisionNeeded s || isInputBlocked c
  then (s, c, [])
  else if showColorSelection s then
    match find (fun b => negb (potted b) && negb (BallType_eqb (type b) CUE)
                         && negb (BallType_eqb (type b) RED)
                         && Rltb (vecDist p (pos b)) (radius b * 2.0)) (ballsRef s) with
    | Some clickedBall =>
        (fst (handleColorSelect (type clickedBall) s), c,
         snd (handleColorSelect (type clickedBall) s))
    | None => (s, c, [])
    end
  else if ballInHand s then
    let dist :=
      sqrt ((x p - BAULK_X) * (x p - BAULK_X) + (y p - CENTER_Y) * (y p - CENTER_Y)) in
    if Rleb (x p) (BAULK_X + 2) && Rleb dist (D_RADIUS + 2) then
      if overlapsObject (ballsRef s) p then (s, c, [])
      else match putCueBall p s with
           | Some s' => (s', c, [])
           | None => (s, c, [])
           end
    else (s, c, [])
  else if touch then (s, c, [])
  else (s,
        mkControls (isMoving c) (isShooting c) (showStatsModal c) (isInputBlocked c) true p,
        []).

(** "AI Ball Placement Logic": the loop of at most 50 attempts; [rnd n] are
    the two calls to [Math.random()] of attempt [n]. *)
Fixpoint aiPlaceLoop (remaining attempts : nat) (rnd : nat -> R * R) (s : Game)
    : option Game :=
  match remaining with
  | O => None
  | S k =>
      let r := sqrt (fst (rnd attempts)) * D_RADIUS in
      let theta := snd (rnd attempts) * PI + (PI / 2) in
      let px := BAULK_X + r * cos theta in
      let py := CENTER_Y + r * sin theta in
      let candidate := mkVec px py in
      if negb (overlapsObject (ballsRef s) candidate) && Rleb px BAULK_X then
        match putCueBall candidate s with
        | Some s' => Some s'
        | None => aiPlaceLoop k (S attempts) rnd s
        end
      else aiPlaceLoop k (S attempts) rnd s
  end.

(** The effect that places the cue ball for the machine, from its first
    line to the end of the branch "AI Ball Placement Logic": [None] when the
    effect returns early or passes the branch by, and no placement is
    scheduled; otherwise the game that the scheduled callback leaves, run on
    the game that the effect saw (the cleanup of the effect cancels the
    callback when one of its dependencies changes first). *)
Definition aiPlaceBall (c : Controls) (rnd : nat -> R * R) (s : Game) : option Game :=
  if match gameState s with PLAYING => false | _ => true end
     || showColorSelection s || foulDecisionNeeded s || isInputBlocked c
  then None
  else if match currentPlayer s with AI => true | _ => false end && ballInHand s then
    match aiPlaceLoop 50 0 rnd s with
    | Some s' => Some s'
    | None =>
        match putCueBall (mkVec (BAULK_X - 20) CENTER_Y) s with
        | Some s' => Some s'
        | None => Some s
        end
    end
  else None.

(** ** The physics branch of [loop] *)

(** From [const wasMoving = movingRef.current] to the call of
    [handleTurnEnd]: the state, the turn timer, and whether the turn was
    ended.  [dt] is the time since the last frame, in seconds. *)
Definition physicsFrame (wasMoving : bool) (dt turnTimer : R) (s : Game) : Game * R * bool :=
  let dt := if Rltb 0.1 dt then 0.1 else dt in
  let turnTimer := if wasMoving then turnTimer + dt else turnTimer in
  let balls :=
    if wasMoving && Rltb 20.0 turnTimer
    then map (fun b => set_vel b zeroVec) (ballsRef s)
    else ballsRef s in
  let w := updatePhysics balls TABLE_CONFIG (spin_ s) dt true in
  let st := runCallbacks (store w) (trace w) (turnStatusRef s) in
  let s := setTurnStatusRef st (set_ballsRef (store w) s) in
  let moving := existsb (fun b => Rltb 0.05 (vecLen (vel b))) (store w) in
  if wasMoving && negb moving then (handleTurnEnd s, turnTimer, true)
  else (s, turnTimer, false).

(** * Further notions for the shot *)

(** The shot is played into the ball that touches the cue ball. *)
Definition playedInto (dir : Vector2) (cueBall tb : Ball) : Prop :=
  0.05 < vecDot dir (vecNorm (vecSub (pos tb) (pos cueBall))).

(** A player the game mode knows: the machine plays in single-player games
    only, the second player in the others. *)
Definition playsIn (mode : GameMode) (p : Player) : Prop :=
  match mode with
  | SINGLE_PLAYER => p = ONE \/ p = AI
  | _ => p = ONE \/ p = TWO
  end.

(** No object ball on the table lies within two ball radii of [p]. *)
Definition clearOfObjects (balls : list Ball) (p : Vector2) : Prop :=
  forall b, In b balls -> potted b = false -> type b <> CUE ->
            BALL_RADIUS * 2 <= vecDist p (pos b).

(** What one callback reports: the ball the cue ball met, the object ball
    that went down, the cue ball going down. *)
Definition cueContact (balls : list Ball) (e : Event) : option BallType :=
  match e with
  | Collision i j _ =>
      match nth_error balls i, nth_error balls j with
      | Some b1, Some b2 =>
          if BallType_eqb (type b1) CUE then Some (type b2)
          else if BallType_eqb (type b2) CUE then Some (type b1)
          else None
      | _, _ => None
      end
  | Pot _ => None
  end.

Definition objectPot (balls : list Ball) (e : Event) : option Ball :=
  match e with
  | Pot i =>
      match nth_error balls i with
      | Some b => if BallType_eqb (type b) CUE then None else Some b
      | None => None
      end
  | Collision _ _ _ => None
  end.

Definition cuePot (balls : list Ball) (e : Event) : bool :=
  match e with
  | Pot i =>
      match nth_error balls i with
      | Some b => BallType_eqb (type b) CUE
      | None => false
      end
  | Collision _ _ _ => false
  end.

(** The first contact of the cue ball in a trace, and the last object ball
    potted in it. *)
Fixpoint firstContact (balls : list Ball) (tr : list Event) : option BallType :=
  match tr with
  | [] => None
  | e :: rest =>
      match cueContact balls e with
      | Some h => Some h
      | None => firstContact balls rest
      end
  end.

Fixpoint lastObjectPot (balls : list Ball) (tr : list Event) : option Ball :=
  match tr with
  | [] => None
  | e :: rest =>
      match lastObjectPot balls rest with
      | Some b => Some b
      | None => objectPot balls e
      end
  end.

(** Does the shot miscue?  Only a human striker in a single-player game
    miscues, on a cue short of chalk and on the toss of a coin. *)
Definition miscues (s : Game) (chalkLevel miscueDraw : R) : bool :=
  match currentPlayer s, gameMode s with
  | AI, _ => false
  | _, SINGLE_PLAYER => Rltb chalkLevel 15 && Rltb 0.5 miscueDraw
  | _, _ => false
  end.

(** The touching ball is a ball the striker may play at. *)
Definition validTouch (s : Game) (tb : Ball) : bool :=
  if isFreeBall s then true
  else match targetState s with
       | TColor => negb (BallType_eqb (type tb) RED)
       | TType t => BallType_eqb (type tb) t
       end.

(** A red frozen to the cue ball of the opening position, and a shot with
    the balls in that position. *)
Definition frozenRed : Ball :=
  mkBall 9 RED (mkVec 168.5 230) zeroVec BALL_RADIUS "#dc2626" 1 false 1.

Definition frozenBallGame : Game :=
  mkGame [cueAtBreak; frozenRed; yellowOnSpot]
    (mkTurnStatus false false None None false)
    0 PLAYING TWO_PLAYER ONE 0 0 zeroVec (TType RED) false false false false false
    (Some frozenRed) false (mkFoulInfo false "" 0).

(** A click that [handleMouseDown] accepts for the cue ball in hand: in the
    D, with a tolerance of 2, and clear of the object balls. *)
Definition acceptsPlacement (balls : list Ball) (p : Vector2) : Prop :=
  x p <= BAULK_X + 2 /\
  vecDist p (mkVec BAULK_X CENTER_Y) <= D_RADIUS + 2 /\
  clearOfObjects balls p.

(** [handleMouseDown] listens: it is the turn of a player at this screen, a
    frame is being played, nothing moves and nothing else asks for an
    answer. *)
Definition takesClicks (c : Controls) (s : Game) : Prop :=
  ~ (gameMode s = ONLINE_HOST /\ currentPlayer s = TWO) /\
  ~ (gameMode s = ONLINE_CLIENT /\ currentPlayer s = ONE) /\
  gameState s = PLAYING /\ currentPlayer s <> AI /\
  isMoving c = false /\ isShooting c = false /\ showStatsModal c = false /\
  foulDecisionNeeded s = false /\ isInputBlocked c = false.

(** The machine is to place the cue ball: a frame is being played, it is the
    machine's turn with the ball in hand, and nothing else asks for an
    answer. *)
Definition aiPlaces (c : Controls) (s : Game) : Prop :=
  gameState s = PLAYING /\ showColorSelection s = false /\
  foulDecisionNeeded s = false /\ isInputBlocked c = false /\
  currentPlayer s = AI /\ ballInHand s = true.

(** After an in-off in a single-player game: the cue ball lies in a pocket
    and [striker] has it in hand; nothing moves. *)
Definition ballInHandGame (striker : Player) : Game :=
  mkGame [cueInPocket; yellowOnSpot; pottedRed; redOnTable]
    (mkTurnStatus false false None None false)
    0 PLAYING SINGLE_PLAYER striker 7 12 zeroVec (TType RED) false true false false false None
    false (mkFoulInfo false "" 0).

Definition idleControls : Controls := mkControls false false false false false (mkVec 0 0).

(** The cue ball [cue] of index [i] has been put down at [p]. *)
Definition cuePlacedAt (s s' : Game) (i : nat) (cue : Ball) (p : Vector2) : Prop :=
  ballInHand s' = false /\
  (forall j, j <> i -> nth_error (ballsRef s') j = nth_error (ballsRef s) j) /\
  exists c', nth_error (ballsRef s') i = Some c' /\
             sameBall cue c' /\ pos c' = p /\ potted c' = false /\ vel c' = zeroVec.

(** The rotation of [v] by the angle [a]: the aim with its error applied. *)
Definition rotate (v : Vector2) (a : R) : Vector2 :=
  mkVec (x v * cos a - y v * sin a) (x v * sin a + y v * cos a).

(** The balls the machine may aim at, as [calculateAIShot] selects them. *)
Definition aiTargets (balls : list Ball) (target : TargetState) : list Ball :=
  let activeBalls :=
    filter (fun b => negb (potted b) && negb (BallType_eqb (type b) CUE)) balls in
  let legalTargets :=
    match target with
    | TRed => filter (fun b => BallType_eqb (type b) RED) activeBalls
    | TColor => filter (fun b => negb (BallType_eqb (type b) RED)) activeBalls
    | TType t => filter (fun b => BallType_eqb (type b) t) activeBalls
    end in
  match legalTargets, activeBalls with
  | [], _ :: _ => activeBalls
  | _, _ => legalTargets
  end.

(** ** utils/ai.ts: [pickBestColor] *)

(** The pockets as [pickBestColor] lists them: at the corners and the middles
    of the cushion lines, the middle pockets not recessed. *)
Definition nominationPockets (table : TableConfig) : list Vector2 :=
  [ mkVec (cushionWidth table) (cushionWidth table);
    mkVec (width table / 2) (cushionWidth table);
    mkVec (width table - cushionWidth table) (cushionWidth table);
    mkVec (cushionWidth table) (height table - cushionWidth table);
    mkVec (width table / 2) (height table - cushionWidth table);
    mkVec (width table - cushionWidth table) (height table - cushionWidth table) ].

(** [Math.acos]: NaN, here [None], outside [-1, 1]. *)
Definition Math_acos (v : R) : option R :=
  if Rleb (-1) v && Rleb v 1 then Some (acos v) else None.

(** Arithmetic without rounding. *)
Definition noRounding : Ball -> Vector2 -> R -> R := fun _ _ v => v.

(** "Check if pottable": the loop over the pockets, which stops at the first
    pocket with a cut angle below 1.  [fl ball pocket] rounds the cosine of
    the cut angle as the evaluation in floating point does; a cut angle that
    is NaN is below nothing, and the loop goes on to the next pocket. *)
Fixpoint pottableScore (fl : Ball -> Vector2 -> R -> R) (cueBall b : Ball)
    (ps : list Vector2) (ballScore : R) : R :=
  match ps with
  | [] => ballScore
  | pocket :: rest =>
      let toPocket := vecSub pocket (pos b) in
      let dirToPocket := vecNorm toPocket in
      let cueToBall := vecNorm (vecSub (pos b) (pos cueBall)) in
      match Math_acos (fl b pocket (vecDot cueToBall dirToPocket)) with
      | Some cutAngle =>
          if Rltb cutAngle 1.0 then ballScore + 2000 - (cutAngle * 500)
          else pottableScore fl cueBall b rest ballScore
      | None => pottableScore fl cueBall b rest ballScore
      end
  end.

(** The score of a colour: closer is better, pottable much better. *)
Definition colorScore (fl : Ball -> Vector2 -> R -> R) (cueBall : Ball)
    (table : TableConfig) (b : Ball) : R :=
  let ballScore := 0 in
  let distToCue := vecDist (pos cueBall) (pos b) in
  let ballScore := ballScore - distToCue in
  pottableScore fl cueBall b (nominationPockets table) ballScore.

(** The body of the loop on [(highestScore, bestColor)]; [None] is the
    initial [-Infinity]. *)
Definition pickStep (fl : Ball -> Vector2 -> R -> R) (cueBall : Ball)
    (table : TableConfig) (acc : option R * BallType) (b : Ball) : option R * BallType :=
  let ballScore := colorScore fl cueBall table b in
  match fst acc with
  | None => (Some ballScore, type b)
  | Some highestScore =>
      if Rltb highestScore ballScore then (Some ballScore, type b) else acc
  end.

Definition pickBestColor (fl : Ball -> Vector2 -> R -> R) (cueBall : Ball)
    (balls : list Ball) (table : TableConfig) : BallType :=
  let colorBalls :=
    filter (fun b => negb (potted b) && negb (BallType_eqb (type b) CUE)
                     && negb (BallType_eqb (type b) RED)) balls in
  match colorBalls with
  | [] => BLACK
  | first :: _ => snd (fold_left (pickStep fl cueBall table) colorBalls (None, type first))
  end.

(** A colour that is on the table. *)
Definition colourOnTable (balls : list Ball) (b : Ball) : Prop :=
  In b balls /\ potted b = false /\ type b <> CUE /\ type b <> RED.

(** The cue ball, the yellow and the green in a line towards the top-left
    pocket, the yellow nearer to the cue ball. *)
Definition cueOnLine : Ball :=
  mkBall 0 CUE (mkVec 162 202) zeroVec BALL_RADIUS "#fefefe" 1 false 0.

Definition yellowOnLine : Ball :=
  mkBall 1 YELLOW (mkVec 102 122) zeroVec BALL_RADIUS "#eab308" 1 false 2.

Definition greenOnLine : Ball :=
  mkBall 2 GREEN (mkVec 72 82) zeroVec BALL_RADIUS "#16a34a" 1 false 3.

(** ** hooks/usePhysicsLoop: the fixed-step accumulator *)

Definition FIXED_DT : R := 1000 / 120.
Definition MAX_FRAME_DT : R := 1000 / 15.

(** The refs [last] and [acc] of the hook. *)
Record LoopRefs : Type := mkLoopRefs { last_current : R; acc_current : R }.

(** [while (acc.current >= FIXED_DT) { step(FIXED_DT); acc.current -= FIXED_DT; }]:
    the accumulator after the loop and the number of calls to [step], or
    [None] when [fuel] iterations do not end the loop. *)
Fixpoint drain (fuel : nat) (acc : R) (steps : nat) : option (R * nat) :=
  match fuel with
  | O => if Rleb FIXED_DT acc then None else Some (acc, steps)
  | S k =>
      if Rleb FIXED_DT acc then drain k (acc - FIXED_DT) (S steps)
      else Some (acc, steps)
  end.

(** [tick(t)]: the refs after the call and the number of calls to [step]. *)
Definition tick (fuel : nat) (running : bool) (t : R) (r : LoopRefs)
    : option (LoopRefs * nat) :=
  if negb running then Some (r, O)
  else
    let last0 := if Reqb (last_current r) 0 then t else last_current r in
    let frameDt := t - last0 in
    let frameDt := if Rltb MAX_FRAME_DT frameDt then MAX_FRAME_DT else frameDt in
    match drain fuel (acc_current r + frameDt) O with
    | Some (acc', n) => Some (mkLoopRefs t acc', n)
    | None => None
    end.

(** The time of a frame, as [tick] measures and caps it. *)
Definition frameTime (t : R) (r : LoopRefs) : R :=
  Rmin (t - (if Reqb (last_current r) 0 then t else last_current r)) MAX_FRAME_DT.

(** A cue ball running at speed 10 into the red that touches it. *)
Definition cueAgainstRed : Ball :=
  mkBall 0 CUE (mkVec 100 100) (mkVec 10 0) BALL_RADIUS "#fefefe" 1 false 0.







(** * Properties *)

(** ** Comparisons on numbers *)

Lemma Rltb_true (a b : R) : Rltb a b = true <-> a < b.
Proof. unfold Rltb. destruct (Rlt_dec a b); split; intros; try easy; lra. Qed.

Lemma Rltb_false (a b : R) : Rltb a b = false <-> b <= a.
Proof. unfold Rltb. destruct (Rlt_dec a b); split; intros; try easy; lra. Qed.

Lemma Rleb_true (a b : R) : Rleb a b = true <-> a <= b.
Proof. unfold Rleb. destruct (Rle_dec a b); split; intros; try easy; lra. Qed.

Lemma Rleb_false (a b : R) : Rleb a b = false <-> b < a.
Proof. unfold Rleb. destruct (Rle_dec a b); split; intros; try easy; lra. Qed.

Lemma Reqb_true (a b : R) : Reqb a b = true <-> a = b.
Proof. unfold Reqb. destruct (Req_dec_T a b); split; intros; try easy; lra. Qed.

Lemma Reqb_false (a b : R) : Reqb a b = false <-> a <> b.
Proof. unfold Reqb. destruct (Req_dec_T a b); split; intros; try easy; lra. Qed.

Lemma Reqb_refl (a : R) : Reqb a a = true.
Proof. now apply Reqb_true. Qed.

(** Case analysis on a comparison, keeping the fact it decides. *)
Ltac cmp a b :=
  let H := fresh "Hcmp" in
  destruct (Rltb a b) eqn:H;
  [ apply Rltb_true in H | apply Rltb_false in H ].

(** ** Vector math *)

Lemma sum_sqr_nonneg (a b : R) : 0 <= a * a + b * b.
Proof. nra. Qed.

Lemma vecLen_nonneg (v : Vector2) : 0 <= vecLen v.
Proof. apply sqrt_pos. Qed.

Lemma vecLen_sqr (v : Vector2) : vecLen v * vecLen v = x v * x v + y v * y v.
Proof. unfold vecLen. apply sqrt_sqrt, sum_sqr_nonneg. Qed.

Lemma vecLen_zero : vecLen zeroVec = 0.
Proof. unfold vecLen, zeroVec; simpl. rewrite Rmult_0_l, Rplus_0_l. apply sqrt_0. Qed.

Lemma vecLen_eq_0 (v : Vector2) : vecLen v = 0 -> v = zeroVec.
Proof.
  intros H. pose proof (vecLen_sqr v) as Hs. rewrite H in Hs.
  destruct v as [a b]; simpl in *. unfold zeroVec.
  assert (a = 0) by nra. assert (b = 0) by nra. now subst.
Qed.

Lemma vecLen_pos (v : Vector2) : v <> zeroVec -> 0 < vecLen v.
Proof.
  intros Hv. destruct (Rle_lt_or_eq_dec _ _ (vecLen_nonneg v)) as [H|H]; [exact H|].
  exfalso. apply Hv, vecLen_eq_0. now symmetry.
Qed.

Lemma vecNorm_zero : vecNorm zeroVec = zeroVec.
Proof. unfold vecNorm. rewrite vecLen_zero, Reqb_refl. reflexivity. Qed.

Lemma vecNorm_nonzero (v : Vector2) :
  v <> zeroVec -> vecNorm v = mkVec (x v / vecLen v) (y v / vecLen v).
Proof.
  intros Hv. unfold vecNorm.
  destruct (Reqb (vecLen v) 0) eqn:E; [|reflexivity].
  apply Reqb_true in E. pose proof (vecLen_pos v Hv). lra.
Qed.

Lemma vecNorm_unit (v : Vector2) :
  v <> zeroVec -> vecDot (vecNorm v) (vecNorm v) = 1.
Proof.
  intros Hv. rewrite (vecNorm_nonzero v Hv). unfold vecDot; simpl.
  pose proof (vecLen_pos v Hv) as Hp. pose proof (vecLen_sqr v) as Hs.
  replace (x v / vecLen v * (x v / vecLen v) + y v / vecLen v * (y v / vecLen v))
    with ((x v * x v + y v * y v) / (vecLen v * vecLen v)) by (field; lra).
  rewrite <- Hs. field; lra.
Qed.

Lemma vecNorm_dot_cases (v : Vector2) :
  vecDot (vecNorm v) (vecNorm v) = 1 \/ vecNorm v = zeroVec.
Proof.
  destruct (Req_dec_T (vecLen v) 0) as [H|H].
  - right. apply vecLen_eq_0 in H. subst. apply vecNorm_zero.
  - left. apply vecNorm_unit. intros ->. now rewrite vecLen_zero in H.
Qed.

Lemma vecLen_scale (v : Vector2) (s : R) : 0 <= s -> vecLen (vecMult v s) = vecLen v * s.
Proof.
  intros Hs. unfold vecLen, vecMult; simpl.
  replace (x v * s * (x v * s) + y v * s * (y v * s))
    with ((x v * x v + y v * y v) * (s * s)) by ring.
  rewrite sqrt_mult_alt by apply sum_sqr_nonneg.
  now rewrite sqrt_square.
Qed.

Lemma vecLen_vecNorm (v : Vector2) : v <> zeroVec -> vecLen (vecNorm v) = 1.
Proof.
  intros Hv. pose proof (vecNorm_unit v Hv) as H. unfold vecDot in H.
  unfold vecLen. rewrite H. apply sqrt_1.
Qed.

Lemma vecSub_self (p : Vector2) : vecSub p p = zeroVec.
Proof. unfold vecSub, zeroVec. f_equal; ring. Qed.

(** C10. [vecNorm] is total: the zero vector is returned unchanged, with no
    division; a vector other than zero has a positive length and is divided
    by it; so the direction between two coinciding points is the zero vector. *)
Theorem vecNorm_total :
  vecNorm (mkVec 0 0) = mkVec 0 0 /\
  (forall v : Vector2, v <> mkVec 0 0 ->
     0 < vecLen v /\ vecNorm v = mkVec (x v / vecLen v) (y v / vecLen v)) /\
  (forall p : Vector2, vecNorm (vecSub p p) = mkVec 0 0).
Proof.
  split; [exact vecNorm_zero|]. split.
  - intros v Hv. split; [now apply vecLen_pos | now apply vecNorm_nonzero].
  - intros p. rewrite vecSub_self. exact vecNorm_zero.
Qed.

Lemma vecNorm_total_witness :
  mkVec 3 4 <> mkVec 0 0 /\
  0 < vecLen (mkVec 3 4) /\
  vecNorm (mkVec 3 4) = mkVec (3 / vecLen (mkVec 3 4)) (4 / vecLen (mkVec 3 4)).
Proof.
  assert (H : mkVec 3 4 <> mkVec 0 0) by (intros E; injection E; intros; lra).
  split; [exact H|].
  exact (proj1 (proj2 vecNorm_total) (mkVec 3 4) H).
Defined.

(** ** AI shot planner *)

Lemma clamp_bounds (p : R) : 5 <= Rmin 100 (Rmax 5 p) <= 100.
Proof.
  split.
  - apply Rmin_glb; [lra | apply Rmax_l].
  - apply Rmin_l.
Qed.

(** The last statement of [calculateAIShot] clamps whatever power the
    decision and the error produced. *)
Lemma calculateAIShot_clamped (cueBall : Ball) (balls : list Ball) (table : TableConfig)
    (difficulty : Difficulty) (target : TargetState) (rnd : Draws) :
  exists p : R,
    power (calculateAIShot cueBall balls table difficulty target rnd)
    = Rmin 100 (Rmax 5 p).
Proof.
  unfold calculateAIShot.
  repeat match goal with
         | |- context [let '(a, b) := ?e in _] => destruct e
         end.
  simpl. eexists. reflexivity.
Qed.

(** C9. For every cue ball, ball list, table, difficulty and target state, and
    for every outcome of the random draws, the power of the shot returned by
    [calculateAIShot] lies in the closed interval [5, 100]. *)
Theorem calculateAIShot_power_bounds :
  forall (cueBall : Ball) (balls : list Ball) (table : TableConfig)
         (difficulty : Difficulty) (target : TargetState) (rnd : Draws),
    5 <= power (calculateAIShot cueBall balls table difficulty target rnd) <= 100.
Proof.
  intros. destruct (calculateAIShot_clamped cueBall balls table difficulty target rnd)
    as [p ->].
  apply clamp_bounds.
Qed.

(** ** Friction *)

(** The extra damping applied near the stop threshold. *)
Lemma frictionBall_speed (spin : Spin) (ts : R) (b : Ball) :
  potted b = false ->
  STOP_THRESHOLD <= vecLen (vel b) ->
  let newSpeed := Rmax 0 (vecLen (vel b) - effectiveDrag spin ts b) in
  vecLen (vel (frictionBall spin ts b))
  = if Rltb newSpeed (STOP_THRESHOLD * 2) then newSpeed * 0.90 else newSpeed.
Proof.
  intros Hp Hs newSpeed. unfold frictionBall. rewrite Hp.
  assert (Hnz : vel b <> zeroVec).
  { intros E. rewrite E, vecLen_zero in Hs. unfold STOP_THRESHOLD in Hs. lra. }
  assert (H0 : 0 <= newSpeed) by apply Rmax_l.
  destruct (Rltb (vecLen (vel b)) STOP_THRESHOLD) eqn:E.
  { apply Rltb_true in E. lra. }
  fold newSpeed.
  destruct (Rltb newSpeed (STOP_THRESHOLD * 2)); simpl;
    rewrite vecLen_scale, vecLen_vecNorm by (assumption || lra); ring.
Qed.

Lemma frictionBall_stop (spin : Spin) (ts : R) (b : Ball) :
  potted b = false ->
  vecLen (vel b) < STOP_THRESHOLD ->
  vel (frictionBall spin ts b) = zeroVec.
Proof.
  intros Hp Hs. unfold frictionBall. rewrite Hp.
  apply Rltb_true in Hs. now rewrite Hs.
Qed.

(** The speed left by the damping grows with the speed it is given. *)
Lemma damping_mono (s1 s2 : R) :
  0 <= s1 -> s1 <= s2 ->
  (if Rltb s1 (STOP_THRESHOLD * 2) then s1 * 0.90 else s1)
  <= (if Rltb s2 (STOP_THRESHOLD * 2) then s2 * 0.90 else s2).
Proof.
  intros H0 H. unfold STOP_THRESHOLD.
  cmp s1 (0.15 * 2); cmp s2 (0.15 * 2); lra.
Qed.

Lemma damping_strict (s1 s2 : R) :
  0 <= s1 -> s1 < s2 ->
  (if Rltb s1 (STOP_THRESHOLD * 2) then s1 * 0.90 else s1)
  < (if Rltb s2 (STOP_THRESHOLD * 2) then s2 * 0.90 else s2).
Proof.
  intros H0 H. unfold STOP_THRESHOLD.
  cmp s1 (0.15 * 2); cmp s2 (0.15 * 2); lra.
Qed.

(** A smaller drag never costs more speed. *)
Lemma speedLoss_mono (s1 s2 : Spin) (ts : R) (b : Ball) :
  potted b = false ->
  effectiveDrag s1 ts b <= effectiveDrag s2 ts b ->
  speedLoss s1 ts b <= speedLoss s2 ts b.
Proof.
  intros Hp Hd. unfold speedLoss.
  destruct (Rlt_dec (vecLen (vel b)) STOP_THRESHOLD) as [Hs|Hs].
  - rewrite !frictionBall_stop by assumption. lra.
  - apply Rnot_lt_le in Hs.
    rewrite !frictionBall_speed by assumption. cbv zeta.
    apply Rplus_le_compat_l, Ropp_le_contravar.
    apply damping_mono; [apply Rmax_l|].
    apply Rle_max_compat_l. lra.
Qed.

Lemma speedLoss_strict (s1 s2 : Spin) (ts : R) (b : Ball) :
  potted b = false ->
  STOP_THRESHOLD <= vecLen (vel b) ->
  effectiveDrag s1 ts b < effectiveDrag s2 ts b ->
  effectiveDrag s1 ts b < vecLen (vel b) ->
  speedLoss s1 ts b < speedLoss s2 ts b.
Proof.
  intros Hp Hs Hd Hl. unfold speedLoss.
  rewrite !frictionBall_speed by assumption. cbv zeta.
  apply Rplus_lt_compat_l, Ropp_lt_contravar.
  apply damping_strict; [apply Rmax_l|].
  unfold Rmax.
  destruct (Rle_dec 0 (vecLen (vel b) - effectiveDrag s2 ts b));
    destruct (Rle_dec 0 (vecLen (vel b) - effectiveDrag s1 ts b)); lra.
Qed.

Lemma effectiveDrag_cue (spin : Spin) (ts : R) (b : Ball) :
  type b = CUE ->
  effectiveDrag spin ts b = ROLLING_RESISTANCE * ts * (1.0 - (y spin * 0.2)).
Proof. intros Ht. unfold effectiveDrag. now rewrite Ht. Qed.

(** C2, as the code has it.  In the friction phase the drag of the cue ball is
    scaled by [1 - 0.2 * spin.y]: top-spin ([spin.y] positive) reduces the drag
    relative to zero spin, and the cue ball then loses no more speed in the
    call (strictly less while the drag does not exhaust its speed); back-spin
    ([spin.y] negative) increases the drag, and the cue ball loses no less. *)
Theorem topspin_reduces_cue_drag :
  forall (spin : Spin) (timeScale : R) (b : Ball),
    type b = CUE -> potted b = false -> 0 < timeScale ->
    (0 < y spin ->
       effectiveDrag spin timeScale b < effectiveDrag (mkVec 0 0) timeScale b /\
       speedLoss spin timeScale b <= speedLoss (mkVec 0 0) timeScale b /\
       (STOP_THRESHOLD <= vecLen (vel b) ->
        effectiveDrag spin timeScale b < vecLen (vel b) ->
        speedLoss spin timeScale b < speedLoss (mkVec 0 0) timeScale b)) /\
    (y spin < 0 ->
       effectiveDrag (mkVec 0 0) timeScale b < effectiveDrag spin timeScale b /\
       speedLoss (mkVec 0 0) timeScale b <= speedLoss spin timeScale b).
Proof.
  intros spin ts b Ht Hp Hts.
  assert (Hd : forall s : Spin,
             effectiveDrag s ts b = ROLLING_RESISTANCE * ts * (1.0 - (y s * 0.2)))
    by (intros s; now apply effectiveDrag_cue).
  assert (Hr : 0 < ROLLING_RESISTANCE * ts)
    by (unfold ROLLING_RESISTANCE; lra).
  split; intros Hy.
  - assert (Hlt : effectiveDrag spin ts b < effectiveDrag (mkVec 0 0) ts b)
      by (rewrite !Hd; simpl; nra).
    split; [exact Hlt|]. split.
    + apply speedLoss_mono; [assumption | lra].
    + intros Hs Hl. now apply speedLoss_strict.
  - assert (Hlt : effectiveDrag (mkVec 0 0) ts b < effectiveDrag spin ts b)
      by (rewrite !Hd; simpl; nra).
    split; [exact Hlt|].
    apply speedLoss_mono; [assumption | lra].
Qed.

Lemma vecLen_10_0 : vecLen (mkVec 10 0) = 10.
Proof.
  unfold vecLen; simpl. replace (10 * 10 + 0 * 0) with (10 * 10) by ring.
  apply sqrt_square. lra.
Qed.

Lemma topspin_reduces_cue_drag_witness :
  effectiveDrag (mkVec 0 1) 1 rollingCueBall < effectiveDrag (mkVec 0 0) 1 rollingCueBall /\
  speedLoss (mkVec 0 1) 1 rollingCueBall < speedLoss (mkVec 0 0) 1 rollingCueBall.
Proof.
  destruct (topspin_reduces_cue_drag (mkVec 0 1) 1 rollingCueBall) as [H _];
    [reflexivity | reflexivity | lra |].
  destruct H as (Hd & _ & Hs); [simpl; lra|].
  split; [exact Hd|].
  apply Hs.
  - simpl. rewrite vecLen_10_0. unfold STOP_THRESHOLD. lra.
  - rewrite effectiveDrag_cue by reflexivity. simpl. rewrite vecLen_10_0.
    unfold ROLLING_RESISTANCE. lra.
Defined.

(** C2, as stated, fails: with full back-spin ([spin.y = -1]) the drag of a
    cue ball rolling at speed 10 is larger than with zero spin, and the ball
    loses more speed in the call, not less. *)
Lemma backspin_increases_cue_drag :
  effectiveDrag (mkVec 0 0) 1 rollingCueBall < effectiveDrag (mkVec 0 (-1)) 1 rollingCueBall /\
  speedLoss (mkVec 0 0) 1 rollingCueBall < speedLoss (mkVec 0 (-1)) 1 rollingCueBall.
Proof.
  assert (Hd : effectiveDrag (mkVec 0 0) 1 rollingCueBall
               < effectiveDrag (mkVec 0 (-1)) 1 rollingCueBall).
  { rewrite !effectiveDrag_cue by reflexivity. simpl. unfold ROLLING_RESISTANCE. lra. }
  split; [exact Hd|].
  apply speedLoss_strict; [reflexivity | | exact Hd |].
  - simpl. rewrite vecLen_10_0. unfold STOP_THRESHOLD. lra.
  - rewrite effectiveDrag_cue by reflexivity. simpl. rewrite vecLen_10_0.
    unfold ROLLING_RESISTANCE. lra.
Qed.

(** ** Rule engine: fouls *)

Lemma switchTurn_foulNotification (s : Game) :
  foulNotification (switchTurn s) = foulNotification s.
Proof.
  unfold switchTurn; simpl.
  destruct (redsExist (ballsRef s)); simpl; [reflexivity|].
  destruct (sortedOnTable (ballsRef s)); reflexivity.
Qed.

Lemma foulResolution_foulNotification (s0 : Game) (penalty : Z) (msg : string) (s : Game) :
  foulNotification (foulResolution s0 penalty msg s) = mkFoulInfo true msg penalty.
Proof.
  unfold foulResolution. cbv zeta.
  unfold setFoulDecisionNeeded at 1. cbn [foulNotification].
  unfold setOfferFreeBall at 1. cbn [foulNotification].
  rewrite switchTurn_foulNotification.
  repeat match goal with
         | |- context [match ?e with _ => _ end] => destruct e; simpl
         end; reflexivity.
Qed.


Lemma foul_triple (b : bool) (p p' : Z) (m m' : string) :
  p = p' -> m = m' -> (b, p, m) = (b, p', m').
Proof. now intros -> ->. Qed.

(** The chain of tests of [handleTurnEnd] reports the first matching foul. *)
Lemma foulCheck_first_match (st : TurnStatus) (target : TargetState) (freeBall : bool)
    (touching : option Ball) :
  match firstMatchingFoul st target freeBall with
  | Some k =>
      foulCheck st target freeBall touching
      = (true, foulPenalty st target touching k, foulMessage st target k)
  | None => fst (fst (foulCheck st target freeBall touching)) = false
  end.
Proof.
  destruct st as [sp sf fh pb ps].
  unfold firstMatchingFoul, foulCheck, foulPenalty, foulPrecedence; simpl.
  destruct ps; simpl.
  { destruct pb; simpl; destruct target as [|[]]; simpl; (apply foul_triple; [lia | reflexivity]). }
  destruct sf; simpl.
  { destruct pb; simpl; destruct target as [|[]]; simpl; (apply foul_triple; [lia | reflexivity]). }
  destruct fh as [hit|]; simpl.
  2:{ destruct pb; simpl; destruct target as [|[]]; simpl; (apply foul_triple; [lia | reflexivity]). }
  destruct (validHit freeBall target hit); simpl.
  2:{ destruct pb; simpl; destruct target as [|[]]; simpl; (apply foul_triple; [lia | reflexivity]). }
  destruct pb as [pb|]; simpl; [|reflexivity].
  destruct sp; simpl; [|reflexivity].
  destruct (validPot freeBall target (type pb)); simpl; [reflexivity|].
  destruct target as [|[]]; simpl; (apply foul_triple; [lia | reflexivity]).
Qed.


(** ** The ball store *)

Lemma nth_error_modify_same (i : nat) (f : Ball -> Ball) (l : list Ball) (b : Ball) :
  nth_error l i = Some b -> nth_error (modify i f l) i = Some (f b).
Proof.
  revert i; induction l as [|c t IH]; intros [|k] H; simpl in *; try discriminate.
  - now inversion H.
  - now apply IH.
Qed.

Lemma nth_error_modify_other (i j : nat) (f : Ball -> Ball) (l : list Ball) :
  i <> j -> nth_error (modify i f l) j = nth_error l j.
Proof.
  revert i j; induction l as [|c t IH]; intros [|i] [|j] H; simpl; try reflexivity.
  - contradiction.
  - apply IH. congruence.
Qed.

Lemma modify_modify (i : nat) (f g : Ball -> Ball) (l : list Ball) :
  modify i g (modify i f l) = modify i (fun b => g (f b)) l.
Proof.
  revert i; induction l as [|c t IH]; intros [|k]; simpl; try reflexivity.
  now rewrite IH.
Qed.

Lemma modify_ext_at (i : nat) (f g : Ball -> Ball) (l : list Ball) (b : Ball) :
  nth_error l i = Some b -> f b = g b -> modify i f l = modify i g l.
Proof.
  revert i; induction l as [|c t IH]; intros [|k] H E; simpl in *; try discriminate.
  - inversion H; subst. now rewrite E.
  - f_equal. now apply IH.
Qed.

Lemma existsb_modify (p : Ball -> bool) (i : nat) (f : Ball -> Ball) (l : list Ball) (b : Ball) :
  nth_error l i = Some b -> p (f b) = p b -> existsb p (modify i f l) = existsb p l.
Proof.
  revert i; induction l as [|c t IH]; intros [|k] H E; simpl in *; try discriminate.
  - inversion H; subst. now rewrite E.
  - f_equal. now apply IH.
Qed.

Lemma findIndex_some (p : Ball -> bool) (l : list Ball) (i : nat) :
  findIndex p l = Some i -> exists b, nth_error l i = Some b /\ p b = true.
Proof.
  revert i; induction l as [|c t IH]; intros i H; simpl in H; [discriminate|].
  destruct (p c) eqn:E.
  - inversion H; subst. exists c. now split.
  - destruct (findIndex p t) as [k|]; simpl in H; [|discriminate].
    inversion H; subst. simpl. now apply IH.
Qed.

Lemma find_first (A : Type) (f : A -> bool) (pre post : list A) (t : A) :
  (forall u, In u pre -> f u = false) -> f t = true ->
  find f (pre ++ t :: post) = Some t.
Proof.
  induction pre as [|u pre IH]; intros Hpre Ht; simpl.
  - now rewrite Ht.
  - rewrite (Hpre u) by now left. apply IH; [|exact Ht].
    intros v Hv. apply Hpre. now right.
Qed.

(** ** Rule engine: respawn *)

Lemma isOccupied_spec (balls : list Ball) (self : nat) (p : Vector2) :
  isOccupied balls self p = true <-> occupiedBy balls self p.
Proof.
  unfold isOccupied, occupiedBy. rewrite existsb_exists.
  split; intros [b [Hin H]]; exists b; (split; [exact Hin|]).
  - apply andb_true_iff in H as [H Hd]. apply andb_true_iff in H as [Hp Hi].
    apply negb_true_iff in Hp, Hi. apply Nat.eqb_neq in Hi. apply Rltb_true in Hd.
    repeat split; try assumption. lra.
  - destruct H as (Hp & Hi & Hd).
    rewrite Hp. apply Nat.eqb_neq in Hi. rewrite Hi. simpl.
    apply Rltb_true. lra.
Qed.

Lemma isOccupied_false (balls : list Ball) (self : nat) (p : Vector2) :
  isOccupied balls self p = false <-> ~ occupiedBy balls self p.
Proof.
  rewrite <- isOccupied_spec. destruct (isOccupied balls self p); split; intros; congruence.
Qed.

(** Clearing the flag and velocity of the ball itself does not change which
    spots are occupied for it. *)
Lemma isOccupied_modify_self (balls : list Ball) (i : nat) (f : Ball -> Ball) (b : Ball)
    (p : Vector2) :
  nth_error balls i = Some b -> id (f b) = id b ->
  isOccupied (modify i f balls) (id b) p = isOccupied balls (id b) p.
Proof.
  intros Hn Hid. unfold isOccupied. apply existsb_modify with (b := b); [exact Hn|].
  rewrite Hid, Nat.eqb_refl. simpl. now rewrite !andb_false_r.
Qed.

(** The table of [respawnBall] lists the designated spots by priority. *)
Lemma spots_by_priority : spots = map (fun t => (t, spotOf t)) spotPriority.
Proof. reflexivity. Qed.

Lemma spotOf_designated (t : BallType) (q : Vector2) :
  designatedSpot t = Some q -> spotOf t = q.
Proof. unfold spotOf. now intros ->. Qed.

Lemma own_spot (t : BallType) (q : Vector2) :
  designatedSpot t = Some q ->
  find (fun s : BallType * Vector2 => BallType_eqb (fst s) t) spots = Some (t, q).
Proof. destruct t; simpl; intros H; inversion H; reflexivity. Qed.

(** C8. [respawnBall] on a colour ball clears its potted flag, zeroes its
    velocity and places it: on its own designated spot when no other ball on
    the table lies within two ball radii of that spot; otherwise on the first
    spot, in the order black, pink, blue, brown, green, yellow, that is not
    occupied in this sense; and on the overflow location beside the table
    when the six spots are all occupied. *)
Theorem respawnBall_colour :
  forall (balls : list Ball) (ballId i : nat) (b : Ball) (own : Vector2),
    findIndex (fun c => (id c =? ballId)%nat) balls = Some i ->
    nth_error balls i = Some b ->
    designatedSpot (type b) = Some own ->
    exists p : Vector2,
      respawnBall ballId balls
      = put i (set_pos (set_vel (set_potted b false) zeroVec) p) balls /\
      (~ occupiedBy balls ballId own -> p = own) /\
      (occupiedBy balls ballId own ->
         (forall (pre post : list BallType) (t : BallType) (q : Vector2),
             spotPriority = pre ++ t :: post ->
             designatedSpot t = Some q ->
             (forall u, In u pre -> occupiedBy balls ballId (spotOf u)) ->
             ~ occupiedBy balls ballId q ->
             p = q) /\
         ((forall t, In t spotPriority -> occupiedBy balls ballId (spotOf t)) ->
          p = overflowSpot)).
Proof.
  intros balls ballId i b own Hfind Hnth Hown.
  assert (Hid : id b = ballId).
  { apply findIndex_some in Hfind as [c [Hc Hp]].
    rewrite Hnth in Hc. inversion Hc; subst. now apply Nat.eqb_eq. }
  unfold respawnBall. rewrite Hfind.
  set (clear := fun c : Ball => set_vel (set_potted c false) zeroVec).
  rewrite (nth_error_modify_same i clear balls b Hnth).
  change (type (clear b)) with (type b). change (id (clear b)) with (id b).
  rewrite (own_spot (type b) own Hown). cbn [snd].
  assert (Hocc : forall q, isOccupied (modify i clear balls) (id b) q
                           = isOccupied balls ballId q).
  { intros q. rewrite <- Hid. now apply isOccupied_modify_self. }
  assert (Hput : forall q, modify i (fun c => set_pos c q) (modify i clear balls)
                           = put i (set_pos (clear b) q) balls).
  { intros q. rewrite modify_modify. unfold put.
    now apply modify_ext_at with (b := b). }
  rewrite Hocc.
  destruct (isOccupied balls ballId own) eqn:Eown; cbn [negb].
  - apply isOccupied_spec in Eown.
    destruct (find (fun s => negb (isOccupied (modify i clear balls) (id b) (snd s))) spots)
      as [spot|] eqn:Efind.
    + exists (snd spot). split; [apply Hput|]. split; [tauto|]. intros _. split.
      * intros pre post t q Hsplit Hq Hpre Hfree.
        rewrite spots_by_priority, Hsplit, map_app in Efind. cbn [map] in Efind.
        rewrite find_first in Efind.
        -- inversion Efind; subst. simpl. now apply spotOf_designated.
        -- intros u Hu. apply in_map_iff in Hu as [v [<- Hv]]. cbn [snd].
           rewrite Hocc. apply negb_false_iff, isOccupied_spec. now apply Hpre.
        -- cbn [snd]. rewrite Hocc, (spotOf_designated t q Hq).
           apply negb_true_iff, isOccupied_false. exact Hfree.
      * intros Hall. exfalso.
        apply find_some in Efind as [Hin Hfree].
        rewrite spots_by_priority in Hin. apply in_map_iff in Hin as [t [<- Ht]].
        cbn [snd] in Hfree. rewrite Hocc in Hfree.
        apply negb_true_iff, isOccupied_false in Hfree. apply Hfree. now apply Hall.
    + exists overflowSpot. split; [apply Hput|]. split; [tauto|]. intros _. split.
      * intros pre post t q Hsplit Hq Hpre Hfree. exfalso.
        assert (Hin : In (t, spotOf t) spots).
        { rewrite spots_by_priority. apply (in_map (fun u => (u, spotOf u))). rewrite Hsplit.
          apply in_or_app. right. now left. }
        pose proof (find_none _ _ Efind _ Hin) as Hnone. cbn [snd] in Hnone.
        rewrite Hocc, (spotOf_designated t q Hq) in Hnone.
        apply negb_false_iff, isOccupied_spec in Hnone. contradiction.
      * reflexivity.
  - apply isOccupied_false in Eown.
    exists own. split; [apply Hput|]. split; [reflexivity|]. tauto.
Qed.

(** ** Snooker checker *)

Lemma BallType_eqb_eq (a b : BallType) : BallType_eqb a b = true <-> a = b.
Proof. destruct a, b; simpl; split; intros H; try reflexivity; discriminate. Qed.

Lemma BallType_eqb_neq (a b : BallType) : BallType_eqb a b = false <-> a <> b.
Proof.
  rewrite <- BallType_eqb_eq. destruct (BallType_eqb a b); split; intros; congruence.
Qed.

Lemma canSeeLoop_false (start dir : Vector2) (dist : R) (target : Ball) (l : list Ball) :
  canSeeLoop start dir dist target l = false <->
  exists b, In b l /\
    id b <> id target /\ type b <> CUE /\ potted b = false /\
    (0 <= vecDot (vecSub (pos b) start) dir <= dist) /\
    vecDist (vecAdd start (vecMult dir (vecDot (vecSub (pos b) start) dir))) (pos b)
    < 1.95 * radius b.
Proof.
  induction l as [|c l IH]; simpl.
  - split; [discriminate | intros [b [[] _]]].
  - destruct (Nat.eqb (id c) (id target)) eqn:Eid; simpl.
    { rewrite IH. apply Nat.eqb_eq in Eid.
      split; intros [b [Hin H]]; exists b; (split; [|exact H]); [now right|].
      destruct Hin as [<-|Hin]; [|exact Hin]. tauto. }
    apply Nat.eqb_neq in Eid.
    destruct (BallType_eqb (type c) CUE) eqn:Ecue; simpl.
    { rewrite IH. apply BallType_eqb_eq in Ecue.
      split; intros [b [Hin H]]; exists b; (split; [|exact H]); [now right|].
      destruct Hin as [<-|Hin]; [|exact Hin]. tauto. }
    apply BallType_eqb_neq in Ecue.
    destruct (potted c) eqn:Epot; simpl.
    { rewrite IH.
      split; intros [b [Hin H]]; exists b; (split; [|exact H]); [now right|].
      destruct Hin as [<-|Hin]; [|exact Hin]. destruct H as (_ & _ & H & _). congruence. }
    cmp (vecDot (vecSub (pos c) start) dir) 0; simpl.
    { rewrite IH.
      split; intros [b [Hin H]]; exists b; (split; [|exact H]); [now right|].
      destruct Hin as [<-|Hin]; [|exact Hin]. lra. }
    cmp dist (vecDot (vecSub (pos c) start) dir); simpl.
    { rewrite IH.
      split; intros [b [Hin H]]; exists b; (split; [|exact H]); [now right|].
      destruct Hin as [<-|Hin]; [|exact Hin]. lra. }
    cmp (vecDist (vecAdd start (vecMult dir (vecDot (vecSub (pos c) start) dir))) (pos c))
        (radius c * 1.95).
    + split; [intros _|reflexivity].
      exists c. split; [now left|]. repeat split; try assumption; lra.
    + rewrite IH.
      split; intros [b [Hin H]]; exists b; (split; [|exact H]); [now right|].
      destruct Hin as [<-|Hin]; [|exact Hin]. lra.
Qed.

Lemma canSeeBall_false (start : Vector2) (target : Ball) (balls : list Ball) :
  canSeeBall start target balls = false <->
  exists b, In b balls /\ obstructs start target b.
Proof. unfold canSeeBall, obstructs. apply canSeeLoop_false. Qed.

Lemma legalTargetsOf_spec (balls : list Ball) (target : TargetState) (b : Ball) :
  In b (legalTargetsOf balls target) <-> In b balls /\ isLegalTarget target b.
Proof.
  unfold isLegalTarget.
  assert (Hn : forall c : bool, negb c = true <-> c = false)
    by (intros []; simpl; split; congruence).
  destruct target as [|[]]; simpl; rewrite filter_In, ?andb_true_iff, ?Hn,
    ?BallType_eqb_eq, ?BallType_eqb_neq; tauto.
Qed.

(** C6. [checkIsSnookered] answers [true] only when there is a cue ball on
    the table and every legal target is obstructed by some ball other than
    itself and the cue ball; as soon as one legal target has no obstructing
    ball on its line of sight from the cue ball, and also when there is no cue
    ball on the table, it answers [false]. *)
Theorem checkIsSnookered_every_target_obstructed :
  forall (balls : list Ball) (target : TargetState),
    (checkIsSnookered balls target = true ->
       exists cue : Ball,
         cueBallOf balls = Some cue /\
         (exists t, In t balls /\ isLegalTarget target t) /\
         (forall t, In t balls -> isLegalTarget target t ->
            exists b, In b balls /\ obstructs (pos cue) t b)) /\
    (forall cue t : Ball,
       cueBallOf balls = Some cue ->
       In t balls -> isLegalTarget target t ->
       (forall b, In b balls -> ~ obstructs (pos cue) t b) ->
       checkIsSnookered balls target = false) /\
    (cueBallOf balls = None -> checkIsSnookered balls target = false).
Proof.
  intros balls target. unfold checkIsSnookered, cueBallOf.
  destruct (find (fun b => BallType_eqb (type b) CUE && negb (potted b)) balls)
    as [cue|]; [|repeat split; (discriminate || reflexivity || (intros; discriminate))].
  split; [|split; [|discriminate]].
  - intros H. exists cue. split; [reflexivity|].
    destruct (legalTargetsOf balls target) as [|t0 ts] eqn:El; [discriminate|].
    rewrite <- El in H. split.
    + exists t0. apply legalTargetsOf_spec. rewrite El. now left.
    + intros t Hin Hlegal.
      rewrite forallb_forall in H.
      specialize (H t (proj2 (legalTargetsOf_spec balls target t) (conj Hin Hlegal))).
      apply negb_true_iff in H. now apply canSeeBall_false.
  - intros cue' t Hcue Hin Hlegal Hclear. inversion Hcue; subst cue'.
    pose proof (proj2 (legalTargetsOf_spec balls target t) (conj Hin Hlegal)) as Hl.
    destruct (legalTargetsOf balls target) as [|t0 ts] eqn:El; [reflexivity|].
    rewrite <- El in *.
    destruct (forallb (fun t1 => negb (canSeeBall (pos cue) t1 balls))
                (legalTargetsOf balls target)) eqn:Ef; [|reflexivity].
    rewrite forallb_forall in Ef. specialize (Ef t Hl).
    apply negb_true_iff, canSeeBall_false in Ef as [b [Hb Ho]].
    exfalso. exact (Hclear b Hb Ho).
Qed.

(** ** Rule engine: the next target *)

Lemma insertByValue_In (b c : Ball) (l : list Ball) :
  In c (insertByValue b l) <-> c = b \/ In c l.
Proof.
  induction l as [|d l IH]; simpl.
  - split; intros [H|H]; auto.
  - destruct (value b <=? value d)%Z; simpl; [|rewrite IH]; split; intros H;
      intuition auto.
Qed.

Lemma sortByValue_In (c : Ball) (l : list Ball) : In c (sortByValue l) <-> In c l.
Proof.
  induction l as [|b l IH]; simpl; [tauto|].
  rewrite insertByValue_In, IH. split; intros [H|H]; auto.
Qed.

Lemma insertByValue_ascending (b : Ball) (l : list Ball) :
  ascending l -> ascending (insertByValue b l).
Proof.
  induction l as [|d l IH]; simpl; intros H.
  - split; [intros c []|exact I].
  - destruct H as [Hd Hl].
    destruct (value b <=? value d)%Z eqn:E.
    + apply Z.leb_le in E. simpl. split; [|split; assumption].
      intros c [<-|Hc]; [exact E|]. specialize (Hd c Hc). lia.
    + apply Z.leb_gt in E. simpl. split; [|now apply IH].
      intros c Hc. apply insertByValue_In in Hc as [->|Hc]; [lia|now apply Hd].
Qed.

Lemma sortByValue_ascending (l : list Ball) : ascending (sortByValue l).
Proof.
  induction l as [|b l IH]; simpl; [exact I|]. now apply insertByValue_ascending.
Qed.

Lemma sortedOnTable_In (balls : list Ball) (b : Ball) :
  In b (sortedOnTable balls) <-> onTable balls b.
Proof.
  unfold sortedOnTable, onTable.
  rewrite sortByValue_In, filter_In, andb_true_iff, !negb_true_iff, BallType_eqb_neq.
  tauto.
Qed.

(** The head of the sorted balls is a ball on the table of the lowest value;
    there is none exactly when no ball but the cue ball is on the table. *)
Lemma sortedOnTable_head (balls : list Ball) (b : Ball) (rest : list Ball) :
  sortedOnTable balls = b :: rest -> lowestOnTable balls b.
Proof.
  intros H. split.
  - apply sortedOnTable_In. rewrite H. now left.
  - intros c Hc. apply sortedOnTable_In in Hc. rewrite H in Hc.
    pose proof (sortByValue_ascending
                  (filter (fun b => negb (potted b) && negb (BallType_eqb (type b) CUE)) balls))
      as Ha.
    fold (sortedOnTable balls) in Ha. rewrite H in Ha. destruct Ha as [Ha _].
    destruct Hc as [<-|Hc]; [lia | now apply Ha].
Qed.

Lemma sortedOnTable_nil (balls : list Ball) :
  sortedOnTable balls = [] -> forall b, ~ onTable balls b.
Proof. intros H b Hb. apply sortedOnTable_In in Hb. now rewrite H in Hb. Qed.

Lemma remainingReds_pos (balls : list Ball) :
  (0 <? List.length (filter (fun b => BallType_eqb (type b) RED && negb (potted b)) balls))%nat
  = true <-> redsRemain balls.
Proof.
  unfold redsRemain. rewrite Nat.ltb_lt. split.
  - intros H.
    destruct (filter (fun b => BallType_eqb (type b) RED && negb (potted b)) balls)
      as [|b l] eqn:E; [simpl in H; lia|].
    assert (Hb : In b (b :: l)) by now left.
    rewrite <- E in Hb. apply filter_In in Hb as [Hin Hb].
    apply andb_true_iff in Hb as [Ht Hp].
    exists b. repeat split; [exact Hin | now apply BallType_eqb_eq | now apply negb_true_iff].
  - intros [b (Hin & Ht & Hp)].
    assert (Hb : In b (filter (fun b => BallType_eqb (type b) RED && negb (potted b)) balls)).
    { apply filter_In. split; [exact Hin|]. now rewrite Ht, Hp. }
    destruct (filter _ balls); [contradiction | simpl; lia].
Qed.

(** A pot that is no foul is a legal pot. *)
Lemma legitimatePot_valid (s : Game) (pb : Ball) :
  legitimatePot s pb -> validPot (isFreeBall s) (targetState s) (type pb) = true.
Proof.
  unfold legitimatePot. intros (Hf & Hp & Hb). revert Hf.
  destruct (turnStatusRef s) as [sp sf fh opb ps]. simpl in Hp, Hb. subst sp opb.
  unfold foulCheck; simpl.
  destruct ps; simpl; [discriminate|].
  destruct sf; simpl; [discriminate|].
  destruct fh as [hit|]; simpl; [|discriminate].
  destruct (validHit (isFreeBall s) (targetState s) hit); simpl; [|discriminate].
  destruct (validPot (isFreeBall s) (targetState s) (type pb)); simpl;
    [reflexivity | discriminate].
Qed.

(** After a legitimate pot the striker stays at the table: the resolution of
    the pot is the whole of the turn end. *)
Lemma handleTurnEnd_legitimatePot (s : Game) (pb : Ball) :
  legitimatePot s pb ->
  handleTurnEnd s = fst (potResolution s pb (setSpin zeroVec s)).
Proof.
  intros Hl. pose proof (legitimatePot_valid s pb Hl) as Hv.
  destruct Hl as (Hf & Hp & Hb).
  unfold handleTurnEnd.
  destruct (foulCheck (turnStatusRef s) (targetState s) (isFreeBall s) (touchingBall s))
    as [[isFoul penalty] msg].
  simpl in Hf. subst isFoul. rewrite Hb, Hp.
  assert (Hc : snd (potResolution s pb (setSpin zeroVec s)) = true).
  { unfold potResolution. unfold validPot in Hv.
    destruct (isFreeBall s); [reflexivity|].
    destruct (BallType_eqb (type pb) RED); [reflexivity|].
    destruct (targetState s) as [|t].
    - destruct (0 <? _)%nat; reflexivity.
    - destruct (0 <? _)%nat; [reflexivity|].
      assert (Ht : BallType_eqb (type pb) t = true)
        by (destruct t; first [exact Hv | discriminate Hv]).
      rewrite Ht. destruct (sortedOnTable _); reflexivity. }
  destruct (potResolution s pb (setSpin zeroVec s)) as [s' c]. simpl in *. now subst c.
Qed.

Lemma getBallValue_inj (a b : BallType) : getBallValue a = getBallValue b -> a = b.
Proof. destruct a, b; simpl; intros H; try reflexivity; discriminate. Qed.

Lemma potResolution_freeBall (s0 : Game) (pb : Ball) (s : Game) :
  isFreeBall s0 = true ->
  targetState (fst (potResolution s0 pb s)) = TColor /\
  showColorSelection (fst (potResolution s0 pb s)) = true /\
  gameState (fst (potResolution s0 pb s)) = gameState s.
Proof.
  intros Hf. unfold potResolution. rewrite Hf.
  destruct (currentPlayer s0); simpl; auto.
Qed.

(** C5, as the code has it.  After the resolution of a pot that is no foul:
    a free-ball pot always sets the target to COLOR and opens the nomination,
    reds or not; without free ball, a potted red sets the target to COLOR and
    opens the nomination; a potted colour sets the target back to RED while
    reds remain; once no red remains, a colour potted under the generic COLOR
    target sets the target to YELLOW, and the colour that is on, once potted,
    sets the target to a ball of the lowest value still on the table, of a
    value strictly above the potted one when the balls carry their standard
    values and the potted colour was the lowest, or ends the frame
    (GAME_OVER) when no ball but the cue ball is left. *)
Theorem legitimate_pot_next_target :
  forall (s : Game) (pb : Ball),
    legitimatePot s pb ->
    (isFreeBall s = true ->
       targetState (handleTurnEnd s) = TColor /\
       showColorSelection (handleTurnEnd s) = true) /\
    (isFreeBall s = false ->
       (type pb = RED ->
          targetState (handleTurnEnd s) = TColor /\
          showColorSelection (handleTurnEnd s) = true) /\
       (type pb <> RED -> redsRemain (ballsRef s) ->
          targetState (handleTurnEnd s) = TRed) /\
       (type pb <> RED -> ~ redsRemain (ballsRef s) ->
          (targetState s = TColor -> targetState (handleTurnEnd s) = TType YELLOW) /\
          (forall t : BallType, targetState s = TType t ->
             type pb = t /\
             ((forall b, ~ onTable (ballsRef s) b) ->
                gameState (handleTurnEnd s) = GAME_OVER) /\
             ((exists b, onTable (ballsRef s) b) ->
                gameState (handleTurnEnd s) = gameState s /\
                exists b : Ball,
                  lowestOnTable (ballsRef s) b /\
                  targetState (handleTurnEnd s) = TType (type b) /\
                  (value pb = getBallValue (type pb) ->
                   (forall c, onTable (ballsRef s) c ->
                      value c = getBallValue (type c) /\ type c <> type pb /\
                      (value pb <= value c)%Z) ->
                   (value pb < value b)%Z))))).
Proof.
  intros s pb Hl.
  pose proof (legitimatePot_valid s pb Hl) as Hv.
  rewrite (handleTurnEnd_legitimatePot s pb Hl).
  split.
  { intros Hf. destruct (potResolution_freeBall s pb (setSpin zeroVec s) Hf) as (H1 & H2 & _).
    now split. }
  intros Hf. unfold potResolution. rewrite Hf. unfold validPot in Hv. rewrite Hf in Hv.
  cbn [andb].
  cbv zeta.
  destruct (currentPlayer s);
    cbn [ballsRef setScoreP1 setScoreP2 set_currentBreakRef setSpin].
  all: split; [|split].
  all: try (intros Hred; rewrite Hred; simpl; auto; fail).
  all: try (intros Hnr Hreds;
            apply BallType_eqb_neq in Hnr; rewrite Hnr;
            apply remainingReds_pos in Hreds; rewrite Hreds;
            destruct (targetState s); reflexivity).
  all: intros Hnr Hreds;
    apply BallType_eqb_neq in Hnr; rewrite Hnr;
    assert (Hz : (0 <? List.length
                     (filter (fun b => BallType_eqb (type b) RED && negb (potted b))
                        (ballsRef s)))%nat = false)
      by (destruct (0 <? _)%nat eqn:E; [|reflexivity];
          apply remainingReds_pos in E; contradiction);
    rewrite Hz; (split; [intros Ht; rewrite Ht; reflexivity|]);
    intros t Ht; rewrite Ht in *;
    assert (Hpt : BallType_eqb (type pb) t = true)
      by (destruct t; first [exact Hv | congruence]);
    rewrite Hpt; apply BallType_eqb_eq in Hpt;
    (split; [exact Hpt|]);
    destruct (sortedOnTable (ballsRef s)) as [|b rest] eqn:Es.
  all: try (split; [intros _; reflexivity|];
            intros [b Hb]; exfalso; exact (sortedOnTable_nil _ Es b Hb)).
  all: pose proof (sortedOnTable_head _ _ _ Es) as Hlow;
    (split; [intros Hnone; exfalso; destruct Hlow as [Hb _]; exact (Hnone b Hb)|]);
    intros _; (split; [reflexivity|]);
    exists b; (split; [exact Hlow|]); (split; [reflexivity|]);
    intros Hpv Hstd; destruct Hlow as [Hb _];
    destruct (Hstd b Hb) as (Hbv & Hbt & Hle);
    assert (value pb <> value b)
      by (rewrite Hpv, Hbv; intros E; apply getBallValue_inj in E; congruence);
    lia.
Qed.

Lemma legitimate_pot_next_target_witness :
  legitimatePot redPotShot pottedRed /\
  targetState (handleTurnEnd redPotShot) = TColor /\
  showColorSelection (handleTurnEnd redPotShot) = true.
Proof.
  assert (Hl : legitimatePot redPotShot pottedRed) by (repeat split).
  split; [exact Hl|].
  destruct (legitimate_pot_next_target redPotShot pottedRed Hl) as [_ H].
  destruct (H eq_refl) as [Hred _].
  exact (Hred eq_refl).
Defined.

(** C5, as stated, fails on a free ball: with no red left and yellow on, a
    striker who pots the brown as a free ball commits no foul, yet the target
    does not become yellow, the lowest-valued colour on the table: it becomes
    the generic COLOR, open to nomination, and the frame goes on. *)
Lemma free_ball_pot_reopens_nomination :
  legitimatePot freeBallShot pottedBrown /\
  ~ redsRemain (ballsRef freeBallShot) /\
  lowestOnTable (ballsRef freeBallShot) yellowOnSpot /\
  targetState (handleTurnEnd freeBallShot) = TColor /\
  targetState (handleTurnEnd freeBallShot) <> TType YELLOW /\
  gameState (handleTurnEnd freeBallShot) = PLAYING.
Proof.
  assert (Hl : legitimatePot freeBallShot pottedBrown) by (repeat split).
  split; [exact Hl|].
  rewrite (handleTurnEnd_legitimatePot _ _ Hl).
  destruct (potResolution_freeBall freeBallShot pottedBrown (setSpin zeroVec freeBallShot)
              eq_refl) as (Ht & _ & Hg).
  rewrite Ht, Hg.
  repeat split; try discriminate.
  - intros [b (Hin & Hty & _)]. simpl in Hin.
    destruct Hin as [<-|[<-|[<-|[]]]]; discriminate.
  - simpl. tauto.
  - intros c (Hin & Hp & Hc). simpl in Hin.
    destruct Hin as [<-|[<-|[<-|[]]]]; simpl in *; try congruence; lia.
Qed.

(** ** Worked examples *)

Lemma vecDist_lt_sqr (a b : Vector2) (r : R) :
  vecDist a b < r ->
  (x a - x b) * (x a - x b) + (y a - y b) * (y a - y b) < r * r.
Proof.
  unfold vecDist. intros H.
  pose proof (vecLen_nonneg (vecSub a b)) as H0.
  pose proof (vecLen_sqr (vecSub a b)) as Hs. simpl in Hs.
  rewrite <- Hs. nra.
Qed.

Lemma respawnBall_colour_witness :
  exists p : Vector2,
    respawnBall 3 freeBallTable
    = put 2 (set_pos (set_vel (set_potted pottedBrown false) zeroVec) p) freeBallTable /\
    p = mkVec BAULK_X CENTER_Y.
Proof.
  destruct (respawnBall_colour freeBallTable 3 2 pottedBrown (mkVec BAULK_X CENTER_Y)
              eq_refl eq_refl eq_refl) as [p (Hr & Hfree & _)].
  exists p. split; [exact Hr|].
  apply Hfree. intros [b (Hin & Hp & Hid & Hd)].
  apply vecDist_lt_sqr in Hd.
  simpl in Hin. destruct Hin as [<-|[<-|[<-|[]]]]; simpl in *;
    unfold BAULK_X, CENTER_Y, D_RADIUS, BALL_RADIUS in Hd; try lra; congruence.
Defined.

Lemma checkIsSnookered_every_target_obstructed_witness :
  checkIsSnookered [cueAtBreak; redOnTable] TRed = false.
Proof.
  apply (proj1 (proj2 (checkIsSnookered_every_target_obstructed
                         [cueAtBreak; redOnTable] TRed)) cueAtBreak redOnTable).
  - reflexivity.
  - simpl. tauto.
  - split; reflexivity.
  - intros b Hin (Hid & Hty & _). simpl in Hin.
    destruct Hin as [<-|[<-|[]]]; [now apply Hty | now apply Hid].
Defined.

(** ** Trajectory predictor *)

Section RayCircle.
(** The quadratic [t^2 + B t + c] of the ray-circle intersection. *)
Variables B c : R.

Lemma near_root_is_root :
  0 <= discriminant B c -> nearRoot B c * nearRoot B c + B * nearRoot B c + c = 0.
Proof.
  intros Hd. pose proof (sqrt_sqrt _ Hd) as Hs.
  unfold nearRoot. set (s := sqrt (discriminant B c)) in *. unfold discriminant in Hs.
  replace ((- B - s) / (2 * 1) * ((- B - s) / (2 * 1)) + B * ((- B - s) / (2 * 1)) + c)
    with ((s * s - (B * B - 4 * 1 * c)) / 4) by field.
  rewrite Hs. field.
Qed.

Lemma root_after_near (t : R) :
  t * t + B * t + c = 0 -> 0 <= discriminant B c /\ nearRoot B c <= t.
Proof.
  intros Ht.
  assert (Hsq : discriminant B c = (2 * t + B) * (2 * t + B))
    by (unfold discriminant; nra).
  assert (Hd : 0 <= discriminant B c)
    by (pose proof (Rle_0_sqr (2 * t + B)) as Hq; unfold Rsqr in Hq; lra).
  split; [exact Hd|].
  pose proof (sqrt_pos (discriminant B c)) as Hp.
  pose proof (sqrt_sqrt _ Hd) as Hs.
  unfold nearRoot. set (s := sqrt (discriminant B c)) in *.
  assert (- (2 * t + B) <= s) by nra.
  lra.
Qed.

Lemma near_root_nonpos : c <= 0 -> nearRoot B c <= 0.
Proof.
  intros Hc.
  assert (Hd : 0 <= discriminant B c) by (unfold discriminant; nra).
  pose proof (sqrt_pos (discriminant B c)) as Hp.
  pose proof (sqrt_sqrt _ Hd) as Hs.
  unfold nearRoot. set (s := sqrt (discriminant B c)) in *.
  assert (- B <= s) by (unfold discriminant in Hs; nra).
  lra.
Qed.

Lemma near_root_pos (t : R) :
  0 < c -> 0 < t -> t * t + B * t + c = 0 -> 0 < nearRoot B c.
Proof.
  intros Hc Ht Hr. destruct (root_after_near t Hr) as [Hd Hle].
  pose proof (near_root_is_root Hd) as Hn.
  set (near := nearRoot B c) in *.
  assert (Hprod : (t - near) * (t + near + B) = 0) by nra.
  apply Rmult_integral in Hprod as [H|H].
  - lra.
  - assert (c = t * near) by nra. nra.
Qed.
End RayCircle.

(** On a unit direction, a point of the ray lies on the circle exactly when
    its distance solves the quadratic that the code writes with [a = 1]. *)
Lemma meetsCircle_root (startPos dir : Vector2) (b : Ball) (t : R) :
  vecDot dir dir = 1 ->
  (vecDist (vecAdd startPos (vecMult dir t)) (pos b) = 2 * BALL_RADIUS <->
   t * t + (2 * vecDot (vecSub startPos (pos b)) dir) * t
   + (vecDot (vecSub startPos (pos b)) (vecSub startPos (pos b))
      - 4 * BALL_RADIUS * BALL_RADIUS) = 0).
Proof.
  intros Hu. unfold vecDist.
  pose proof (vecLen_nonneg (vecSub (vecAdd startPos (vecMult dir t)) (pos b))) as H0.
  pose proof (vecLen_sqr (vecSub (vecAdd startPos (vecMult dir t)) (pos b))) as Hs.
  set (L := vecLen _) in *.
  unfold vecDot in *. simpl in *. unfold BALL_RADIUS.
  split; intros H.
  - rewrite H in Hs. nra.
  - assert (L * L = (2 * 9.25) * (2 * 9.25)) by nra. nra.
Qed.

Lemma inPlay_outside (startPos : Vector2) (b : Ball) :
  2 * BALL_RADIUS < vecDist startPos (pos b) <->
  0 < vecDot (vecSub startPos (pos b)) (vecSub startPos (pos b))
      - 4 * BALL_RADIUS * BALL_RADIUS.
Proof.
  unfold vecDist.
  pose proof (vecLen_nonneg (vecSub startPos (pos b))) as H0.
  pose proof (vecLen_sqr (vecSub startPos (pos b))) as Hs.
  set (L := vecLen _) in *. unfold vecDot. rewrite <- Hs. unfold BALL_RADIUS.
  split; intros H; nra.
Qed.

(** The entry distance of a ball is its nearest meeting with the ray when the
    start point is outside its circle; a ball whose circle contains the start
    point has none. *)
Lemma entryDistance_some (startPos dir : Vector2) (b : Ball) (t : R) :
  vecDot dir dir = 1 ->
  entryDistance startPos dir b = Some t ->
  inPlay startPos b /\ meetsCircle startPos dir b t /\
  forall t', meetsCircle startPos dir b t' -> t <= t'.
Proof.
  intros Hu. unfold entryDistance.
  destruct (BallType_eqb (type b) CUE) eqn:Et; simpl; [discriminate|].
  destruct (potted b) eqn:Ep; [discriminate|].
  set (Bq := 2 * vecDot (vecSub startPos (pos b)) dir).
  set (cq := vecDot (vecSub startPos (pos b)) (vecSub startPos (pos b))
             - 4 * BALL_RADIUS * BALL_RADIUS).
  destruct (Rleb 0 (Bq * Bq - 4 * 1 * cq)) eqn:Ed; [|discriminate].
  apply Rleb_true in Ed.
  destruct (Rltb 0 ((- Bq - sqrt (Bq * Bq - 4 * 1 * cq)) / (2 * 1))) eqn:Ept; [|discriminate].
  apply Rltb_true in Ept. intros H. inversion H; subst t. clear H.
  pose proof (near_root_is_root Bq cq Ed) as Hroot.
  unfold nearRoot, discriminant in Hroot.
  split; [|split].
  - split; [now apply BallType_eqb_neq|]. split; [exact Ep|].
    apply inPlay_outside. fold cq.
    destruct (Rle_lt_dec cq 0) as [Hc|Hc]; [|exact Hc].
    pose proof (near_root_nonpos Bq cq Hc) as Hn.
    unfold nearRoot, discriminant in Hn. lra.
  - split; [exact Ept|]. apply meetsCircle_root; [exact Hu|].
    fold Bq cq. exact Hroot.
  - intros t' [_ Ht']. apply meetsCircle_root in Ht'; [|exact Hu].
    fold Bq cq in Ht'. now apply (root_after_near Bq cq t').
Qed.

Lemma entryDistance_none (startPos dir : Vector2) (b : Ball) (t : R) :
  vecDot dir dir = 1 ->
  entryDistance startPos dir b = None ->
  inPlay startPos b -> ~ meetsCircle startPos dir b t.
Proof.
  intros Hu. unfold entryDistance. intros He (Ht & Hp & Hout) [Hpos Hm].
  apply BallType_eqb_neq in Ht. rewrite Ht, Hp in He. simpl in He.
  apply meetsCircle_root in Hm; [|exact Hu]. apply inPlay_outside in Hout.
  set (Bq := 2 * vecDot (vecSub startPos (pos b)) dir) in *.
  set (cq := vecDot (vecSub startPos (pos b)) (vecSub startPos (pos b))
             - 4 * BALL_RADIUS * BALL_RADIUS) in *.
  destruct (root_after_near Bq cq t Hm) as [Hd _].
  pose proof (near_root_pos Bq cq t Hout Hpos Hm) as Hn.
  unfold nearRoot, discriminant in Hd, Hn.
  apply Rleb_true in Hd. rewrite Hd in He.
  apply Rltb_true in Hn. rewrite Hn in He. discriminate.
Qed.

Lemma entryDistance_inside (startPos dir : Vector2) (b : Ball) :
  vecDist startPos (pos b) <= 2 * BALL_RADIUS -> entryDistance startPos dir b = None.
Proof.
  intros Hin. unfold entryDistance.
  destruct (BallType_eqb (type b) CUE || potted b); [reflexivity|].
  set (Bq := 2 * vecDot (vecSub startPos (pos b)) dir).
  set (cq := vecDot (vecSub startPos (pos b)) (vecSub startPos (pos b))
             - 4 * BALL_RADIUS * BALL_RADIUS).
  assert (Hc : cq <= 0).
  { destruct (Rle_lt_dec cq 0) as [H|H]; [exact H|].
    apply inPlay_outside in H. lra. }
  destruct (Rleb 0 (Bq * Bq - 4 * 1 * cq)); [|reflexivity].
  pose proof (near_root_nonpos Bq cq Hc) as Hn.
  unfold nearRoot, discriminant in Hn.
  apply Rltb_false in Hn. now rewrite Hn.
Qed.

Lemma hitStep_entry (startPos dir : Vector2) (acc : Dist * option Ball) (b : Ball) :
  hitStep startPos dir acc b
  = match entryDistance startPos dir b with
    | Some t => if Dltb (Finite t) (fst acc) then (Finite t, Some b) else acc
    | None => acc
    end.
Proof.
  unfold hitStep, entryDistance.
  destruct (BallType_eqb (type b) CUE || potted b); [reflexivity|].
  cbv zeta.
  destruct (Rleb 0 _); [|reflexivity].
  destruct (Rltb 0 _); reflexivity.
Qed.

Lemma Dle_refl (a : Dist) : Dle a a.
Proof. destruct a; simpl; [lra | exact I]. Qed.

Lemma Dle_trans (a b c : Dist) : Dle a b -> Dle b c -> Dle a c.
Proof. destruct a, b, c; simpl; intros; try lra; tauto. Qed.

(** The loop keeps the least entry distance met so far. *)
Lemma closestHit_fold (startPos dir : Vector2) (balls : list Ball) :
  forall acc : Dist * option Ball,
    let r := fst (fold_left (hitStep startPos dir) balls acc) in
    Dle r (fst acc) /\
    (forall b t, In b balls -> entryDistance startPos dir b = Some t -> Dle r (Finite t)) /\
    (r = fst acc \/
     exists b t, In b balls /\ entryDistance startPos dir b = Some t /\ r = Finite t).
Proof.
  induction balls as [|b balls IH]; intros acc; simpl.
  - split; [apply Dle_refl|]. split; [intros ? ? []|now left].
  - destruct (IH (hitStep startPos dir acc b)) as (Hle & Hmin & Hsrc).
    assert (Hstep : Dle (fst (hitStep startPos dir acc b)) (fst acc) /\
                    (forall t, entryDistance startPos dir b = Some t ->
                               Dle (fst (hitStep startPos dir acc b)) (Finite t)) /\
                    (fst (hitStep startPos dir acc b) = fst acc \/
                     exists t, entryDistance startPos dir b = Some t /\
                               fst (hitStep startPos dir acc b) = Finite t)).
    { rewrite hitStep_entry.
      destruct (entryDistance startPos dir b) as [t|].
      - destruct (Dltb (Finite t) (fst acc)) eqn:E; simpl.
        + split; [|split].
          * destruct (fst acc); simpl in *; [apply Rltb_true in E; lra | exact I].
          * intros t' Ht'. inversion Ht'. lra.
          * right. exists t. now split.
        + split; [apply Dle_refl|]. split; [|now left].
          intros t' Ht'. inversion Ht'; subst t'.
          destruct (fst acc); simpl in *; [apply Rltb_false in E; lra | discriminate].
      - split; [apply Dle_refl|]. split; [discriminate | now left]. }
    destruct Hstep as (Hs1 & Hs2 & Hs3).
    split; [eapply Dle_trans; eassumption|]. split.
    + intros c t [<-|Hin] Hc.
      * eapply Dle_trans; [exact Hle | now apply Hs2].
      * now apply (Hmin c t).
    + destruct Hsrc as [Hsrc|(c & t & Hin & Hc & Hr)].
      * rewrite Hsrc. destruct Hs3 as [Hs3|(t & Hc & Hr)]; [now left|].
        right. exists b, t. repeat split; auto.
      * right. exists c, t. repeat split; auto.
Qed.

Lemma reach_unique (s d m dx : R) : dx <> 0 -> s + dx * d = m -> d = (m - s) / dx.
Proof. intros Hx H. rewrite <- H. field. exact Hx. Qed.

Lemma reach_exact (s m dx : R) : dx <> 0 -> s + dx * ((m - s) / dx) = m.
Proof. intros Hx. field. exact Hx. Qed.

(** Ahead of a direction that is not zero there is a wall, and
    [wallDistance] is the distance to the nearest one. *)
Lemma wallDistance_nearest (startPos dir : Vector2) (table : TableConfig) :
  x dir <> 0 \/ y dir <> 0 ->
  exists w, wallDistance startPos dir table = Finite w /\ nearestWall startPos dir table w.
Proof.
  intros Hnz. unfold wallDistance, nearestWall, reachesWall. cbv zeta.
  cmp 0 (x dir); [|cmp (x dir) 0]; (cmp 0 (y dir); [|cmp (y dir) 0]); simpl;
    try (exfalso; lra); eexists; (split; [reflexivity|]).
  all: split;
    [ try (unfold Rmin; destruct (Rle_dec _ _));
      rewrite ?reach_exact by lra; auto; tauto
    | intros d [[Hs Hd]|[[Hs Hd]|[[Hs Hd]|[Hs Hd]]]]; try lra;
      apply reach_unique in Hd; try lra; rewrite Hd;
      first [apply Rmin_l | apply Rmin_r | apply Rle_refl] ].
Qed.

Lemma unit_has_component (dir : Vector2) : vecDot dir dir = 1 -> x dir <> 0 \/ y dir <> 0.
Proof.
  unfold vecDot. intros H.
  destruct (Req_dec_T (x dir) 0) as [E|E]; [|now left].
  right. intros E'. rewrite E, E' in H. lra.
Qed.

(** C7, as the code has it.  For a direction that is not zero the path is the
    start point followed by the end point, which lies on the normalized
    direction at the minimum of the distance to the nearest wall of the inset
    rectangle and the distance at which the ray first meets the circle of
    radius two ball radii around an object ball on the table, among the balls
    whose circle does not already contain the start point; the ghost ball is
    that end point exactly when the ball is strictly closer than the wall,
    and there is none when the ray ends at a wall. *)
Theorem calculatePreciseTrajectory_nearest_contact :
  forall (startPos direction : Vector2) (balls : list Ball) (table : TableConfig),
    direction <> mkVec 0 0 ->
    exists wall : R,
      nearestWall startPos (vecNorm direction) table wall /\
      ((forall b t, In b balls -> inPlay startPos b ->
                    ~ meetsCircle startPos (vecNorm direction) b t) ->
       calculatePreciseTrajectory startPos direction balls table
       = mkTrajectory
           [At startPos; At (vecAdd startPos (vecMult (vecNorm direction) wall))] None 1) /\
      (forall t, nearestBallHit startPos (vecNorm direction) balls t ->
       calculatePreciseTrajectory startPos direction balls table
       = mkTrajectory
           [At startPos; At (vecAdd startPos (vecMult (vecNorm direction) (Rmin wall t)))]
           (if Rltb t wall
            then Some (At (vecAdd startPos (vecMult (vecNorm direction) (Rmin wall t))))
            else None)
           1).
Proof.
  intros startPos direction balls table Hnz.
  pose proof (vecNorm_unit direction Hnz) as Hu.
  set (dir := vecNorm direction) in *.
  destruct (wallDistance_nearest startPos dir table (unit_has_component dir Hu))
    as [wall [Hw Hnear]].
  exists wall. split; [exact Hnear|].
  unfold calculatePreciseTrajectory. fold dir. rewrite Hw. unfold closestHit.
  destruct (closestHit_fold startPos dir balls (Infinity, None)) as (_ & Hmin & Hsrc).
  simpl in Hsrc.
  assert (Hentry : forall b t, In b balls -> inPlay startPos b ->
                     meetsCircle startPos dir b t ->
                     exists t1, entryDistance startPos dir b = Some t1 /\ t1 <= t).
  { intros b t Hin Hplay Hmeet.
    destruct (entryDistance startPos dir b) as [t1|] eqn:E.
    - exists t1. split; [reflexivity|].
      now apply (entryDistance_some startPos dir b t1 Hu E).
    - exfalso. exact (entryDistance_none startPos dir b t Hu E Hplay Hmeet). }
  destruct Hsrc as [Hr|(b0 & t0 & Hin0 & He0 & Hr)]; rewrite Hr in *; simpl.
  - split; [reflexivity|].
    intros t [(b & Hin & Hplay & Hmeet) _]. exfalso.
    destruct (Hentry b t Hin Hplay Hmeet) as [t1 [E _]].
    exact (Hmin b t1 Hin E).
  - destruct (entryDistance_some startPos dir b0 t0 Hu He0) as (Hplay0 & Hmeet0 & _).
    split.
    + intros Hnone. exfalso. exact (Hnone b0 t0 Hin0 Hplay0 Hmeet0).
    + intros t [(b & Hin & Hplay & Hmeet) Hleast].
      assert (Ht : t = t0).
      { apply Rle_antisym; [now apply (Hleast b0 t0)|].
        destruct (Hentry b t Hin Hplay Hmeet) as [t1 [E Hle]].
        pose proof (Hmin b t1 Hin E) as H1. simpl in H1. lra. }
      subst t. reflexivity.
Qed.

Lemma vecLen_axis (a : R) : 0 <= a -> vecLen (mkVec a 0) = a.
Proof.
  intros Ha. unfold vecLen; simpl. replace (a * a + 0 * 0) with (a * a) by ring.
  now apply sqrt_square.
Qed.

Lemma vecNorm_axis : vecNorm (mkVec 1 0) = mkVec 1 0.
Proof.
  rewrite vecNorm_nonzero by (intros E; inversion E; lra).
  rewrite vecLen_axis by lra. simpl. f_equal; lra.
Qed.

Lemma nearestWall_unique (startPos dir : Vector2) (table : TableConfig) (w w' : R) :
  nearestWall startPos dir table w -> nearestWall startPos dir table w' -> w = w'.
Proof. intros [H1 H2] [H1' H2']. apply Rle_antisym; auto. Qed.

Lemma wall_from_centre_line :
  nearestWall (mkVec 100 100) (mkVec 1 0) TABLE_CONFIG 648.75.
Proof.
  unfold nearestWall, reachesWall, TABLE_CONFIG, TABLE_WIDTH, TABLE_HEIGHT, BALL_RADIUS.
  simpl. split; [left; lra|].
  intros d [[_ H]|[[H _]|[[H _]|[H _]]]]; lra.
Qed.

Lemma calculatePreciseTrajectory_nearest_contact_witness :
  nearestBallHit (mkVec 100 100) (vecNorm (mkVec 1 0)) [touchingRed; redAhead] 81.5 /\
  calculatePreciseTrajectory (mkVec 100 100) (mkVec 1 0) [touchingRed; redAhead] TABLE_CONFIG
  = mkTrajectory [At (mkVec 100 100); At (mkVec 181.5 100)] (Some (At (mkVec 181.5 100))) 1.
Proof.
  assert (Hnz : mkVec 1 0 <> mkVec 0 0) by (intros E; inversion E; lra).
  assert (Hu : vecDot (mkVec 1 0) (mkVec 1 0) = 1) by (unfold vecDot; simpl; lra).
  assert (Hhit : nearestBallHit (mkVec 100 100) (vecNorm (mkVec 1 0))
                   [touchingRed; redAhead] 81.5).
  { rewrite vecNorm_axis. split.
    - exists redAhead. split; [right; left; reflexivity|]. split.
      + split; [discriminate|]. split; [reflexivity|].
        apply inPlay_outside. unfold vecDot, vecSub, redAhead, BALL_RADIUS. simpl. lra.
      + split; [lra|]. apply (meetsCircle_root _ _ _ _ Hu).
        unfold vecDot, vecSub, redAhead, BALL_RADIUS. simpl. lra.
    - intros b' t' [<-|[<-|[]]] (_ & _ & Hout) [Ht' Hm].
      + exfalso. apply inPlay_outside in Hout.
        unfold vecDot, vecSub, touchingRed, BALL_RADIUS in Hout. simpl in Hout. lra.
      + apply (meetsCircle_root _ _ _ _ Hu) in Hm.
        unfold vecDot, vecSub, redAhead, BALL_RADIUS in Hm. simpl in Hm.
        assert (E : (t' - 81.5) * (t' - 118.5) = 0) by lra.
        apply Rmult_integral in E. lra. }
  split; [exact Hhit|].
  destruct (calculatePreciseTrajectory_nearest_contact
              (mkVec 100 100) (mkVec 1 0) [touchingRed; redAhead] TABLE_CONFIG Hnz)
    as [wall (Hw & _ & Hball)].
  etransitivity; [exact (Hball 81.5 Hhit)|].
  rewrite vecNorm_axis in *.
  rewrite <- (nearestWall_unique _ _ _ _ _ wall_from_centre_line Hw).
  rewrite Rmin_right by lra.
  replace (Rltb 81.5 648.75) with true by (symmetry; apply Rltb_true; lra).
  replace (vecAdd (mkVec 100 100) (vecMult (mkVec 1 0) 81.5)) with (mkVec 181.5 100)
    by (unfold vecAdd, vecMult; simpl; f_equal; lra).
  reflexivity.
Defined.

(** C7, as stated, fails for a ball that touches the ball at the start point.
    From (100, 100) along (1, 0) the ray meets the circle of radius two ball
    radii around the touching red at distance 36.96, well before the wall at
    648.75; yet the path runs on to the wall and there is no ghost ball. *)
Lemma touching_ball_is_ignored :
  type touchingRed <> CUE /\ potted touchingRed = false /\
  meetsCircle (mkVec 100 100) (vecNorm (mkVec 1 0)) touchingRed 36.96 /\
  nearestWall (mkVec 100 100) (vecNorm (mkVec 1 0)) TABLE_CONFIG 648.75 /\
  36.96 < 648.75 /\
  calculatePreciseTrajectory (mkVec 100 100) (mkVec 1 0) [touchingRed] TABLE_CONFIG
  = mkTrajectory [At (mkVec 100 100); At (mkVec 748.75 100)] None 1.
Proof.
  rewrite vecNorm_axis.
  split; [discriminate|]. split; [reflexivity|]. split.
  { split; [lra|]. unfold vecDist, vecSub, vecAdd, vecMult, touchingRed; simpl.
    replace (100 + 1 * 36.96 - 118.46) with 18.5 by lra.
    replace (100 + 0 * 36.96 - 100) with 0 by lra.
    rewrite vecLen_axis by lra. unfold BALL_RADIUS. lra. }
  split; [exact wall_from_centre_line|]. split; [lra|].
  unfold calculatePreciseTrajectory. rewrite vecNorm_axis.
  destruct (wallDistance_nearest (mkVec 100 100) (mkVec 1 0) TABLE_CONFIG) as [w [Hw Hn]];
    [left; simpl; lra|].
  rewrite Hw. rewrite (nearestWall_unique _ _ _ _ _ Hn wall_from_centre_line).
  unfold closestHit. simpl fold_left. rewrite hitStep_entry.
  rewrite entryDistance_inside.
  - simpl. unfold vecAdd, vecMult; simpl.
    replace (100 + 1 * 648.75) with 748.75 by lra.
    replace (100 + 0 * 648.75) with 100 by lra. reflexivity.
  - unfold vecDist, vecSub, touchingRed; simpl.
    replace (100 - 118.46) with (- (18.46)) by lra. replace (100 - 100) with 0 by lra.
    unfold vecLen; simpl.
    replace (- (18.46) * - (18.46) + 0 * 0) with (18.46 * 18.46) by ring.
    rewrite sqrt_square by lra. unfold BALL_RADIUS. lra.
Qed.

(** ** Physics engine: what a phase may change *)

Lemma fold_left_invariant (A B : Type) (f : A -> B -> A) (P : A -> Prop) (l : list B) :
  (forall a e, In e l -> P a -> P (f a e)) ->
  forall a, P a -> P (fold_left f l a).
Proof.
  induction l as [|e l IH]; intros Hstep a Ha; simpl; [exact Ha|].
  apply IH.
  - intros a' e' He'. apply Hstep. now right.
  - apply Hstep; [now left | exact Ha].
Qed.

Lemma potCount_app (k : nat) (t1 t2 : list Event) :
  potCount k (t1 ++ t2) = (potCount k t1 + potCount k t2)%nat.
Proof.
  unfold potCount. induction t1 as [|e t1 IH]; simpl; [reflexivity|].
  destruct (isPot k e); simpl; now rewrite IH.
Qed.

Lemma moved_refl (b : Ball) : moved b b.
Proof. unfold moved. now destruct b. Qed.

Lemma moved_set (b : Ball) (p v : Vector2) : moved b (set_vel (set_pos b p) v).
Proof. reflexivity. Qed.

Lemma moved_set_pos (b : Ball) (p : Vector2) : moved b (set_pos b p).
Proof. reflexivity. Qed.

Lemma moved_set_vel (b : Ball) (v : Vector2) : moved b (set_vel b v).
Proof. unfold moved. now destruct b. Qed.

Lemma moved_trans (a b c : Ball) : moved a b -> moved b c -> moved a c.
Proof. unfold moved. intros H1 H2. rewrite H2. rewrite H1 at 1. reflexivity. Qed.

Lemma moved_potted (b b' : Ball) : moved b b' -> potted b' = potted b.
Proof. intros ->. reflexivity. Qed.

Lemma moved_mass (b b' : Ball) : moved b b' -> mass b' = mass b.
Proof. intros ->. reflexivity. Qed.

Lemma integrateBall_moved (subDt : R) (b : Ball) : moved b (integrateBall subDt b).
Proof.
  unfold integrateBall. destruct (Rltb _ _); [apply moved_set_pos | apply moved_refl].
Qed.

Lemma integrateBall_rest (subDt : R) (b : Ball) :
  vel b = zeroVec -> integrateBall subDt b = b.
Proof.
  intros Hv. unfold integrateBall. rewrite Hv, vecLen_zero.
  cmp 0.001 0; [lra | reflexivity].
Qed.

Lemma wallBall_moved (table : TableConfig) (spin : Spin) (b : Ball) :
  moved b (wallBall table spin b).
Proof.
  unfold wallBall.
  destruct (potted b); [apply moved_refl|].
  destruct (inPocketZone _ _ _); [apply moved_refl|].
  cbv zeta.
  repeat match goal with
         | |- context [let '(_, _) := ?e in _] => destruct e as [[? ?] ?]
         end.
  apply moved_set.
Qed.

Lemma wallBall_potted (table : TableConfig) (spin : Spin) (b : Ball) :
  potted b = true -> wallBall table spin b = b.
Proof. intros Hp. unfold wallBall. now rewrite Hp. Qed.

Lemma frictionBall_moved (spin : Spin) (ts : R) (b : Ball) :
  moved b (frictionBall spin ts b).
Proof.
  unfold frictionBall.
  destruct (potted b); [apply moved_refl|]. cbv zeta.
  destruct (Rltb _ _); [apply moved_set_vel|].
  destruct (Rltb _ _); apply moved_set_vel.
Qed.

Lemma frictionBall_potted (spin : Spin) (ts : R) (b : Ball) :
  potted b = true -> frictionBall spin ts b = b.
Proof. intros Hp. unfold frictionBall. now rewrite Hp. Qed.

Lemma collide_moved (spin : Spin) (b1 b2 : Ball) :
  moved b1 (fst (fst (collide spin b1 b2))) /\ moved b2 (snd (fst (collide spin b1 b2))).
Proof.
  unfold collide. cbv zeta.
  destruct (Rltb (vecDist (pos b1) (pos b2)) (radius b1 + radius b2));
    [|split; apply moved_refl].
  set (c1 := if Rltb 0 _ then set_pos b1 _ else b1).
  set (c2 := if Rltb 0 _ then set_pos b2 _ else b2).
  assert (H1 : moved b1 c1)
    by (unfold c1; destruct (Rltb 0 _); [apply moved_set_pos | apply moved_refl]).
  assert (H2 : moved b2 c2)
    by (unfold c2; destruct (Rltb 0 _); [apply moved_set_pos | apply moved_refl]).
  clearbody c1 c2.
  destruct (Rltb 0 _); [now split|].
  repeat match goal with
         | |- context [if ?e then _ else _] => destruct e
         end; simpl; split;
    repeat (eapply moved_trans; [eassumption|]); try apply moved_set_vel;
    eapply moved_trans; apply moved_set_vel.
Qed.

Lemma modify_step_keeps (f : Ball -> Ball) (i k : nat) (b : Ball) (c : nat) (w : World) :
  (i = k -> f b = b) -> Keeps k b c w -> Keeps k b c (on_store (modify i f) w).
Proof.
  intros Hf [Hn Hc]. split; [|exact Hc]. simpl.
  destruct (Nat.eq_dec i k) as [->|Hik].
  - rewrite (nth_error_modify_same k f _ b Hn). now rewrite Hf.
  - now rewrite nth_error_modify_other.
Qed.

Lemma modify_step_flag (f : Ball -> Ball) (i k : nat) (p : bool) (c : nat) (w : World) :
  (forall b, moved b (f b)) -> Flag k p c w -> Flag k p c (on_store (modify i f) w).
Proof.
  intros Hf (b & Hn & Hp & Hc). simpl. unfold Flag. simpl.
  destruct (Nat.eq_dec i k) as [->|Hik].
  - exists (f b). rewrite (nth_error_modify_same k f _ b Hn).
    rewrite (moved_potted _ _ (Hf b)). auto.
  - exists b. rewrite nth_error_modify_other by exact Hik. auto.
Qed.

Lemma pocketStep_keeps (table : TableConfig) (i k : nat) (b : Ball) (c : nat) (w : World) :
  potted b = true -> Keeps k b c w -> Keeps k b c (pocketStep table i w).
Proof.
  intros Hp [Hn Hc]. unfold pocketStep.
  destruct (nth_error (store w) i) as [bi|] eqn:Ei; [|now split].
  destruct (potted bi) eqn:Epi; [now split|].
  destruct (captured _ _ _); [|now split].
  assert (Hik : i <> k) by (intros ->; rewrite Hn in Ei; inversion Ei; congruence).
  split; simpl.
  - unfold put. now rewrite nth_error_modify_other.
  - rewrite potCount_app. unfold potCount at 2. simpl.
    apply Nat.eqb_neq in Hik. rewrite Hik. simpl. lia.
Qed.

Lemma pocketStep_status (table : TableConfig) (i k : nat) (w : World) :
  InPlayOrCaptured k w -> InPlayOrCaptured k (pocketStep table i w).
Proof.
  intros (b & Hn & Hst). unfold pocketStep.
  destruct (nth_error (store w) i) as [bi|] eqn:Ei; [|now exists b].
  destruct (potted bi) eqn:Epi; [now exists b|].
  destruct (captured _ _ _); [|now exists b].
  destruct (Nat.eq_dec i k) as [->|Hik].
  - rewrite Hn in Ei. inversion Ei; subst bi.
    destruct Hst as [[_ Hc]|[Hp _]]; [|congruence].
    exists (potBall b). simpl. unfold put.
    rewrite (nth_error_modify_same k _ _ b Hn). split; [reflexivity|].
    right. repeat split. rewrite potCount_app, Hc. unfold potCount. simpl.
    now rewrite Nat.eqb_refl.
  - exists b. simpl. unfold put. rewrite nth_error_modify_other by exact Hik.
    split; [exact Hn|].
    rewrite potCount_app. unfold potCount at 2 4. simpl.
    apply Nat.eqb_neq in Hik. rewrite Hik. simpl. rewrite !Nat.add_0_r. exact Hst.
Qed.

Lemma collideStep_trace (spin : Spin) (cb : bool) (w : World) (ij : nat * nat) (k : nat) :
  potCount k (trace (collideStep spin cb w ij)) = potCount k (trace w).
Proof.
  unfold collideStep. destruct ij as [i j].
  destruct (nth_error (store w) i); [|reflexivity].
  destruct (nth_error (store w) j); [|reflexivity].
  destruct (collide spin b b0) as [[b1' b2'] [impact|]]; simpl; [|reflexivity].
  destruct cb; [|reflexivity].
  rewrite potCount_app. unfold potCount at 2. simpl. lia.
Qed.

Lemma collideStep_keeps (spin : Spin) (cb : bool) (w : World) (i j k : nat) (b : Ball)
    (c : nat) :
  k <> i -> k <> j -> Keeps k b c w -> Keeps k b c (collideStep spin cb w (i, j)).
Proof.
  intros Hi Hj [Hn Hc]. split; [|now rewrite collideStep_trace].
  unfold collideStep.
  destruct (nth_error (store w) i); [|exact Hn].
  destruct (nth_error (store w) j); [|exact Hn].
  destruct (collide spin b0 b1) as [[b1' b2'] report]. simpl. unfold put.
  rewrite !nth_error_modify_other by congruence. exact Hn.
Qed.

Lemma collideStep_flag (spin : Spin) (cb : bool) (w : World) (ij : nat * nat) (k : nat)
    (p : bool) (c : nat) :
  Flag k p c w -> Flag k p c (collideStep spin cb w ij).
Proof.
  intros (b & Hn & Hp & Hc). unfold Flag. rewrite collideStep_trace.
  unfold collideStep. destruct ij as [i j].
  destruct (nth_error (store w) i) as [b1|] eqn:E1; [|now exists b].
  destruct (nth_error (store w) j) as [b2|] eqn:E2; [|now exists b].
  pose proof (collide_moved spin b1 b2) as [M1 M2].
  destruct (collide spin b1 b2) as [[b1' b2'] report]. simpl in *. unfold put.
  destruct (Nat.eq_dec j k) as [->|Hjk].
  - assert (Hlen : nth_error (modify i (fun _ => b1') (store w)) k <> None).
    { destruct (Nat.eq_dec i k) as [->|Hik].
      - rewrite (nth_error_modify_same k _ _ b Hn). discriminate.
      - rewrite nth_error_modify_other by exact Hik. rewrite Hn. discriminate. }
    destruct (nth_error (modify i (fun _ => b1') (store w)) k) as [x|] eqn:Ex;
      [|contradiction].
    exists b2'. rewrite (nth_error_modify_same k _ _ x Ex).
    rewrite Hn in E2. inversion E2; subst b2.
    rewrite (moved_potted _ _ M2). auto.
  - rewrite nth_error_modify_other by exact Hjk.
    destruct (Nat.eq_dec i k) as [->|Hik].
    + exists b1'. rewrite (nth_error_modify_same k _ _ b Hn).
      rewrite Hn in E1. inversion E1; subst b1.
      rewrite (moved_potted _ _ M1). auto.
    + exists b. rewrite nth_error_modify_other by exact Hik. auto.
Qed.

Lemma pairs_In (l : list nat) (i j : nat) : In (i, j) (pairs l) -> In i l /\ In j l.
Proof.
  induction l as [|a l IH]; simpl; [tauto|]. intros H.
  apply in_app_or in H as [H|H].
  - apply in_map_iff in H as [x [E Hx]]. inversion E; subst. auto.
  - destruct (IH H). auto.
Qed.

Lemma pairs_distinct (l : list nat) (i j : nat) :
  NoDup l -> In (i, j) (pairs l) -> i <> j.
Proof.
  induction l as [|a l IH]; simpl; [tauto|]. intros Hnd H.
  inversion Hnd as [|? ? Ha Hl]; subst.
  apply in_app_or in H as [H|H].
  - apply in_map_iff in H as [x [E Hx]]. inversion E; subst. congruence.
  - now apply IH.
Qed.

Lemma modify_step_status (f : Ball -> Ball) (i k : nat) (w : World) :
  (forall b, moved b (f b)) ->
  (forall b, potted b = true -> vel b = zeroVec -> f b = b) ->
  InPlayOrCaptured k w -> InPlayOrCaptured k (on_store (modify i f) w).
Proof.
  intros Hm Hid (b & Hn & [[Hp Hc]|(Hp & Hv & Hc)]).
  - destruct (modify_step_flag f i k false 0 w Hm) as (b' & Hn' & Hp' & Hc').
    { now exists b. }
    exists b'. split; [exact Hn'|]. now left.
  - destruct (modify_step_keeps f i k b 1 w) as [Hn' Hc'].
    { intros _. now apply Hid. }
    { now split. }
    exists b. split; [exact Hn'|]. right. auto.
Qed.

Lemma currentActive_in_play (l : list Ball) (active : list nat) (i : nat) :
  In i (filter (fun i => match nth_error l i with
                         | Some b => negb (potted b)
                         | None => false
                         end) active) ->
  exists b, nth_error l i = Some b /\ potted b = false.
Proof.
  intros H. apply filter_In in H as [_ H].
  destruct (nth_error l i) as [b|]; [|discriminate].
  exists b. split; [reflexivity|]. now apply negb_true_iff.
Qed.

(** A ball that is potted, and at rest if it is one of the active
    references, goes through a sub-step untouched and unreported. *)
Lemma subStep_keeps (table : TableConfig) (spin : Spin) (cb : bool) (subDt : R)
    (active : list nat) (w : World) (k : nat) (b : Ball) (c : nat) :
  potted b = true -> (In k active -> vel b = zeroVec) ->
  Keeps k b c w -> Keeps k b c (subStep table spin cb subDt active w).
Proof.
  intros Hp Hv Hk. unfold subStep. cbv zeta.
  set (w1 := fold_left (fun w i => on_store (modify i (integrateBall subDt)) w) active w).
  assert (H1 : Keeps k b c w1).
  { apply fold_left_invariant; [|exact Hk].
    intros a i Hi Ha. apply modify_step_keeps; [|exact Ha].
    intros ->. apply integrateBall_rest. now apply Hv. }
  set (w2 := fold_left (fun w i => pocketStep table i w) active w1).
  assert (H2 : Keeps k b c w2).
  { apply fold_left_invariant; [|exact H1].
    intros a i _ Ha. now apply pocketStep_keeps. }
  set (w3 := fold_left (fun w i => on_store (modify i (wallBall table spin)) w) active w2).
  assert (H3 : Keeps k b c w3).
  { apply fold_left_invariant; [|exact H2].
    intros a i _ Ha. apply modify_step_keeps; [|exact Ha].
    intros _. now apply wallBall_potted. }
  clearbody w3. clear w1 w2 H1 H2.
  apply fold_left_invariant; [|exact H3].
  intros a [i j] Hij Ha. apply pairs_In in Hij as [Hi Hj].
  apply currentActive_in_play in Hi as (bi & Hbi & Hpi).
  apply currentActive_in_play in Hj as (bj & Hbj & Hpj).
  destruct H3 as [Hn3 _].
  apply collideStep_keeps; [| |exact Ha]; intros ->; congruence.
Qed.

(** A ball that entered the call in play stays in play and unreported, or is
    captured and reported once, whatever the number of sub-steps. *)
Lemma subStep_status (table : TableConfig) (spin : Spin) (cb : bool) (subDt : R)
    (active : list nat) (w : World) (k : nat) :
  InPlayOrCaptured k w -> InPlayOrCaptured k (subStep table spin cb subDt active w).
Proof.
  intros Hk. unfold subStep. cbv zeta.
  set (w1 := fold_left (fun w i => on_store (modify i (integrateBall subDt)) w) active w).
  assert (H1 : InPlayOrCaptured k w1).
  { apply fold_left_invariant; [|exact Hk].
    intros a i _ Ha. apply modify_step_status; [| |exact Ha].
    - apply integrateBall_moved.
    - intros b _ Hv. now apply integrateBall_rest. }
  set (w2 := fold_left (fun w i => pocketStep table i w) active w1).
  assert (H2 : InPlayOrCaptured k w2).
  { apply fold_left_invariant; [|exact H1].
    intros a i _ Ha. now apply pocketStep_status. }
  set (w3 := fold_left (fun w i => on_store (modify i (wallBall table spin)) w) active w2).
  assert (H3 : InPlayOrCaptured k w3).
  { apply fold_left_invariant; [|exact H2].
    intros a i _ Ha. apply modify_step_status; [| |exact Ha].
    - apply wallBall_moved.
    - intros b Hp _. now apply wallBall_potted. }
  clearbody w3. clear w1 w2 H1 H2.
  destruct H3 as (b & Hn & [[Hp Hc]|(Hp & Hv & Hc)]).
  - assert (Hf : Flag k false 0 w3) by now exists b.
    assert (Hend : Flag k false 0
                     (fold_left (collideStep spin cb)
                        (pairs (filter (fun i => match nth_error (store w3) i with
                                                 | Some b => negb (potted b)
                                                 | None => false
                                                 end) active)) w3)).
    { apply fold_left_invariant; [|exact Hf].
      intros a ij _ Ha. now apply collideStep_flag. }
    destruct Hend as (b' & Hn' & Hp' & Hc'). exists b'. split; [exact Hn'|]. now left.
  - assert (Hend : Keeps k b 1
                     (fold_left (collideStep spin cb)
                        (pairs (filter (fun i => match nth_error (store w3) i with
                                                 | Some b => negb (potted b)
                                                 | None => false
                                                 end) active)) w3)).
    { apply fold_left_invariant; [|now split].
      intros a [i j] Hij Ha. apply pairs_In in Hij as [Hi Hj].
      apply currentActive_in_play in Hi as (bi & Hbi & Hpi).
      apply currentActive_in_play in Hj as (bj & Hbj & Hpj).
      apply collideStep_keeps; [| |exact Ha]; intros ->; congruence. }
    destruct Hend as [Hn' Hc']. exists b. split; [exact Hn'|]. right. auto.
Qed.

Lemma indices_where_In (p : Ball -> bool) (l : list Ball) (k : nat) :
  In k (indices_where p l) <-> exists b, nth_error l k = Some b /\ p b = true.
Proof.
  unfold indices_where. rewrite filter_In, in_seq. split.
  - intros [_ H]. destruct (nth_error l k) as [b|]; [|discriminate]. now exists b.
  - intros (b & Hn & Hp). rewrite Hn. split; [|exact Hp].
    assert (k < List.length l)%nat by (apply nth_error_Some; congruence). lia.
Qed.

Lemma indices_where_NoDup (p : Ball -> bool) (l : list Ball) : NoDup (indices_where p l).
Proof. unfold indices_where. apply NoDup_filter, seq_NoDup. Qed.

Lemma captured_spec (ps : list Vector2) (pr : R) (p : Vector2) :
  captured ps pr p = true <-> exists q, In q ps /\ vecDist p q < 0.95 * pr.
Proof.
  induction ps as [|q ps IH]; simpl.
  - split; [discriminate | intros [q [[] _]]].
  - cmp (vecDist p q) (pr * 0.95).
    + split; [|reflexivity]. intros _. exists q. split; [now left | lra].
    + rewrite IH. split; intros [q' [Hin Hd]].
      * exists q'. split; [now right | exact Hd].
      * destruct Hin as [<-|Hin]; [lra|]. exists q'. now split.
Qed.

Lemma nth_error_map_friction (spin : Spin) (ts : R) (l : list Ball) (k : nat) :
  nth_error (map (frictionBall spin ts) l) k
  = option_map (frictionBall spin ts) (nth_error l k).
Proof. apply nth_error_map. Qed.

Lemma iter_subStep_keeps (table : TableConfig) (spin : Spin) (cb : bool) (subDt : R)
    (active : list nat) (k : nat) (b : Ball) (c : nat) (n : nat) (w : World) :
  potted b = true -> (In k active -> vel b = zeroVec) ->
  Keeps k b c w -> Keeps k b c (Nat.iter n (subStep table spin cb subDt active) w).
Proof.
  intros Hp Hv Hk. induction n as [|n IH]; simpl; [exact Hk|].
  now apply subStep_keeps.
Qed.

Lemma iter_subStep_status (table : TableConfig) (spin : Spin) (cb : bool) (subDt : R)
    (active : list nat) (k : nat) (n : nat) (w : World) :
  InPlayOrCaptured k w ->
  InPlayOrCaptured k (Nat.iter n (subStep table spin cb subDt active) w).
Proof.
  intros Hk. induction n as [|n IH]; simpl; [exact Hk|].
  now apply subStep_status.
Qed.

(** A phase that visits the active references once each applies its body
    once to an active ball. *)
Lemma fold_modify_once (f : Ball -> Ball) (k : nat) (b : Ball) (c : nat) (l : list nat) :
  forall w, NoDup l -> In k l -> Keeps k b c w ->
            Keeps k (f b) c (fold_left (fun w i => on_store (modify i f) w) l w).
Proof.
  induction l as [|i l IH]; intros w Hnd Hin Hk; [contradiction|].
  apply NoDup_cons_iff in Hnd as [Hni Hnd]. cbn [fold_left].
  destruct (Nat.eq_dec i k) as [->|Hik].
  - apply fold_left_invariant.
    + intros a j Hj Ha. apply modify_step_keeps; [|exact Ha].
      intros ->. contradiction.
    + destruct Hk as [Hn Hc]. split; [|exact Hc]. cbn [store on_store].
      now apply nth_error_modify_same.
  - destruct Hin as [Hin|Hin]; [contradiction|].
    apply IH; [exact Hnd | exact Hin |].
    apply modify_step_keeps; [|exact Hk]. intros E. contradiction.
Qed.

Lemma pocketStep_other (table : TableConfig) (i k : nat) (b : Ball) (c : nat) (w : World) :
  i <> k -> Keeps k b c w -> Keeps k b c (pocketStep table i w).
Proof.
  intros Hik [Hn Hc]. unfold pocketStep.
  destruct (nth_error (store w) i) as [bi|]; [|now split].
  destruct (potted bi); [now split|].
  destruct (captured _ _ _); [|now split].
  split; simpl.
  - unfold put. now rewrite nth_error_modify_other.
  - rewrite potCount_app. unfold potCount at 2. simpl.
    apply Nat.eqb_neq in Hik. rewrite Hik. simpl. lia.
Qed.

(** The pocket phase captures an active ball that is within reach of a
    pocket, once. *)
Lemma fold_pocket_captures (table : TableConfig) (k : nat) (b : Ball) (l : list nat) :
  potted b = false ->
  captured (pockets table) (pocketRadius table) (pos b) = true ->
  forall w, In k l -> Keeps k b 0 w ->
            Keeps k (potBall b) 1 (fold_left (fun w i => pocketStep table i w) l w).
Proof.
  intros Hp Hcap. induction l as [|i l IH]; intros w Hin Hk; [contradiction|].
  cbn [fold_left]. destruct (Nat.eq_dec i k) as [->|Hik].
  - apply fold_left_invariant.
    + intros a j _ Ha. now apply pocketStep_keeps.
    + destruct Hk as [Hn Hc]. unfold pocketStep. rewrite Hn, Hp, Hcap. split; simpl.
      * unfold put. exact (nth_error_modify_same k (fun _ => potBall b) _ b Hn).
      * rewrite potCount_app, Hc. unfold potCount. simpl. now rewrite Nat.eqb_refl.
  - destruct Hin as [Hin|Hin]; [contradiction|].
    apply IH; [exact Hin|]. now apply pocketStep_other.
Qed.

(** The first sub-step of a call captures the ball that its move brings
    within reach of a pocket. *)
Lemma subStep_captures (table : TableConfig) (spin : Spin) (cb : bool) (subDt : R)
    (active : list nat) (w : World) (k : nat) (b0 : Ball) :
  NoDup active -> In k active -> Keeps k b0 0 w -> potted b0 = false ->
  captured (pockets table) (pocketRadius table) (pos (integrateBall subDt b0)) = true ->
  Keeps k (potBall (integrateBall subDt b0)) 1 (subStep table spin cb subDt active w).
Proof.
  intros Hnd Hin Hk Hp Hcap. unfold subStep. cbv zeta.
  set (b1 := integrateBall subDt b0) in *.
  assert (Hp1 : potted b1 = false).
  { unfold b1. now rewrite (moved_potted _ _ (integrateBall_moved subDt b0)). }
  set (w1 := fold_left (fun w i => on_store (modify i (integrateBall subDt)) w) active w).
  assert (H1 : Keeps k b1 0 w1) by now apply fold_modify_once.
  set (w2 := fold_left (fun w i => pocketStep table i w) active w1).
  assert (H2 : Keeps k (potBall b1) 1 w2) by now apply fold_pocket_captures.
  set (w3 := fold_left (fun w i => on_store (modify i (wallBall table spin)) w) active w2).
  assert (H3 : Keeps k (potBall b1) 1 w3).
  { apply fold_left_invariant; [|exact H2].
    intros a i _ Ha. apply modify_step_keeps; [|exact Ha].
    intros _. now apply wallBall_potted. }
  clearbody w3. clear w1 w2 H1 H2.
  apply fold_left_invariant; [|exact H3].
  intros a [i j] Hij Ha. apply pairs_In in Hij as [Hi Hj].
  apply currentActive_in_play in Hi as (bi & Hbi & Hpi).
  apply currentActive_in_play in Hj as (bj & Hbj & Hpj).
  destruct H3 as [Hn3 _].
  apply collideStep_keeps; [| |exact Ha]; intros ->; rewrite Hn3 in *.
  - inversion Hbi; subst bi. discriminate Hpi.
  - inversion Hbj; subst bj. discriminate Hpj.
Qed.

(** C4.  In the pocket phase a ball in play whose centre is within 0.95 times
    the pocket radius of a pocket centre is marked potted with zero velocity
    and reported to [onPot], and a ball further from every pocket is left
    alone.  Over a whole call, a ball potted at entry is returned as it was
    and never reported; a ball in play at entry is either still in play and
    unreported, or potted, at rest and reported exactly once.  A ball that is
    potted goes through every sub-step and through friction untouched and
    unreported, whether it was captured during the call (it is then at rest)
    or was potted at entry (it is then none of the active references).  A
    ball that is in play at the start of one of the sub-steps of a call and
    whose centre, after the move of that sub-step, is within 0.95 times the
    pocket radius of a pocket centre is returned by the call potted, at rest,
    at the place where it was captured, and reported to [onPot] exactly once
    in the call. *)
Theorem updatePhysics_pots_once :
  (forall (table : TableConfig) (i : nat) (w : World) (b : Ball),
      nth_error (store w) i = Some b -> potted b = false ->
      ((exists q, In q (pockets table) /\ vecDist (pos b) q < 0.95 * pocketRadius table) ->
       pocketStep table i w
       = mkWorld (put i (set_vel (set_potted b true) zeroVec) (store w))
                 (trace w ++ [Pot i])) /\
      ((forall q, In q (pockets table) -> 0.95 * pocketRadius table <= vecDist (pos b) q) ->
       pocketStep table i w = w)) /\
  (forall (balls : list Ball) (table : TableConfig) (spin : Spin) (dt : R) (cb : bool)
          (k : nat) (b0 : Ball),
      nth_error balls k = Some b0 ->
      exists b : Ball,
        nth_error (store (updatePhysics balls table spin dt cb)) k = Some b /\
        (potted b0 = true ->
           b = b0 /\ potCount k (trace (updatePhysics balls table spin dt cb)) = 0%nat) /\
        (potted b0 = false ->
           (potted b = false /\
            potCount k (trace (updatePhysics balls table spin dt cb)) = 0%nat) \/
           (potted b = true /\ vel b = zeroVec /\
            potCount k (trace (updatePhysics balls table spin dt cb)) = 1%nat))) /\
  (forall (table : TableConfig) (spin : Spin) (cb : bool) (subDt timeScale : R)
          (active : list nat) (w : World) (k : nat) (b : Ball) (c : nat),
      Keeps k b c w -> potted b = true -> (In k active -> vel b = zeroVec) ->
      Keeps k b c (subStep table spin cb subDt active w) /\
      frictionBall spin timeScale b = b) /\
  (forall (balls : list Ball) (table : TableConfig) (spin : Spin) (dt : R) (cb : bool)
          (k : nat) (b0 : Ball) (j : nat) (b : Ball),
      nth_error balls k = Some b0 -> (j < SUB_STEPS)%nat ->
      nth_error
        (store (Nat.iter j
                  (subStep table spin cb (dt * 60 / INR SUB_STEPS)
                     (indices_where (fun b => negb (potted b)) balls))
                  (mkWorld balls []))) k = Some b ->
      potted b = false ->
      (exists q, In q (pockets table) /\
                 vecDist (pos (integrateBall (dt * 60 / INR SUB_STEPS) b)) q
                 < 0.95 * pocketRadius table) ->
      nth_error (store (updatePhysics balls table spin dt cb)) k
      = Some (set_vel (set_potted (integrateBall (dt * 60 / INR SUB_STEPS) b) true) zeroVec) /\
      potCount k (trace (updatePhysics balls table spin dt cb)) = 1%nat).
Proof.
  split; [|split; [|split]].
  - intros table i w b Hn Hp. unfold pocketStep. rewrite Hn, Hp. split.
    + intros Hq. apply captured_spec in Hq. now rewrite Hq.
    + intros Hfar.
      destruct (captured (pockets table) (pocketRadius table) (pos b)) eqn:E; [|reflexivity].
      apply captured_spec in E as [q [Hin Hd]]. specialize (Hfar q Hin). lra.
  - intros balls table spin dt cb k b0 Hn. unfold updatePhysics. cbv zeta.
    set (active := indices_where (fun b => negb (potted b)) balls).
    set (step := subStep table spin cb (dt * 60 / INR SUB_STEPS) active).
    destruct (potted b0) eqn:Hp0.
    + assert (Hk : Keeps k b0 0 (Nat.iter SUB_STEPS step (mkWorld balls []))).
      { apply iter_subStep_keeps; [exact Hp0| |now split].
        intros Hin. apply indices_where_In in Hin as (b & Hb & Hpb).
        rewrite Hn in Hb. inversion Hb; subst b. rewrite Hp0 in Hpb. discriminate. }
      destruct Hk as [Hs Hc]. exists b0. unfold on_store. cbn [store trace].
      rewrite nth_error_map_friction, Hs. cbn [option_map].
      rewrite frictionBall_potted by exact Hp0.
      split; [reflexivity|]. split; [now split | discriminate].
    + assert (Hk : InPlayOrCaptured k (Nat.iter SUB_STEPS step (mkWorld balls []))).
      { apply iter_subStep_status. exists b0. split; [exact Hn|]. now left. }
      destruct Hk as (b & Hs & Hst).
      exists (frictionBall spin (dt * 60) b). unfold on_store. cbn [store trace].
      rewrite nth_error_map_friction, Hs. cbn [option_map].
      split; [reflexivity|]. split; [discriminate|]. intros _.
      destruct Hst as [[Hp Hc]|(Hp & Hv & Hc)].
      * left. split; [|exact Hc].
        now rewrite (moved_potted _ _ (frictionBall_moved spin (dt * 60) b)).
      * right. rewrite frictionBall_potted by exact Hp. auto.
  - intros table spin cb subDt ts active w k b c Hk Hp Hv. split.
    + now apply subStep_keeps.
    + now apply frictionBall_potted.
  - intros balls table spin dt cb k b0 j b Hn0 Hj Hn Hp Hq. apply captured_spec in Hq.
    unfold updatePhysics. cbv zeta.
    set (active := indices_where (fun b => negb (potted b)) balls) in *.
    set (subDt := dt * 60 / INR SUB_STEPS) in *.
    set (step := subStep table spin cb subDt active) in *.
    assert (Hp0 : potted b0 = false).
    { destruct (potted b0) eqn:Hp0; [|reflexivity].
      assert (Hk : Keeps k b0 0 (Nat.iter j step (mkWorld balls []))).
      { apply iter_subStep_keeps; [exact Hp0| |now split].
        intros Hin. apply indices_where_In in Hin as (c & Hc & Hpc).
        rewrite Hn0 in Hc. inversion Hc; subst c. rewrite Hp0 in Hpc. discriminate. }
      destruct Hk as [Hs _]. rewrite Hn in Hs. inversion Hs; subst b. congruence. }
    assert (Hin : In k active).
    { apply indices_where_In. exists b0. split; [exact Hn0|]. now rewrite Hp0. }
    assert (Hj0 : Keeps k b 0 (Nat.iter j step (mkWorld balls []))).
    { split; [exact Hn|].
      assert (Hst : InPlayOrCaptured k (Nat.iter j step (mkWorld balls []))).
      { apply iter_subStep_status. exists b0. split; [exact Hn0|]. now left. }
      destruct Hst as (c & Hc & [[_ Hcount]|[Hpc _]]); [exact Hcount|].
      rewrite Hn in Hc. inversion Hc; subst c. congruence. }
    assert (H1 : Keeps k (potBall (integrateBall subDt b)) 1
                   (step (Nat.iter j step (mkWorld balls [])))).
    { apply subStep_captures; try assumption. apply indices_where_NoDup. }
    assert (E : Nat.iter SUB_STEPS step (mkWorld balls [])
                = Nat.iter (SUB_STEPS - S j) step (step (Nat.iter j step (mkWorld balls [])))).
    { rewrite <- Nat.iter_succ, <- Nat.iter_add. f_equal. lia. }
    rewrite E.
    assert (Hk : Keeps k (potBall (integrateBall subDt b)) 1
                   (Nat.iter (SUB_STEPS - S j) step
                      (step (Nat.iter j step (mkWorld balls []))))).
    { apply iter_subStep_keeps; [reflexivity | reflexivity | exact H1]. }
    destruct Hk as [Hs Hc]. unfold on_store. cbn [store trace].
    rewrite nth_error_map_friction, Hs. cbn [option_map].
    rewrite frictionBall_potted by reflexivity. split; [reflexivity | exact Hc].
Qed.

Lemma updatePhysics_pots_once_witness :
  (exists b : Ball,
     nth_error (store (updatePhysics [cueAtBreak; pottedBrown; redRollingIn]
                         TABLE_CONFIG zeroVec (/ 60) true)) 1 = Some b /\
     b = pottedBrown /\
     potCount 1 (trace (updatePhysics [cueAtBreak; pottedBrown; redRollingIn]
                          TABLE_CONFIG zeroVec (/ 60) true)) = 0%nat) /\
  nth_error (store (updatePhysics [cueAtBreak; pottedBrown; redRollingIn]
                      TABLE_CONFIG zeroVec (/ 60) true)) 2
  = Some (mkBall 7 RED (mkVec 51 42) zeroVec BALL_RADIUS "#dc2626" 1 true 1) /\
  potCount 2 (trace (updatePhysics [cueAtBreak; pottedBrown; redRollingIn]
                       TABLE_CONFIG zeroVec (/ 60) true)) = 1%nat.
Proof.
  assert (Hlen : vecLen (vel redRollingIn) = 10).
  { unfold vecLen, redRollingIn. cbn [vel x y].
    replace (-10 * -10 + 0 * 0) with (10 * 10) by ring. apply sqrt_square. lra. }
  assert (Hmove : integrateBall (/ 60 * 60 / INR SUB_STEPS) redRollingIn
                  = set_pos redRollingIn (mkVec 51 42)).
  { unfold integrateBall. rewrite Hlen.
    cmp 0.001 10; [|lra]. f_equal. unfold redRollingIn, vecAdd, vecMult, SUB_STEPS.
    cbn [pos vel x y]. simpl INR. f_equal; field. }
  split.
  - destruct (proj1 (proj2 updatePhysics_pots_once)
                [cueAtBreak; pottedBrown; redRollingIn] TABLE_CONFIG zeroVec (/ 60) true
                1%nat pottedBrown eq_refl) as [b (Hn & Hp & _)].
    exists b. split; [exact Hn|]. apply Hp. reflexivity.
  - destruct (proj2 (proj2 (proj2 updatePhysics_pots_once))
                [cueAtBreak; pottedBrown; redRollingIn] TABLE_CONFIG zeroVec (/ 60) true
                2%nat redRollingIn 0%nat redRollingIn eq_refl) as [Hn Hc].
    + unfold SUB_STEPS. lia.
    + reflexivity.
    + reflexivity.
    + exists (mkVec 42 42). split; [left; unfold TABLE_CONFIG; cbn; f_equal; lra|].
      rewrite Hmove. unfold vecDist, vecSub, set_pos, redRollingIn. cbn [pos x y].
      replace (51 - 42) with 9 by lra. replace (42 - 42) with 0 by lra.
      rewrite vecLen_axis by lra. unfold TABLE_CONFIG. cbn [pocketRadius]. lra.
    + split; [|exact Hc]. etransitivity; [exact Hn|]. rewrite Hmove. reflexivity.
Defined.

(** ** Physics engine: kinetic energy *)

Lemma vecLen_sqr' (v : Vector2) : (vecLen v)² = x v * x v + y v * y v.
Proof. unfold Rsqr. apply vecLen_sqr. Qed.

Lemma vecLen_le (u v : Vector2) :
  x u * x u + y u * y u <= x v * x v + y v * y v -> vecLen u <= vecLen v.
Proof. intros H. unfold vecLen. now apply sqrt_le_1_alt. Qed.

Lemma kinetic_le (b b' : Ball) :
  mass b' = mass b -> 0 <= mass b -> vecLen (vel b') <= vecLen (vel b) ->
  kinetic b' <= kinetic b.
Proof.
  intros Hm H0 Hv. unfold kinetic. rewrite Hm.
  pose proof (vecLen_nonneg (vel b')) as Hn.
  assert ((vecLen (vel b'))² <= (vecLen (vel b))²) by (unfold Rsqr; nra).
  nra.
Qed.

Lemma kinetic_nonneg (b : Ball) : 0 <= mass b -> 0 <= kinetic b.
Proof.
  intros H. unfold kinetic. pose proof (Rle_0_sqr (vecLen (vel b))). nra.
Qed.

Lemma integrateBall_vel (subDt : R) (b : Ball) : vel (integrateBall subDt b) = vel b.
Proof. unfold integrateBall. now destruct (Rltb _ _). Qed.

Lemma reflect_sqr (a : R) : Rabs a * WALL_RESTITUTION * (Rabs a * WALL_RESTITUTION) <= a * a.
Proof.
  unfold WALL_RESTITUTION. pose proof (Rsqr_abs a) as H. unfold Rsqr in H.
  set (r := Rabs a) in *. pose proof (Rle_0_sqr r) as Hr. unfold Rsqr in Hr. nra.
Qed.

(** Without side spin a cushion only takes speed away. *)
Lemma wallBall_speed (table : TableConfig) (b : Ball) :
  vecLen (vel (wallBall table (mkVec 0 0) b)) <= vecLen (vel b).
Proof.
  unfold wallBall.
  destruct (potted b); [apply Rle_refl|].
  destruct (inPocketZone _ _ _); [apply Rle_refl|].
  cbv zeta. cbn [x y]. rewrite Reqb_refl, andb_false_r.
  pose proof (reflect_sqr (x (vel b))) as Hx. pose proof (reflect_sqr (y (vel b))) as Hy.
  destruct (Rltb (x (pos b)) _); [|destruct (Rltb _ (x (pos b)))];
    (destruct (Rltb (y (pos b)) _); [|destruct (Rltb _ (y (pos b)))]);
    simpl; apply vecLen_le; simpl; nra.
Qed.

(** Without spin and with time running forward friction only takes speed away. *)
Lemma frictionBall_slows (ts : R) (b : Ball) :
  0 <= ts -> vecLen (vel (frictionBall (mkVec 0 0) ts b)) <= vecLen (vel b).
Proof.
  intros Hts.
  destruct (potted b) eqn:Hp; [rewrite frictionBall_potted by exact Hp; apply Rle_refl|].
  pose proof (vecLen_nonneg (vel b)) as H0.
  destruct (Rlt_dec (vecLen (vel b)) STOP_THRESHOLD) as [Hs|Hs].
  - rewrite frictionBall_stop by assumption. now rewrite vecLen_zero.
  - apply Rnot_lt_le in Hs. rewrite frictionBall_speed by assumption. cbv zeta.
    assert (Hd : 0 <= effectiveDrag (mkVec 0 0) ts b).
    { unfold effectiveDrag, ROLLING_RESISTANCE. destruct (BallType_eqb _ _); simpl; nra. }
    assert (Hn : Rmax 0 (vecLen (vel b) - effectiveDrag (mkVec 0 0) ts b) <= vecLen (vel b))
      by (apply Rmax_lub; lra).
    pose proof (Rmax_l 0 (vecLen (vel b) - effectiveDrag (mkVec 0 0) ts b)) as Hl.
    destruct (Rltb _ _); lra.
Qed.

(** The impulse of a contact between equal masses, with a restitution below
    one, takes energy away. *)
Lemma impulse_energy (ax ay bx by_ nx ny : R) :
  nx * nx + ny * ny = 1 \/ (nx = 0 /\ ny = 0) ->
  let van := (ax - bx) * nx + (ay - by_) * ny in
  let imp := - (1 + BALL_RESTITUTION) * van / 2 in
  (ax + nx * imp) * (ax + nx * imp) + (ay + ny * imp) * (ay + ny * imp)
  + ((bx - nx * imp) * (bx - nx * imp) + (by_ - ny * imp) * (by_ - ny * imp))
  <= ax * ax + ay * ay + (bx * bx + by_ * by_).
Proof.
  intros Hn van imp.
  assert (E : (ax + nx * imp) * (ax + nx * imp) + (ay + ny * imp) * (ay + ny * imp)
              + ((bx - nx * imp) * (bx - nx * imp) + (by_ - ny * imp) * (by_ - ny * imp))
              = ax * ax + ay * ay + (bx * bx + by_ * by_)
                + (2 * imp * van + 2 * imp * imp * (nx * nx + ny * ny)))
    by (unfold van; ring).
  rewrite E. clear E.
  destruct Hn as [Hn|[Hx Hy]].
  - rewrite Hn. unfold imp, BALL_RESTITUTION.
    pose proof (Rle_0_sqr van) as Hv. unfold Rsqr in Hv. nra.
  - assert (Hv : van = 0) by (unfold van; rewrite Hx, Hy; ring).
    unfold imp. rewrite Hv. lra.
Qed.

Lemma collide_energy (b1 b2 : Ball) (m : R) :
  0 <= m -> mass b1 = m -> mass b2 = m ->
  kinetic (fst (fst (collide (mkVec 0 0) b1 b2)))
  + kinetic (snd (fst (collide (mkVec 0 0) b1 b2)))
  <= kinetic b1 + kinetic b2.
Proof.
  intros Hm H1 H2. unfold collide. cbv zeta.
  destruct (Rltb (vecDist (pos b1) (pos b2)) (radius b1 + radius b2)); [|apply Rle_refl].
  set (n := vecNorm (vecSub (pos b1) (pos b2))).
  set (c1 := if Rltb 0 _ then set_pos b1 _ else b1).
  set (c2 := if Rltb 0 _ then set_pos b2 _ else b2).
  assert (Hc1 : vel c1 = vel b1 /\ mass c1 = mass b1)
    by (unfold c1; destruct (Rltb 0 _); split; reflexivity).
  assert (Hc2 : vel c2 = vel b2 /\ mass c2 = mass b2)
    by (unfold c2; destruct (Rltb 0 _); split; reflexivity).
  clearbody c1 c2. destruct Hc1 as [Hv1 Hm1]. destruct Hc2 as [Hv2 Hm2].
  cbn [x y]. rewrite Reqb_refl. cbn [negb orb]. rewrite andb_false_r.
  destruct (Rltb 0 _).
  - cbn [fst snd]. unfold kinetic. rewrite Hv1, Hv2, Hm1, Hm2. apply Rle_refl.
  - cbn [fst snd]. unfold kinetic. cbn [vel mass set_vel].
    rewrite Hm1, Hm2, H1, H2, !vecLen_sqr'. rewrite Hv1, Hv2.
    unfold vecAdd, vecSub, vecMult, vecDot. cbn [x y].
    assert (Hn : x n * x n + y n * y n = 1 \/ (x n = 0 /\ y n = 0)).
    { destruct (vecNorm_dot_cases (vecSub (pos b1) (pos b2))) as [H|H]; fold n in H.
      - now left.
      - right. rewrite H. now split. }
    pose proof (impulse_energy (x (vel b1)) (y (vel b1)) (x (vel b2)) (y (vel b2))
                  (x n) (y n) Hn) as H.
    cbv zeta in H. nra.
Qed.

Lemma totalEnergy_modify (f : Ball -> Ball) (m : R) (i : nat) (l : list Ball) :
  (forall b, mass b = m -> mass (f b) = m /\ kinetic (f b) <= kinetic b) ->
  Forall (fun b => mass b = m) l ->
  Forall (fun b => mass b = m) (modify i f l) /\
  totalEnergy (modify i f l) <= totalEnergy l.
Proof.
  intros Hf. revert i. induction l as [|b l IH]; intros i Hall.
  - destruct i; simpl; (split; [constructor | apply Rle_refl]).
  - apply Forall_cons_iff in Hall as [Hb Hl]. destruct i as [|i]; simpl.
    + destruct (Hf b Hb) as [Hm Hk]. split; [now constructor | lra].
    + destruct (IH i Hl) as [Ha He]. split; [now constructor | lra].
Qed.

Lemma totalEnergy_put (i : nat) (b b' : Ball) (l : list Ball) :
  nth_error l i = Some b ->
  totalEnergy (put i b' l) = totalEnergy l - kinetic b + kinetic b'.
Proof.
  unfold put. revert i. induction l as [|c l IH]; intros [|i] H; simpl in *;
    try discriminate.
  - inversion H; subst. lra.
  - rewrite (IH i H). lra.
Qed.

Lemma Forall_put (P : Ball -> Prop) (i : nat) (b' : Ball) (l : list Ball) :
  P b' -> Forall P l -> Forall P (put i b' l).
Proof.
  unfold put. intros Hb. revert i. induction l as [|c l IH]; intros [|i] H; simpl;
    try constructor; try (apply Forall_cons_iff in H as [Hc Hl]); auto.
Qed.

Lemma totalEnergy_map (f : Ball -> Ball) (m : R) (l : list Ball) :
  (forall b, mass b = m -> mass (f b) = m /\ kinetic (f b) <= kinetic b) ->
  Forall (fun b => mass b = m) l ->
  totalEnergy (map f l) <= totalEnergy l.
Proof.
  intros Hf Hall. induction Hall as [|b l Hb Hl IH]; simpl; [apply Rle_refl|].
  destruct (Hf b Hb). lra.
Qed.

Section Energy.
Variables (m E : R) (table : TableConfig) (cb : bool).
Hypothesis m_nonneg : 0 <= m.

Lemma slower_ball (f : Ball -> Ball) :
  (forall b, moved b (f b)) ->
  (forall b, vecLen (vel (f b)) <= vecLen (vel b)) ->
  forall b, mass b = m -> mass (f b) = m /\ kinetic (f b) <= kinetic b.
Proof.
  intros Hm Hv b Hb. pose proof (moved_mass _ _ (Hm b)) as Hmass.
  split; [congruence|]. apply kinetic_le; [exact Hmass | rewrite Hb; exact m_nonneg | apply Hv].
Qed.

Lemma modify_step_energy (f : Ball -> Ball) (i : nat) (w : World) :
  (forall b, moved b (f b)) ->
  (forall b, vecLen (vel (f b)) <= vecLen (vel b)) ->
  EnergyBound m E w -> EnergyBound m E (on_store (modify i f) w).
Proof.
  intros Hm Hv [Hall He]. unfold EnergyBound. simpl.
  destruct (totalEnergy_modify f m i (store w) (slower_ball f Hm Hv) Hall) as [Ha Hle].
  split; [exact Ha | lra].
Qed.

Lemma pocketStep_energy (i : nat) (w : World) :
  EnergyBound m E w -> EnergyBound m E (pocketStep table i w).
Proof.
  intros [Hall He]. unfold pocketStep.
  destruct (nth_error (store w) i) as [b|] eqn:Hn; [|now split].
  destruct (potted b); [now split|].
  destruct (captured _ _ _); [|now split].
  assert (Hb : mass b = m).
  { rewrite Forall_forall in Hall. apply Hall. eapply nth_error_In. exact Hn. }
  unfold EnergyBound. simpl. split.
  - apply Forall_put; [exact Hb | exact Hall].
  - rewrite (totalEnergy_put i b _ _ Hn).
    assert (kinetic (potBall b) = 0).
    { unfold kinetic, potBall. simpl. rewrite vecLen_zero. unfold Rsqr. ring. }
    pose proof (kinetic_nonneg b). rewrite Hb in *. lra.
Qed.

Lemma collideStep_energy (w : World) (i j : nat) :
  i <> j -> EnergyBound m E w ->
  EnergyBound m E (collideStep (mkVec 0 0) cb w (i, j)).
Proof.
  intros Hij [Hall He]. unfold collideStep.
  destruct (nth_error (store w) i) as [b1|] eqn:H1; [|now split].
  destruct (nth_error (store w) j) as [b2|] eqn:H2; [|now split].
  assert (Hm1 : mass b1 = m).
  { rewrite Forall_forall in Hall. apply Hall. eapply nth_error_In. exact H1. }
  assert (Hm2 : mass b2 = m).
  { rewrite Forall_forall in Hall. apply Hall. eapply nth_error_In. exact H2. }
  pose proof (collide_energy b1 b2 m m_nonneg Hm1 Hm2) as Hen.
  pose proof (collide_moved (mkVec 0 0) b1 b2) as [M1 M2].
  destruct (collide (mkVec 0 0) b1 b2) as [[b1' b2'] report]. simpl in *.
  unfold EnergyBound. cbn [store]. split.
  - apply Forall_put; [rewrite (moved_mass _ _ M2); exact Hm2|].
    apply Forall_put; [rewrite (moved_mass _ _ M1); exact Hm1 | exact Hall].
  - rewrite (totalEnergy_put j b2).
    + rewrite (totalEnergy_put i b1 _ _ H1). lra.
    + unfold put. rewrite nth_error_modify_other by exact Hij. exact H2.
Qed.

Lemma subStep_energy (subDt : R) (active : list nat) (w : World) :
  NoDup active ->
  EnergyBound m E w -> EnergyBound m E (subStep table (mkVec 0 0) cb subDt active w).
Proof.
  intros Hnd Hw. unfold subStep. cbv zeta.
  apply fold_left_invariant.
  - intros a [i j] Hij Ha. apply collideStep_energy; [|exact Ha].
    apply (pairs_distinct _ i j) in Hij; [exact Hij|]. now apply NoDup_filter.
  - apply fold_left_invariant.
    + intros a i _ Ha. apply modify_step_energy; [| |exact Ha].
      * apply wallBall_moved.
      * apply wallBall_speed.
    + apply fold_left_invariant.
      * intros a i _ Ha. now apply pocketStep_energy.
      * apply fold_left_invariant; [|exact Hw].
        intros a i _ Ha. apply modify_step_energy; [| |exact Ha].
        -- apply integrateBall_moved.
        -- intros b. rewrite integrateBall_vel. apply Rle_refl.
Qed.
End Energy.

(** C3. With zero applied spin, time running forward and balls of one and the
    same non-negative mass, the total kinetic energy of the balls after a call
    to [updatePhysics] is at most what it was before the call. *)
Theorem updatePhysics_energy_non_increasing :
  forall (balls : list Ball) (table : TableConfig) (dt : R) (cb : bool) (m : R),
    0 <= dt -> 0 <= m -> (forall b, In b balls -> mass b = m) ->
    totalEnergy (store (updatePhysics balls table (mkVec 0 0) dt cb)) <= totalEnergy balls.
Proof.
  intros balls table dt cb m Hdt Hm Hmass. unfold updatePhysics. cbv zeta.
  set (active := indices_where (fun b => negb (potted b)) balls).
  set (step := subStep table (mkVec 0 0) cb (dt * 60 / INR SUB_STEPS) active).
  assert (Hb : EnergyBound m (totalEnergy balls) (Nat.iter SUB_STEPS step (mkWorld balls []))).
  { generalize SUB_STEPS as n. induction n as [|n IH]; simpl.
    - split; [now apply Forall_forall | apply Rle_refl].
    - apply subStep_energy; [exact Hm | apply indices_where_NoDup | exact IH]. }
  destruct Hb as [Hall He]. unfold on_store. cbn [store].
  eapply Rle_trans; [|exact He].
  apply (totalEnergy_map _ m); [|exact Hall].
  apply slower_ball; [exact Hm | apply frictionBall_moved |].
  intros b. apply frictionBall_slows. lra.
Qed.

Lemma updatePhysics_energy_non_increasing_witness :
  totalEnergy (store (updatePhysics [rollingCueBall; yellowOnSpot] TABLE_CONFIG (mkVec 0 0)
                        (/ 60) false))
  <= totalEnergy [rollingCueBall; yellowOnSpot].
Proof.
  apply (updatePhysics_energy_non_increasing
           [rollingCueBall; yellowOnSpot] TABLE_CONFIG (/ 60) false 1).
  - lra.
  - lra.
  - intros b [<-|[<-|[]]]; reflexivity.
Defined.


(** * Further properties *)

(** ** Physics engine: the balls stay the balls *)

Lemma sameBall_refl (b : Ball) : sameBall b b.
Proof. repeat split. Qed.

Lemma sameBall_moved (b0 b b' : Ball) : sameBall b0 b -> moved b b' -> sameBall b0 b'.
Proof. intros H ->. exact H. Qed.

Lemma store_length_modify (i : nat) (f : Ball -> Ball) (l : list Ball) :
  List.length (modify i f l) = List.length l.
Proof.
  revert i; induction l as [|c t IH]; intros [|k]; simpl; try reflexivity.
  now rewrite IH.
Qed.

Lemma modify_step_still (f : Ball -> Ball) (i k : nat) (b0 : Ball) (w : World) :
  (forall b, moved b (f b)) -> StillBall k b0 w -> StillBall k b0 (on_store (modify i f) w).
Proof.
  intros Hf (b & Hn & Hs & Hp). unfold StillBall. simpl.
  destruct (Nat.eq_dec i k) as [->|Hik].
  - exists (f b). rewrite (nth_error_modify_same k f _ b Hn).
    split; [reflexivity|]. split; [exact (sameBall_moved _ _ _ Hs (Hf b))|].
    rewrite (moved_potted _ _ (Hf b)). exact Hp.
  - exists b. rewrite nth_error_modify_other by exact Hik. auto.
Qed.

Lemma pocketStep_still (table : TableConfig) (i k : nat) (b0 : Ball) (w : World) :
  StillBall k b0 w -> StillBall k b0 (pocketStep table i w).
Proof.
  intros (b & Hn & Hs & Hp). unfold pocketStep.
  destruct (nth_error (store w) i) as [bi|] eqn:Ei; [|now exists b].
  destruct (potted bi) eqn:Epi; [now exists b|].
  destruct (captured _ _ _); [|now exists b].
  unfold StillBall. simpl. unfold put.
  destruct (Nat.eq_dec i k) as [->|Hik].
  - rewrite Hn in Ei. inversion Ei; subst bi.
    exists (potBall b). rewrite (nth_error_modify_same k _ _ b Hn).
    split; [reflexivity|]. split; [exact Hs | reflexivity].
  - exists b. rewrite nth_error_modify_other by exact Hik. auto.
Qed.

Lemma collideStep_still (spin : Spin) (cb : bool) (w : World) (ij : nat * nat) (k : nat)
    (b0 : Ball) :
  StillBall k b0 w -> StillBall k b0 (collideStep spin cb w ij).
Proof.
  intros (b & Hn & Hs & Hp). unfold StillBall.
  unfold collideStep. destruct ij as [i j].
  destruct (nth_error (store w) i) as [b1|] eqn:E1; [|now exists b].
  destruct (nth_error (store w) j) as [b2|] eqn:E2; [|now exists b].
  pose proof (collide_moved spin b1 b2) as [M1 M2].
  destruct (collide spin b1 b2) as [[b1' b2'] report]. simpl in *. unfold put.
  destruct (Nat.eq_dec j k) as [->|Hjk].
  - assert (Hx : exists x, nth_error (modify i (fun _ => b1') (store w)) k = Some x).
    { destruct (Nat.eq_dec i k) as [->|Hik].
      - exists b1'. now rewrite (nth_error_modify_same k _ _ b Hn).
      - exists b. now rewrite nth_error_modify_other. }
    destruct Hx as [x Hx].
    exists b2'. rewrite (nth_error_modify_same k _ _ x Hx).
    rewrite Hn in E2. inversion E2; subst b2.
    split; [reflexivity|]. split; [exact (sameBall_moved _ _ _ Hs M2)|].
    rewrite (moved_potted _ _ M2). exact Hp.
  - rewrite nth_error_modify_other by exact Hjk.
    destruct (Nat.eq_dec i k) as [->|Hik].
    + exists b1'. rewrite (nth_error_modify_same k _ _ b Hn).
      rewrite Hn in E1. inversion E1; subst b1.
      split; [reflexivity|]. split; [exact (sameBall_moved _ _ _ Hs M1)|].
      rewrite (moved_potted _ _ M1). exact Hp.
    + exists b. rewrite nth_error_modify_other by exact Hik. auto.
Qed.

Lemma subStep_still (table : TableConfig) (spin : Spin) (cb : bool) (subDt : R)
    (active : list nat) (w : World) (k : nat) (b0 : Ball) :
  StillBall k b0 w -> StillBall k b0 (subStep table spin cb subDt active w).
Proof.
  intros Hk. unfold subStep. cbv zeta.
  apply fold_left_invariant; [intros a ij _ Ha; now apply collideStep_still|].
  apply fold_left_invariant.
  { intros a i _ Ha. apply modify_step_still; [apply wallBall_moved | exact Ha]. }
  apply fold_left_invariant; [intros a i _ Ha; now apply pocketStep_still|].
  apply fold_left_invariant; [|exact Hk].
  intros a i _ Ha. apply modify_step_still; [apply integrateBall_moved | exact Ha].
Qed.

Lemma collideStep_length (spin : Spin) (cb : bool) (w : World) (ij : nat * nat) :
  List.length (store (collideStep spin cb w ij)) = List.length (store w).
Proof.
  unfold collideStep. destruct ij as [i j].
  destruct (nth_error (store w) i); [|reflexivity].
  destruct (nth_error (store w) j); [|reflexivity].
  destruct (collide spin b b0) as [[b1' b2'] report]. simpl. unfold put.
  now rewrite !store_length_modify.
Qed.

Lemma pocketStep_length (table : TableConfig) (i : nat) (w : World) :
  List.length (store (pocketStep table i w)) = List.length (store w).
Proof.
  unfold pocketStep.
  destruct (nth_error (store w) i); [|reflexivity].
  destruct (potted b); [reflexivity|].
  destruct (captured _ _ _); [|reflexivity].
  simpl. unfold put. apply store_length_modify.
Qed.

Lemma subStep_length (table : TableConfig) (spin : Spin) (cb : bool) (subDt : R)
    (active : list nat) (w : World) (n : nat) :
  List.length (store w) = n ->
  List.length (store (subStep table spin cb subDt active w)) = n.
Proof.
  intros Hk. unfold subStep. cbv zeta.
  apply fold_left_invariant; [intros a ij _ Ha; now rewrite collideStep_length|].
  apply fold_left_invariant.
  { intros a i _ Ha. simpl. now rewrite store_length_modify. }
  apply fold_left_invariant; [intros a i _ Ha; now rewrite pocketStep_length|].
  apply fold_left_invariant; [|exact Hk].
  intros a i _ Ha. simpl. now rewrite store_length_modify.
Qed.

(** X1. [updatePhysics] returns as many balls as it was given, each at its
    index with the id, type, radius, colour, mass and value it had; and a ball
    that was potted is still potted: a call never brings a ball back. *)
Theorem updatePhysics_keeps_the_balls :
  forall (balls : list Ball) (table : TableConfig) (spin : Spin) (dt : R) (cb : bool),
    List.length (store (updatePhysics balls table spin dt cb)) = List.length balls /\
    forall (k : nat) (b0 : Ball),
      nth_error balls k = Some b0 ->
      exists b : Ball,
        nth_error (store (updatePhysics balls table spin dt cb)) k = Some b /\
        sameBall b0 b /\ (potted b0 = true -> potted b = true).
Proof.
  intros balls table spin dt cb. unfold updatePhysics. cbv zeta.
  set (active := indices_where (fun b => negb (potted b)) balls).
  set (step := subStep table spin cb (dt * 60 / INR SUB_STEPS) active).
  split.
  - unfold on_store. cbn [store]. rewrite length_map.
    generalize SUB_STEPS as n. induction n as [|n IH]; simpl; [reflexivity|].
    now apply subStep_length.
  - intros k b0 Hn.
    assert (Hk : StillBall k b0 (Nat.iter SUB_STEPS step (mkWorld balls []))).
    { generalize SUB_STEPS as n. induction n as [|n IH]; simpl.
      - exists b0. split; [exact Hn|]. split; [apply sameBall_refl | auto].
      - now apply subStep_still. }
    destruct Hk as (b & Hs & Hsame & Hp).
    exists (frictionBall spin (dt * 60) b). unfold on_store. cbn [store].
    rewrite nth_error_map_friction, Hs. split; [reflexivity|].
    pose proof (frictionBall_moved spin (dt * 60) b) as Hm.
    split; [exact (sameBall_moved _ _ _ Hsame Hm)|].
    rewrite (moved_potted _ _ Hm). exact Hp.
Qed.

Lemma updatePhysics_keeps_the_balls_witness :
  exists b : Ball,
    nth_error (store (updatePhysics [rollingCueBall; pottedBrown] TABLE_CONFIG
                        (mkVec 0.5 (-1)) (/ 60) true)) 1 = Some b /\
    sameBall pottedBrown b /\ potted b = true.
Proof.
  destruct (proj2 (updatePhysics_keeps_the_balls [rollingCueBall; pottedBrown] TABLE_CONFIG
                     (mkVec 0.5 (-1)) (/ 60) true) 1%nat pottedBrown eq_refl)
    as [b (Hn & Hs & Hp)].
  exists b. split; [exact Hn|]. split; [exact Hs|]. now apply Hp.
Defined.

(** ** Physics engine: a table at rest *)

Lemma Forall_modify (P : Ball -> Prop) (f : Ball -> Ball) (i : nat) (l : list Ball) :
  (forall b, P b -> P (f b)) -> Forall P l -> Forall P (modify i f l).
Proof.
  intros Hf. revert i. induction l as [|c l IH]; intros [|i] H; simpl;
    try constructor; try (apply Forall_cons_iff in H as [Hc Hl]); auto.
Qed.

Lemma wallBall_rest (table : TableConfig) (spin : Spin) (b : Ball) :
  vel b = zeroVec -> vel (wallBall table spin b) = zeroVec.
Proof.
  intros Hv. unfold wallBall.
  destruct (potted b); [exact Hv|].
  destruct (inPocketZone _ _ _); [exact Hv|].
  cbv zeta. rewrite Hv. cbn [x y zeroVec].
  assert (H0 : Rabs 0 * WALL_RESTITUTION = 0) by (rewrite Rabs_R0; ring).
  assert (H1 : - Rabs 0 * WALL_RESTITUTION = 0) by (rewrite Rabs_R0; ring).
  rewrite H0, H1.
  assert (Hs : Rltb 1 (vecLen (mkVec 0 0)) = false).
  { apply Rltb_false. fold zeroVec. rewrite vecLen_zero. lra. }
  destruct (Rltb (x (pos b)) _); [|destruct (Rltb _ (x (pos b)))];
    (destruct (Rltb (y (pos b)) _); [|destruct (Rltb _ (y (pos b)))]);
    cbn [vel set_vel]; rewrite Hs; destruct (_ && _); reflexivity.
Qed.

Lemma collide_rest (spin : Spin) (b1 b2 : Ball) :
  vel b1 = zeroVec -> vel b2 = zeroVec ->
  vel (fst (fst (collide spin b1 b2))) = zeroVec /\
  vel (snd (fst (collide spin b1 b2))) = zeroVec.
Proof.
  intros H1 H2. unfold collide. cbv zeta.
  destruct (Rltb (vecDist (pos b1) (pos b2)) (radius b1 + radius b2)); [|now split].
  set (n := vecNorm (vecSub (pos b1) (pos b2))).
  set (c1 := if Rltb 0 _ then set_pos b1 _ else b1).
  set (c2 := if Rltb 0 _ then set_pos b2 _ else b2).
  assert (Hc1 : vel c1 = zeroVec) by (unfold c1; destruct (Rltb 0 _); exact H1).
  assert (Hc2 : vel c2 = zeroVec) by (unfold c2; destruct (Rltb 0 _); exact H2).
  clearbody c1 c2. rewrite Hc1, Hc2.
  assert (Hvan : vecDot (vecSub zeroVec zeroVec) n = 0)
    by (unfold vecDot, vecSub, zeroVec; simpl; ring).
  rewrite Hvan.
  assert (Hno : Rltb 0 0 = false) by (apply Rltb_false; lra).
  rewrite Hno.
  assert (Himpact : Rltb 0.1 (Rabs 0) = false) by (apply Rltb_false; rewrite Rabs_R0; lra).
  rewrite Himpact.
  assert (Hz1 : vecAdd zeroVec (vecMult n (- (1 + BALL_RESTITUTION) * 0 / 2)) = zeroVec)
    by (unfold vecAdd, vecMult, zeroVec; simpl; f_equal; field).
  assert (Hz2 : vecSub zeroVec (vecMult n (- (1 + BALL_RESTITUTION) * 0 / 2)) = zeroVec)
    by (unfold vecSub, vecMult, zeroVec; simpl; f_equal; field).
  rewrite Hz1, Hz2.
  destruct (_ && _); cbn [fst snd vel set_vel]; now split.
Qed.

Lemma frictionBall_rest (spin : Spin) (ts : R) (b : Ball) :
  vel b = zeroVec -> vel (frictionBall spin ts b) = zeroVec.
Proof.
  intros Hv. unfold frictionBall.
  destruct (potted b); [exact Hv|]. cbv zeta.
  rewrite Hv, vecLen_zero.
  assert (H : Rltb 0 STOP_THRESHOLD = true) by (apply Rltb_true; unfold STOP_THRESHOLD; lra).
  now rewrite H.
Qed.

Lemma collideStep_rest (spin : Spin) (cb : bool) (w : World) (ij : nat * nat) :
  allAtRest (store w) -> allAtRest (store (collideStep spin cb w ij)).
Proof.
  unfold allAtRest. intros Hall. unfold collideStep. destruct ij as [i j].
  destruct (nth_error (store w) i) as [b1|] eqn:E1; [|exact Hall].
  destruct (nth_error (store w) j) as [b2|] eqn:E2; [|exact Hall].
  assert (H1 : vel b1 = zeroVec).
  { rewrite Forall_forall in Hall. apply Hall. eapply nth_error_In. exact E1. }
  assert (H2 : vel b2 = zeroVec).
  { rewrite Forall_forall in Hall. apply Hall. eapply nth_error_In. exact E2. }
  pose proof (collide_rest spin b1 b2 H1 H2) as [R1 R2].
  destruct (collide spin b1 b2) as [[b1' b2'] report]. simpl in *.
  apply Forall_put; [exact R2|]. apply Forall_put; [exact R1 | exact Hall].
Qed.

Lemma pocketStep_rest (table : TableConfig) (i : nat) (w : World) :
  allAtRest (store w) -> allAtRest (store (pocketStep table i w)).
Proof.
  unfold allAtRest. intros Hall. unfold pocketStep.
  destruct (nth_error (store w) i) as [b|]; [|exact Hall].
  destruct (potted b); [exact Hall|].
  destruct (captured _ _ _); [|exact Hall].
  simpl. apply Forall_put; [reflexivity | exact Hall].
Qed.

Lemma subStep_rest (table : TableConfig) (spin : Spin) (cb : bool) (subDt : R)
    (active : list nat) (w : World) :
  allAtRest (store w) -> allAtRest (store (subStep table spin cb subDt active w)).
Proof.
  intros Hk. unfold subStep. cbv zeta.
  apply (fold_left_invariant _ _ _ (fun w => allAtRest (store w)));
    [intros a ij _ Ha; now apply collideStep_rest|].
  apply (fold_left_invariant _ _ _ (fun w => allAtRest (store w))).
  { intros a i _ Ha. simpl. apply Forall_modify; [|exact Ha].
    intros b. apply wallBall_rest. }
  apply (fold_left_invariant _ _ _ (fun w => allAtRest (store w)));
    [intros a i _ Ha; now apply pocketStep_rest|].
  apply (fold_left_invariant _ _ _ (fun w => allAtRest (store w))); [|exact Hk].
  intros a i _ Ha. simpl. apply Forall_modify; [|exact Ha].
  intros b Hb. now rewrite integrateBall_rest.
Qed.

(** Rest is kept by any number of sub-steps, and by the friction phase. *)
Lemma iter_subStep_rest (table : TableConfig) (spin : Spin) (cb : bool) (subDt : R)
    (active : list nat) (n : nat) (w : World) :
  allAtRest (store w) ->
  allAtRest (store (Nat.iter n (subStep table spin cb subDt active) w)).
Proof.
  intros Hrest. induction n as [|n IH]; simpl; [exact Hrest|].
  now apply subStep_rest.
Qed.

Lemma friction_rest (spin : Spin) (timeScale : R) (l : list Ball) :
  allAtRest l -> allAtRest (map (frictionBall spin timeScale) l).
Proof.
  unfold allAtRest. intros H. apply Forall_map. eapply Forall_impl; [|exact H].
  intros b Hb. now apply frictionBall_rest.
Qed.

(** X2. A table at rest stays at rest: when every ball has zero velocity,
    every ball has zero velocity after [updatePhysics], whatever the table, the
    spin, the time step and the overlaps between the balls. *)
Theorem updatePhysics_rest_stays_rest :
  forall (balls : list Ball) (table : TableConfig) (spin : Spin) (dt : R) (cb : bool),
    allAtRest balls -> allAtRest (store (updatePhysics balls table spin dt cb)).
Proof.
  intros balls table spin dt cb Hrest. unfold updatePhysics. cbv zeta.
  unfold on_store. cbn [store].
  apply friction_rest.
  apply iter_subStep_rest.
  exact Hrest.
Qed.

Lemma updatePhysics_rest_stays_rest_witness :
  allAtRest (store (updatePhysics [cueAtBreak; yellowOnSpot; touchingRed] TABLE_CONFIG
                      (mkVec 1 1) (/ 60) true)).
Proof.
  apply updatePhysics_rest_stays_rest.
  repeat constructor.
Defined.

(** ** Physics engine: cushions, contacts and friction *)

(** X3. The wall phase is a hard clamp: on a table with room for the ball
    between its cushions, a ball in play that is not in a pocket mouth has its
    centre within the cushions after the phase, wherever it was before. *)
Theorem wallBall_clamps :
  forall (table : TableConfig) (spin : Spin) (b : Ball),
    potted b = false ->
    inPocketZone (pockets table) (pocketRadius table) (pos b) = false ->
    cushionWidth table + radius b <= width table - cushionWidth table - radius b ->
    cushionWidth table + radius b <= height table - cushionWidth table - radius b ->
    withinCushions table (radius b) (pos (wallBall table spin b)).
Proof.
  intros table spin b Hp Hz Hw Hh. unfold wallBall, withinCushions. rewrite Hp, Hz.
  cbv zeta.
  cmp (x (pos b)) (cushionWidth table + radius b);
    [|cmp (width table - cushionWidth table - radius b) (x (pos b))];
    (cmp (y (pos b)) (cushionWidth table + radius b);
     [|cmp (height table - cushionWidth table - radius b) (y (pos b))]);
    cbn [pos set_vel set_pos x y]; lra.
Qed.

Lemma wallBall_clamps_witness :
  withinCushions TABLE_CONFIG BALL_RADIUS
    (pos (wallBall TABLE_CONFIG (mkVec 0 0)
            (mkBall 0 CUE (mkVec 400 10) (mkVec 0 (-3)) BALL_RADIUS "#fefefe" 1 false 0))).
Proof.
  apply (wallBall_clamps TABLE_CONFIG (mkVec 0 0)
           (mkBall 0 CUE (mkVec 400 10) (mkVec 0 (-3)) BALL_RADIUS "#fefefe" 1 false 0)).
  - reflexivity.
  - unfold pockets, TABLE_CONFIG, TABLE_WIDTH, TABLE_HEIGHT. cbn [inPocketZone pos
      cushionWidth width height pocketRadius].
    repeat match goal with
           | |- context [Rltb (vecDist ?a ?b) ?r] =>
               let H := fresh in
               destruct (Rltb (vecDist a b) r) eqn:H;
               [ exfalso; apply Rltb_true, vecDist_lt_sqr in H; simpl in H; nra | ]
           end.
    reflexivity.
  - unfold TABLE_CONFIG, TABLE_WIDTH, BALL_RADIUS. simpl. lra.
  - unfold TABLE_CONFIG, TABLE_HEIGHT, BALL_RADIUS. simpl. lra.
Defined.

(** The positions that a contact leaves do not depend on the impulse. *)
Lemma collide_positions (spin : Spin) (b1 b2 : Ball) :
  vecDist (pos b1) (pos b2) < radius b1 + radius b2 ->
  let n := vecNorm (vecSub (pos b1) (pos b2)) in
  let correctionMag :=
    Rmax 0 (radius b1 + radius b2 - vecDist (pos b1) (pos b2) - PENETRATION_SLOP) in
  pos (fst (fst (collide spin b1 b2)))
  = (if Rltb 0 correctionMag
     then vecAdd (pos b1) (vecMult n (correctionMag * 0.5)) else pos b1) /\
  pos (snd (fst (collide spin b1 b2)))
  = (if Rltb 0 correctionMag
     then vecSub (pos b2) (vecMult n (correctionMag * 0.5)) else pos b2).
Proof.
  intros Hd n correctionMag. unfold collide. cbv zeta.
  apply Rltb_true in Hd. rewrite Hd. fold n. fold correctionMag.
  set (c1 := if Rltb 0 correctionMag then set_pos b1 _ else b1).
  set (c2 := if Rltb 0 correctionMag then set_pos b2 _ else b2).
  assert (H1 : pos c1 = if Rltb 0 correctionMag
                        then vecAdd (pos b1) (vecMult n (correctionMag * 0.5)) else pos b1)
    by (unfold c1; destruct (Rltb 0 correctionMag); reflexivity).
  assert (H2 : pos c2 = if Rltb 0 correctionMag
                        then vecSub (pos b2) (vecMult n (correctionMag * 0.5)) else pos b2)
    by (unfold c2; destruct (Rltb 0 correctionMag); reflexivity).
  rewrite <- H1, <- H2. clearbody c1 c2.
  repeat match goal with
         | |- context [if ?e then _ else _] => destruct e
         end; cbn [fst snd pos set_vel]; split; reflexivity.
Qed.

(** X4. Two overlapping balls whose centres differ are pushed apart along the
    line of their centres until they overlap by exactly the penetration slop:
    after the contact their centres are [r1 + r2 - 0.05] apart.  Balls that
    overlap by no more than the slop are not moved. *)
Theorem collide_separates :
  forall (spin : Spin) (b1 b2 : Ball),
    (0 < vecDist (pos b1) (pos b2) ->
     vecDist (pos b1) (pos b2) < radius b1 + radius b2 - PENETRATION_SLOP ->
     vecDist (pos (fst (fst (collide spin b1 b2)))) (pos (snd (fst (collide spin b1 b2))))
     = radius b1 + radius b2 - PENETRATION_SLOP) /\
    (radius b1 + radius b2 - PENETRATION_SLOP <= vecDist (pos b1) (pos b2) ->
     pos (fst (fst (collide spin b1 b2))) = pos b1 /\
     pos (snd (fst (collide spin b1 b2))) = pos b2).
Proof.
  intros spin b1 b2. split.
  - intros Hpos Hover.
    assert (Hlt : vecDist (pos b1) (pos b2) < radius b1 + radius b2)
      by (unfold PENETRATION_SLOP in Hover; lra).
    destruct (collide_positions spin b1 b2 Hlt) as [H1 H2]. cbv zeta in H1, H2.
    set (d := vecDist (pos b1) (pos b2)) in *.
    set (c := Rmax 0 (radius b1 + radius b2 - d - PENETRATION_SLOP)) in *.
    assert (Hc : c = radius b1 + radius b2 - d - PENETRATION_SLOP)
      by (unfold c; apply Rmax_right; lra).
    assert (Hcpos : Rltb 0 c = true) by (apply Rltb_true; lra).
    rewrite Hcpos in H1, H2. rewrite H1, H2.
    assert (Hnz : vecSub (pos b1) (pos b2) <> zeroVec).
    { intros E. unfold d, vecDist in Hpos. rewrite E, vecLen_zero in Hpos. lra. }
    rewrite (vecNorm_nonzero _ Hnz). fold (vecDist (pos b1) (pos b2)). fold d.
    unfold vecDist.
    replace (c * 0.5) with (c / 2) by lra.
    assert (E : vecSub (vecAdd (pos b1)
                          (vecMult (mkVec (x (vecSub (pos b1) (pos b2)) / d)
                                          (y (vecSub (pos b1) (pos b2)) / d)) (c / 2)))
                       (vecSub (pos b2)
                          (vecMult (mkVec (x (vecSub (pos b1) (pos b2)) / d)
                                          (y (vecSub (pos b1) (pos b2)) / d)) (c / 2)))
                = vecMult (vecSub (pos b1) (pos b2)) (1 + c / d)).
    { unfold vecSub, vecAdd, vecMult. cbn [x y]. f_equal; field; lra. }
    rewrite E, vecLen_scale.
    + fold (vecDist (pos b1) (pos b2)). fold d. rewrite Hc. field. lra.
    + assert (0 <= c / d) by (apply Rmult_le_pos; [lra | left; now apply Rinv_0_lt_compat]).
      lra.
  - intros Hfar.
    destruct (Rlt_dec (vecDist (pos b1) (pos b2)) (radius b1 + radius b2)) as [Hlt|Hge].
    + destruct (collide_positions spin b1 b2 Hlt) as [H1 H2]. cbv zeta in H1, H2.
      assert (Hc : Rltb 0 (Rmax 0 (radius b1 + radius b2 - vecDist (pos b1) (pos b2)
                                   - PENETRATION_SLOP)) = false).
      { apply Rltb_false. apply Rmax_lub; lra. }
      rewrite Hc in H1, H2. now split.
    + unfold collide. cbv zeta.
      assert (Hf : Rltb (vecDist (pos b1) (pos b2)) (radius b1 + radius b2) = false)
        by (apply Rltb_false; lra).
      rewrite Hf. now split.
Qed.

Lemma collide_separates_witness :
  vecDist (pos (fst (fst (collide (mkVec 0 0) rollingCueBall
                            (mkBall 9 RED (mkVec 160 230) zeroVec BALL_RADIUS "#dc2626" 1 false 1)))))
          (pos (snd (fst (collide (mkVec 0 0) rollingCueBall
                            (mkBall 9 RED (mkVec 160 230) zeroVec BALL_RADIUS "#dc2626" 1 false 1)))))
  = BALL_RADIUS + BALL_RADIUS - PENETRATION_SLOP.
Proof.
  assert (Hd : vecDist (mkVec 150 230) (mkVec 160 230) = 10).
  { unfold vecDist, vecSub, vecLen; simpl.
    replace ((150 - 160) * (150 - 160) + (230 - 230) * (230 - 230)) with (10 * 10) by ring.
    apply sqrt_square. lra. }
  apply (proj1 (collide_separates (mkVec 0 0) rollingCueBall
                  (mkBall 9 RED (mkVec 160 230) zeroVec BALL_RADIUS "#dc2626" 1 false 1))).
  - simpl. rewrite Hd. lra.
  - simpl. rewrite Hd. unfold BALL_RADIUS, PENETRATION_SLOP. lra.
Defined.

(** X5. A contact exchanges momentum and creates none: with no spin applied,
    or between two object balls, the sum of the two velocities is the same
    after the contact as before. *)
Theorem collide_conserves_momentum :
  forall (spin : Spin) (b1 b2 : Ball),
    spin = mkVec 0 0 \/ (type b1 <> CUE /\ type b2 <> CUE) ->
    vecAdd (vel (fst (fst (collide spin b1 b2)))) (vel (snd (fst (collide spin b1 b2))))
    = vecAdd (vel b1) (vel b2).
Proof.
  intros spin b1 b2 Hs. unfold collide. cbv zeta.
  destruct (Rltb (vecDist (pos b1) (pos b2)) (radius b1 + radius b2)); [|reflexivity].
  set (n := vecNorm (vecSub (pos b1) (pos b2))).
  set (c1 := if Rltb 0 _ then set_pos b1 _ else b1).
  set (c2 := if Rltb 0 _ then set_pos b2 _ else b2).
  assert (Hc1 : vel c1 = vel b1 /\ type c1 = type b1)
    by (unfold c1; destruct (Rltb 0 _); split; reflexivity).
  assert (Hc2 : vel c2 = vel b2 /\ type c2 = type b2)
    by (unfold c2; destruct (Rltb 0 _); split; reflexivity).
  clearbody c1 c2. destruct Hc1 as [Hv1 Ht1]. destruct Hc2 as [Hv2 Ht2].
  cbn [type set_vel]. rewrite Ht1, Ht2.
  assert (Hnospin : (BallType_eqb (type b1) CUE || BallType_eqb (type b2) CUE)
                    && (negb (Reqb (x spin) 0) || negb (Reqb (y spin) 0)) = false).
  { destruct Hs as [->|[H1 H2]].
    - cbn [x y]. rewrite Reqb_refl. apply andb_false_r.
    - apply BallType_eqb_neq in H1, H2. now rewrite H1, H2. }
  rewrite Hnospin.
  destruct (Rltb 0 _); cbn [fst snd vel set_vel]; rewrite Hv1, Hv2; [reflexivity|].
  unfold vecAdd, vecSub, vecMult. simpl. f_equal; ring.
Qed.

Lemma collide_conserves_momentum_witness :
  vecDist (pos cueAgainstRed) (pos touchingRed) < radius cueAgainstRed + radius touchingRed /\
  vecAdd (vel (fst (fst (collide (mkVec 0 0) cueAgainstRed touchingRed))))
         (vel (snd (fst (collide (mkVec 0 0) cueAgainstRed touchingRed))))
  = vecAdd (vel cueAgainstRed) (vel touchingRed).
Proof.
  split.
  - assert (Hs : vecSub (pos cueAgainstRed) (pos touchingRed) = mkVec (-18.46) 0)
      by (unfold vecSub; simpl; f_equal; lra).
    unfold vecDist, vecLen. rewrite Hs. cbn [x y].
    replace (-18.46 * -18.46 + 0 * 0) with (18.46 * 18.46) by lra.
    rewrite sqrt_square by lra. simpl. unfold BALL_RADIUS. lra.
  - apply collide_conserves_momentum. now left.
Defined.

(** X6. Friction brakes and does nothing else: for a time step that is not
    negative and a top spin of at most 1, the velocity after the friction
    phase is the velocity before scaled by a factor between 0 and 1; a ball is
    never sped up, turned or sent backwards. *)
Theorem frictionBall_brakes :
  forall (spin : Spin) (timeScale : R) (b : Ball),
    0 <= timeScale -> y spin <= 1 ->
    exists k : R, 0 <= k <= 1 /\ vel (frictionBall spin timeScale b) = vecMult (vel b) k.
Proof.
  intros spin ts b Hts Hy.
  assert (Hone : vecMult (vel b) 1 = vel b)
    by (unfold vecMult; destruct (vel b); simpl; f_equal; ring).
  assert (Hzero : vecMult (vel b) 0 = zeroVec)
    by (unfold vecMult, zeroVec; f_equal; ring).
  destruct (potted b) eqn:Hp.
  { exists 1. split; [lra|]. rewrite frictionBall_potted by exact Hp. now rewrite Hone. }
  destruct (Rlt_dec (vecLen (vel b)) STOP_THRESHOLD) as [Hs|Hs].
  { exists 0. split; [lra|]. rewrite frictionBall_stop by assumption. now rewrite Hzero. }
  apply Rnot_lt_le in Hs.
  assert (Hlen : 0 < vecLen (vel b)) by (unfold STOP_THRESHOLD in Hs; lra).
  assert (Hnz : vel b <> zeroVec) by (intros E; rewrite E, vecLen_zero in Hlen; lra).
  assert (Hd : 0 <= effectiveDrag spin ts b).
  { unfold effectiveDrag, ROLLING_RESISTANCE. destruct (BallType_eqb _ _); nra. }
  set (newSpeed := Rmax 0 (vecLen (vel b) - effectiveDrag spin ts b)).
  assert (H0 : 0 <= newSpeed) by apply Rmax_l.
  assert (H1 : newSpeed <= vecLen (vel b)) by (apply Rmax_lub; lra).
  assert (Hscale : forall s, vecMult (vecNorm (vel b)) s = vecMult (vel b) (s / vecLen (vel b))).
  { intros s. rewrite (vecNorm_nonzero _ Hnz). unfold vecMult. simpl. f_equal; field; lra. }
  assert (Hk : forall s, 0 <= s <= vecLen (vel b) -> 0 <= s / vecLen (vel b) <= 1).
  { intros s [Hs0 Hs1]. split.
    - apply Rmult_le_pos; [exact Hs0 | left; now apply Rinv_0_lt_compat].
    - apply Rmult_le_reg_r with (vecLen (vel b)); [exact Hlen|].
      unfold Rdiv. rewrite Rmult_assoc, Rinv_l by lra. lra. }
  unfold frictionBall. rewrite Hp. cbv zeta.
  assert (Hns : Rltb (vecLen (vel b)) STOP_THRESHOLD = false) by (apply Rltb_false; lra).
  rewrite Hns. fold newSpeed.
  destruct (Rltb newSpeed (STOP_THRESHOLD * 2)); cbn [vel set_vel]; rewrite Hscale.
  - exists (newSpeed * 0.90 / vecLen (vel b)). split; [apply Hk; lra | reflexivity].
  - exists (newSpeed / vecLen (vel b)). split; [apply Hk; lra | reflexivity].
Qed.

Lemma frictionBall_brakes_witness :
  exists k : R, 0 <= k <= 1 /\
    vel (frictionBall (mkVec 0 (-1)) 1 rollingCueBall) = vecMult (vel rollingCueBall) k.
Proof.
  apply frictionBall_brakes; simpl; lra.
Defined.

(** ** Rule engine: what the end of a turn does to the scores and the turn *)

Ltac game_proj :=
  cbn [ballsRef turnStatusRef currentBreakRef gameState gameMode currentPlayer scoreP1
       scoreP2 spin_ targetState isFreeBall ballInHand showColorSelection
       foulDecisionNeeded offerFreeBall touchingBall isClearance foulNotification
       set_ballsRef set_currentBreakRef setGameState setCurrentPlayer setScoreP1 setScoreP2
       setSpin setTargetState setIsFreeBall setBallInHand setShowColorSelection
       setFoulDecisionNeeded setOfferFreeBall setIsClearance setFoulNotification].

(** What [switchTurn] writes, and what it leaves alone. *)
Lemma switchTurn_frame (s : Game) :
  currentBreakRef (switchTurn s) = 0%Z /\
  isFreeBall (switchTurn s) = false /\
  spin_ (switchTurn s) = zeroVec /\
  currentPlayer (switchTurn s) = opponent (gameMode s) (currentPlayer s) /\
  scoreP1 (switchTurn s) = scoreP1 s /\
  scoreP2 (switchTurn s) = scoreP2 s /\
  ballsRef (switchTurn s) = ballsRef s /\
  gameMode (switchTurn s) = gameMode s /\
  ballInHand (switchTurn s) = ballInHand s /\
  gameState (switchTurn s) = gameState s.
Proof.
  unfold switchTurn, opponent. cbv zeta. game_proj.
  destruct (redsExist (ballsRef s)); [|destruct (sortedOnTable (ballsRef s))];
    game_proj; repeat split; reflexivity.
Qed.

Lemma foulResolution_steps (s0 : Game) (penalty : Z) (msg : string) (s : Game) :
  foulResolution s0 penalty msg s
  = let s' := switchTurn (respotPotted (pottedBall (turnStatusRef s0))
                           (cueBackOnTable (chargeFoul (currentPlayer s0) penalty msg s))) in
    setFoulDecisionNeeded true (setOfferFreeBall (snookeredAfterFoul (ballInHand s0) s') s').
Proof. reflexivity. Qed.

Lemma chargeFoul_frame (p : Player) (penalty : Z) (msg : string) (s : Game) :
  let s' := chargeFoul p penalty msg s in
  scoreP1 s' = (match p with ONE => scoreP1 s | _ => scoreP1 s + penalty end)%Z /\
  scoreP2 s' = (match p with ONE => scoreP2 s + penalty | _ => scoreP2 s end)%Z /\
  ballsRef s' = ballsRef s /\ gameMode s' = gameMode s /\
  currentPlayer s' = currentPlayer s /\ gameState s' = gameState s /\
  ballInHand s' = ballInHand s.
Proof. destruct p; repeat split; reflexivity. Qed.

Lemma cueBackOnTable_frame (s : Game) :
  let s' := cueBackOnTable s in
  scoreP1 s' = scoreP1 s /\ scoreP2 s' = scoreP2 s /\ gameMode s' = gameMode s /\
  currentPlayer s' = currentPlayer s /\ gameState s' = gameState s.
Proof.
  unfold cueBackOnTable.
  destruct (findIndex _ _) as [i|]; [|repeat split; reflexivity].
  destruct (nth_error _ _) as [c|]; [|repeat split; reflexivity].
  destruct (potted c); repeat split; reflexivity.
Qed.

Lemma respotPotted_frame (pb : option Ball) (s : Game) :
  let s' := respotPotted pb s in
  scoreP1 s' = scoreP1 s /\ scoreP2 s' = scoreP2 s /\ gameMode s' = gameMode s /\
  currentPlayer s' = currentPlayer s /\ gameState s' = gameState s /\
  ballInHand s' = ballInHand s.
Proof.
  unfold respotPotted. destruct pb as [pb|]; [|repeat split; reflexivity].
  destruct (negb _); repeat split; reflexivity.
Qed.

(** The foul branch writes the penalty to one score, switches the turn and
    touches neither the mode nor the state of the game. *)
Lemma foulResolution_frame (s0 : Game) (penalty : Z) (msg : string) (s : Game) :
  let s' := foulResolution s0 penalty msg s in
  currentBreakRef s' = 0%Z /\
  isFreeBall s' = false /\
  spin_ s' = zeroVec /\
  currentPlayer s' = opponent (gameMode s) (currentPlayer s) /\
  scoreP1 s' = (match currentPlayer s0 with ONE => scoreP1 s | _ => scoreP1 s + penalty end)%Z /\
  scoreP2 s' = (match currentPlayer s0 with ONE => scoreP2 s + penalty | _ => scoreP2 s end)%Z /\
  foulDecisionNeeded s' = true /\
  gameState s' = gameState s.
Proof.
  intros s'. subst s'. rewrite foulResolution_steps. cbv zeta.
  set (s1 := chargeFoul (currentPlayer s0) penalty msg s).
  set (s2 := cueBackOnTable s1).
  set (s3 := respotPotted (pottedBall (turnStatusRef s0)) s2).
  destruct (chargeFoul_frame (currentPlayer s0) penalty msg s) as (A1 & A2 & _ & A4 & A5 & A6 & _).
  destruct (cueBackOnTable_frame s1) as (B1 & B2 & B4 & B5 & B6).
  destruct (respotPotted_frame (pottedBall (turnStatusRef s0)) s2) as (C1 & C2 & C4 & C5 & C6 & _).
  destruct (switchTurn_frame s3) as (Hb & Hf & Hs & Hp & H1 & H2 & _ & _ & _ & Hg).
  fold s1 in A1, A2, A4, A5, A6. fold s2 in B1, B2, B4, B5, B6.
  fold s3 in C1, C2, C4, C5, C6.
  clearbody s1 s2 s3.
  game_proj. rewrite Hb, Hf, Hs, Hp, H1, H2, Hg.
  rewrite C1, C2, C4, C5, C6, B1, B2, B4, B5, B6, A1, A2, A4, A5, A6.
  repeat split; reflexivity.
Qed.

Lemma getBallValue_range (t : BallType) : (0 <= getBallValue t <= 7)%Z.
Proof. destruct t; simpl; lia. Qed.

Lemma foulPenalty_range (st : TurnStatus) (target : TargetState) (touching : option Ball)
    (k : FoulKind) :
  (4 <= foulPenalty st target touching k <= 7)%Z.
Proof.
  unfold foulPenalty.
  assert (H := getBallValue_range).
  assert (Ht : (targetValue target <= 7)%Z).
  { destruct target as [|t]; simpl; [lia|]. destruct t; simpl; lia. }
  assert (Hi : (involvedValue st touching k <= 7)%Z).
  { destruct k; simpl.
    - destruct touching; [apply H | lia].
    - destruct (firstHitType st); [apply H | lia].
    - lia.
    - destruct (firstHitType st); [apply H | lia].
    - destruct (pottedBall st); [apply H | lia]. }
  lia.
Qed.

(** X7. A foul costs between 4 and 7 points, and they go to the other side:
    when the shot commits a foul, [handleTurnEnd] adds the penalty to the
    score of the player who was not at the table, leaves the striker's score
    as it was, resets the break to 0, passes the turn to the opponent and
    asks for the foul decision. *)
Theorem handleTurnEnd_foul_accounting :
  forall (s : Game) (k : FoulKind),
    firstMatchingFoul (turnStatusRef s) (targetState s) (isFreeBall s) = Some k ->
    let penalty := foulPenalty (turnStatusRef s) (targetState s) (touchingBall s) k in
    (4 <= penalty <= 7)%Z /\
    opponentScore (currentPlayer s) (handleTurnEnd s)
    = (opponentScore (currentPlayer s) s + penalty)%Z /\
    strikerScore (currentPlayer s) (handleTurnEnd s) = strikerScore (currentPlayer s) s /\
    currentBreakRef (handleTurnEnd s) = 0%Z /\
    currentPlayer (handleTurnEnd s) = opponent (gameMode s) (currentPlayer s) /\
    foulDecisionNeeded (handleTurnEnd s) = true.
Proof.
  intros s k Hk penalty.
  pose proof (foulCheck_first_match (turnStatusRef s) (targetState s) (isFreeBall s)
                (touchingBall s)) as H.
  rewrite Hk in H.
  assert (E : handleTurnEnd s
              = foulResolution s penalty (foulMessage (turnStatusRef s) (targetState s) k)
                  (setSpin zeroVec s)).
  { unfold handleTurnEnd. rewrite H. reflexivity. }
  rewrite E.
  pose proof (foulResolution_frame s penalty
                (foulMessage (turnStatusRef s) (targetState s) k) (setSpin zeroVec s)) as F.
  cbv zeta in F. destruct F as (Hb & _ & _ & Hp & H1 & H2 & Hd & _).
  cbn [gameMode currentPlayer scoreP1 scoreP2 setSpin] in Hp, H1, H2.
  split; [apply foulPenalty_range|].
  unfold opponentScore, strikerScore.
  rewrite Hb, Hp, Hd.
  destruct (currentPlayer s) eqn:Ec; rewrite ?H1, ?H2; repeat split; reflexivity.
Qed.

Lemma handleTurnEnd_foul_accounting_witness :
  opponentScore AI (handleTurnEnd inOffShot) = 7%Z /\
  strikerScore AI (handleTurnEnd inOffShot) = 12%Z /\
  currentPlayer (handleTurnEnd inOffShot) = ONE.
Proof.
  destruct (handleTurnEnd_foul_accounting inOffShot CueBallPotted eq_refl)
    as (_ & Ho & Hs & _ & Hp & _).
  split; [|split].
  - etransitivity; [exact Ho | reflexivity].
  - etransitivity; [exact Hs | reflexivity].
  - etransitivity; [exact Hp | reflexivity].
Defined.

(** What the pot branch writes: the points, to the break and to one score. *)
Lemma potResolution_frame (s0 : Game) (pb : Ball) (s : Game) :
  let s' := fst (potResolution s0 pb s) in
  currentBreakRef s' = (currentBreakRef s + potPoints s0 pb)%Z /\
  scoreP1 s' = (match currentPlayer s0 with
                | ONE => scoreP1 s + potPoints s0 pb | _ => scoreP1 s end)%Z /\
  scoreP2 s' = (match currentPlayer s0 with
                | ONE => scoreP2 s | _ => scoreP2 s + potPoints s0 pb end)%Z /\
  currentPlayer s' = currentPlayer s /\
  spin_ s' = spin_ s /\
  isFreeBall s' = (if isFreeBall s0 then false else isFreeBall s) /\
  foulDecisionNeeded s' = foulDecisionNeeded s.
Proof.
  unfold potResolution, potPoints. cbv zeta.
  set (points := if isFreeBall s0 && negb (BallType_eqb (type pb) RED) then 1%Z else value pb).
  clearbody points.
  destruct (currentPlayer s0); game_proj.
  all: destruct (isFreeBall s0); [game_proj; repeat split; reflexivity|].
  all: destruct (BallType_eqb (type pb) RED); [game_proj; repeat split; reflexivity|].
  all: destruct (targetState s0) as [|t];
    [destruct (0 <? _)%nat; game_proj; repeat split; reflexivity|].
  all: destruct (0 <? _)%nat; [game_proj; repeat split; reflexivity|].
  all: destruct (BallType_eqb (type pb) t); [|game_proj; repeat split; reflexivity].
  all: destruct (sortedOnTable (ballsRef s)); game_proj; repeat split; reflexivity.
Qed.

(** X8. A legal pot scores for the striker only: after a shot that pots a
    ball without foul, [handleTurnEnd] adds the points of the pot (the value
    of the ball, or 1 for a colour potted as a free ball) to the striker's
    score and to the running break, leaves the other score alone, and the
    striker stays at the table. *)
Theorem handleTurnEnd_pot_accounting :
  forall (s : Game) (pb : Ball),
    legitimatePot s pb ->
    strikerScore (currentPlayer s) (handleTurnEnd s)
    = (strikerScore (currentPlayer s) s + potPoints s pb)%Z /\
    opponentScore (currentPlayer s) (handleTurnEnd s) = opponentScore (currentPlayer s) s /\
    currentBreakRef (handleTurnEnd s) = (currentBreakRef s + potPoints s pb)%Z /\
    currentPlayer (handleTurnEnd s) = currentPlayer s.
Proof.
  intros s pb Hl. rewrite (handleTurnEnd_legitimatePot s pb Hl).
  pose proof (potResolution_frame s pb (setSpin zeroVec s)) as F.
  cbv zeta in F. destruct F as (Hb & H1 & H2 & Hp & _).
  cbn [currentBreakRef currentPlayer scoreP1 scoreP2 setSpin] in Hb, H1, H2, Hp.
  unfold strikerScore, opponentScore. rewrite Hb, Hp.
  destruct (currentPlayer s); rewrite ?H1, ?H2; repeat split; reflexivity.
Qed.

Lemma handleTurnEnd_pot_accounting_witness :
  strikerScore ONE (handleTurnEnd freeBallShot) = 1%Z /\
  currentPlayer (handleTurnEnd freeBallShot) = ONE.
Proof.
  assert (Hl : legitimatePot freeBallShot pottedBrown) by (repeat split; reflexivity).
  destruct (handleTurnEnd_pot_accounting freeBallShot pottedBrown Hl) as (Hs & _ & _ & Hp).
  split.
  - etransitivity; [exact Hs | reflexivity].
  - etransitivity; [exact Hp | reflexivity].
Defined.

(** X9. A free ball lasts one shot and spin does not carry over: however
    the shot ended, [handleTurnEnd] leaves the free-ball flag off and the
    spin at zero. *)
Theorem handleTurnEnd_clears_free_ball_and_spin :
  forall s : Game,
    isFreeBall (handleTurnEnd s) = false /\ spin_ (handleTurnEnd s) = zeroVec.
Proof.
  intros s. unfold handleTurnEnd.
  destruct (foulCheck (turnStatusRef s) (targetState s) (isFreeBall s) (touchingBall s))
    as [[isFoul penalty] msg] eqn:Ef.
  destruct isFoul.
  { destruct (foulResolution_frame s penalty msg (setSpin zeroVec s)) as (_ & Hf & Hs & _).
    now split. }
  assert (Hsw : forall g, isFreeBall (switchTurn g) = false /\ spin_ (switchTurn g) = zeroVec).
  { intros g. destruct (switchTurn_frame g) as (_ & Hf & Hs & _). now split. }
  destruct (pottedBall (turnStatusRef s)) as [pb|] eqn:Eb; [|apply Hsw].
  destruct (statusPotted (turnStatusRef s)) eqn:Ep; [|apply Hsw].
  pose proof (potResolution_frame s pb (setSpin zeroVec s)) as F. cbv zeta in F.
  destruct F as (_ & _ & _ & _ & Hs & Hf & _).
  destruct (potResolution s pb (setSpin zeroVec s)) as [s' c] eqn:Er.
  cbn [fst] in Hs, Hf. destruct c; [|apply Hsw].
  rewrite Hs, Hf. cbn [spin_ isFreeBall setSpin]. split; [|reflexivity].
  destruct (isFreeBall s); reflexivity.
Qed.

(** ** Re-spotting: what [respawnBall] leaves alone *)

Lemma find_spot_designated (t : BallType) (sp : BallType * Vector2) :
  find (fun s : BallType * Vector2 => BallType_eqb (fst s) t) spots = Some sp ->
  designatedSpot t <> None.
Proof. destruct t; simpl; intros H; discriminate. Qed.

Lemma modify_id (i : nat) (l : list Ball) : modify i (fun u : Ball => u) l = l.
Proof.
  revert i; induction l as [|a l IH]; intros [|i]; simpl; try reflexivity.
  now rewrite IH.
Qed.

(** The ball of every index after [respawnBall]: the ball that was there, or,
    for the ball that is re-spotted, that ball on the table and at rest. *)
Lemma respawnBall_at (k : nat) (balls : list Ball) (i : nat) (b : Ball) :
  nth_error balls i = Some b ->
  exists b', nth_error (respawnBall k balls) i = Some b' /\
    sameBall b b' /\
    (b' = b \/
     (id b = k /\ potted b' = false /\ vel b' = zeroVec /\
      (designatedSpot (type b) = None -> pos b' = pos b))).
Proof.
  intros Hi. unfold respawnBall.
  destruct (findIndex (fun c => (id c =? k)%nat) balls) as [j|] eqn:Ef.
  2:{ exists b. repeat split; auto. }
  destruct (findIndex_some _ _ _ Ef) as [c [Hj Hid]]. apply Nat.eqb_eq in Hid.
  cbv zeta.
  set (f := fun b0 : Ball => set_vel (set_potted b0 false) zeroVec).
  rewrite (nth_error_modify_same j f balls c Hj).
  assert (Hres : forall g : Ball -> Ball,
             (forall u, sameBall u (g u) /\ potted (g u) = potted u /\ vel (g u) = vel u /\
                        (designatedSpot (type c) = None -> pos (g u) = pos u)) ->
             exists b', nth_error (modify j g (modify j f balls)) i = Some b' /\
               sameBall b b' /\
               (b' = b \/
                (id b = k /\ potted b' = false /\ vel b' = zeroVec /\
                 (designatedSpot (type b) = None -> pos b' = pos b)))).
  { intros g Hg. rewrite modify_modify.
    destruct (Nat.eq_dec j i) as [->|Hne].
    - rewrite Hi in Hj. inversion Hj; subst c.
      rewrite (nth_error_modify_same i _ balls b Hi).
      destruct (Hg (f b)) as (Hs & Hp & Hv & Hq).
      exists (g (f b)). split; [reflexivity|]. split.
      + destruct Hs as (s1 & s2 & s3 & s4 & s5 & s6). unfold sameBall.
        rewrite s1, s2, s3, s4, s5, s6. repeat split; reflexivity.
      + right. split; [exact Hid|]. rewrite Hp, Hv. repeat split; try reflexivity.
        intros Hd. now rewrite (Hq Hd).
    - rewrite nth_error_modify_other by exact Hne.
      exists b. split; [exact Hi|]. split; [apply sameBall_refl | now left]. }
  assert (Hid_g : forall u : Ball,
             sameBall u u /\ potted u = potted u /\ vel u = vel u /\
             (designatedSpot (type c) = None -> pos u = pos u)).
  { intros u. repeat split; reflexivity. }
  cbn [type id f set_vel set_potted].
  destruct (find (fun s : BallType * Vector2 => BallType_eqb (fst s) (type c)) spots)
    as [sp|] eqn:Es.
  2:{ destruct (Hres (fun u => u) Hid_g) as [b' Hb'].
      rewrite modify_id in Hb'. exists b'. exact Hb'. }
  pose proof (find_spot_designated _ _ Es) as Hcol.
  assert (Hset : forall q u,
             sameBall u (set_pos u q) /\ potted (set_pos u q) = potted u /\
             vel (set_pos u q) = vel u /\
             (designatedSpot (type c) = None -> pos (set_pos u q) = pos u)).
  { intros q u. repeat split; try reflexivity. intros Hd. contradiction. }
  destruct (negb _); [apply (Hres (fun u => set_pos u (snd sp))), Hset|].
  match goal with
  | |- context [match find ?p spots with _ => _ end] => destruct (find p spots) as [spot|]
  end.
  - apply (Hres (fun u => set_pos u (snd spot))), Hset.
  - apply (Hres (fun u => set_pos u overflowSpot)), Hset.
Qed.

(** X10. [respawnBall] touches one ball only: the table keeps its length,
    every ball whose id is not the one asked for is exactly as it was, a ball
    on the table is never taken off it, and when no ball carries the id the
    table is returned unchanged. *)
Theorem respawnBall_touches_one_ball :
  forall (k : nat) (balls : list Ball),
    List.length (respawnBall k balls) = List.length balls /\
    (forall i b, nth_error balls i = Some b -> id b <> k ->
                 nth_error (respawnBall k balls) i = Some b) /\
    (forall i b, nth_error balls i = Some b -> potted b = false ->
                 exists b', nth_error (respawnBall k balls) i = Some b' /\
                            sameBall b b' /\ potted b' = false) /\
    ((forall b, In b balls -> id b <> k) -> respawnBall k balls = balls).
Proof.
  intros k balls. split; [|split; [|split]].
  - unfold respawnBall. destruct (findIndex _ balls) as [j|]; [|reflexivity].
    cbv zeta. destruct (nth_error _ j) as [c|]; [|apply store_length_modify].
    destruct (find _ spots) as [sp|]; [|apply store_length_modify].
    destruct (negb _); [now rewrite !store_length_modify|].
    destruct (find _ spots); now rewrite !store_length_modify.
  - intros i b Hi Hne. destruct (respawnBall_at k balls i b Hi) as (b' & Hb' & _ & [->|H]).
    + exact Hb'.
    + destruct H as [H _]. contradiction.
  - intros i b Hi Hp. destruct (respawnBall_at k balls i b Hi) as (b' & Hb' & Hs & [->|H]).
    + exists b. repeat split; auto.
    + exists b'. split; [exact Hb'|]. split; [exact Hs | apply H].
  - intros Hno. unfold respawnBall.
    destruct (findIndex _ balls) as [j|] eqn:Ef; [|reflexivity].
    destruct (findIndex_some _ _ _ Ef) as [c [Hj Hid]]. apply Nat.eqb_eq in Hid.
    exfalso. apply (Hno c); [|exact Hid]. eapply nth_error_In; eassumption.
Qed.

Lemma respawnBall_touches_one_ball_witness :
  nth_error (respawnBall 3 freeBallTable) 1 = Some yellowOnSpot.
Proof.
  apply (proj1 (proj2 (respawnBall_touches_one_ball 3 freeBallTable)) 1%nat yellowOnSpot).
  - reflexivity.
  - simpl. lia.
Defined.

(** ** The cue ball after a foul *)

Lemma cueBackOnTable_potted (s : Game) (i : nat) (c : Ball) :
  cueBallAt (ballsRef s) i c -> potted c = true ->
  ballInHand (cueBackOnTable s) = true /\
  ballsRef (cueBackOnTable s)
  = modify i (fun b => set_pos (set_vel (set_potted b false) zeroVec) (mkVec 140 220))
           (ballsRef s).
Proof.
  intros [Hf Hn] Hp. unfold cueBackOnTable. rewrite Hf, Hn, Hp. split; reflexivity.
Qed.

Lemma cueBackOnTable_on_table (s : Game) (i : nat) (c : Ball) :
  cueBallAt (ballsRef s) i c -> potted c = false -> cueBackOnTable s = s.
Proof.
  intros [Hf Hn] Hp. unfold cueBackOnTable. now rewrite Hf, Hn, Hp.
Qed.

Lemma spot_140_220_inTheD : inTheD (mkVec 140 220).
Proof.
  unfold inTheD, BAULK_X, CENTER_Y, D_RADIUS, vecDist, vecSub, vecLen. cbn [x y]. split; [lra|].
  replace 60 with (sqrt (60 * 60)) by (apply sqrt_square; lra).
  apply sqrt_le_1_alt. lra.
Qed.

(** X11. After an in-off the cue ball comes back in hand, inside the D: when
    the shot is a foul and the cue ball lies potted, [handleTurnEnd] puts it
    back on the table at rest at (140, 220), a point of the D, and gives ball
    in hand; when the cue ball is still on the table it is not given. *)
Theorem handleTurnEnd_returns_cue_ball :
  forall (s : Game) (k : FoulKind) (i : nat) (c : Ball),
    firstMatchingFoul (turnStatusRef s) (targetState s) (isFreeBall s) = Some k ->
    cueBallAt (ballsRef s) i c ->
    (potted c = true ->
       ballInHand (handleTurnEnd s) = true /\
       exists c', nth_error (ballsRef (handleTurnEnd s)) i = Some c' /\
                  sameBall c c' /\ potted c' = false /\ vel c' = zeroVec /\
                  pos c' = mkVec 140 220 /\ inTheD (pos c')) /\
    (potted c = false -> ballInHand (handleTurnEnd s) = ballInHand s).
Proof.
  intros s k i c Hk Hc.
  pose proof (foulCheck_first_match (turnStatusRef s) (targetState s) (isFreeBall s)
                (touchingBall s)) as H.
  rewrite Hk in H.
  assert (E : handleTurnEnd s
              = foulResolution s
                  (foulPenalty (turnStatusRef s) (targetState s) (touchingBall s) k)
                  (foulMessage (turnStatusRef s) (targetState s) k) (setSpin zeroVec s)).
  { unfold handleTurnEnd. rewrite H. reflexivity. }
  rewrite E, foulResolution_steps. cbv zeta.
  cbn [ballInHand ballsRef setFoulDecisionNeeded setOfferFreeBall].
  set (s1 := chargeFoul _ _ _ _).
  assert (Hs1 : ballsRef s1 = ballsRef s /\ ballInHand s1 = ballInHand s).
  { destruct (chargeFoul_frame (currentPlayer s)
                (foulPenalty (turnStatusRef s) (targetState s) (touchingBall s) k)
                (foulMessage (turnStatusRef s) (targetState s) k) (setSpin zeroVec s))
      as (_ & _ & Hb & _ & _ & _ & Hh). fold s1 in Hb, Hh. now split. }
  destruct Hs1 as [Hb1 Hh1]. clearbody s1.
  set (s2 := cueBackOnTable s1).
  set (s3 := respotPotted (pottedBall (turnStatusRef s)) s2).
  destruct (switchTurn_frame s3) as (_ & _ & _ & _ & _ & _ & Hb4 & _ & Hh4 & _).
  rewrite Hb4, Hh4.
  destruct (respotPotted_frame (pottedBall (turnStatusRef s)) s2)
    as (_ & _ & _ & _ & _ & Hh3). fold s3 in Hh3. rewrite Hh3.
  rewrite <- Hb1 in Hc.
  split.
  - intros Hp. destruct (cueBackOnTable_potted s1 i c Hc Hp) as [Hh2 Hb2].
    fold s2 in Hh2, Hb2. split; [exact Hh2|].
    set (c1 := set_pos (set_vel (set_potted c false) zeroVec) (mkVec 140 220)).
    assert (Hn2 : nth_error (ballsRef s2) i = Some c1).
    { rewrite Hb2.
      apply (nth_error_modify_same i
               (fun b => set_pos (set_vel (set_potted b false) zeroVec) (mkVec 140 220))
               (ballsRef s1) c).
      apply Hc. }
    assert (Htype : type c = CUE).
    { destruct Hc as [Hf Hn]. destruct (findIndex_some _ _ _ Hf) as [c0 [Hn0 Ht]].
      rewrite Hn in Hn0. inversion Hn0; subst c0.
      now apply BallType_eqb_eq. }
    assert (Hkeep : forall balls, nth_error balls i = Some c1 ->
              forall n, exists c', nth_error (respawnBall n balls) i = Some c' /\
                sameBall c c' /\ potted c' = false /\ vel c' = zeroVec /\
                pos c' = mkVec 140 220 /\ inTheD (pos c')).
    { intros balls Hn n.
      destruct (respawnBall_at n balls i c1 Hn) as (c' & Hc' & Hs & Hor).
      exists c'. split; [exact Hc'|].
      assert (Hpos : potted c' = false /\ vel c' = zeroVec /\ pos c' = mkVec 140 220).
      { destruct Hor as [->|(_ & Hp' & Hv' & Hq)]; [repeat split; reflexivity|].
        repeat split; [exact Hp' | exact Hv' |].
        rewrite Hq; [reflexivity|]. unfold c1. cbn [type set_pos set_vel set_potted].
        now rewrite Htype. }
      destruct Hpos as (Hp' & Hv' & Hq).
      split; [exact Hs|]. repeat split; try assumption.
      all: rewrite Hq; apply spot_140_220_inTheD. }
    unfold s3, respotPotted.
    destruct (pottedBall (turnStatusRef s)) as [pb|].
    + destruct (negb _); cbn [ballsRef set_ballsRef].
      * apply Hkeep, Hn2.
      * exists c1. split; [exact Hn2|]. repeat split; try reflexivity;
          apply spot_140_220_inTheD.
    + exists c1. split; [exact Hn2|]. repeat split; try reflexivity;
        apply spot_140_220_inTheD.
  - intros Hp. unfold s2. rewrite (cueBackOnTable_on_table s1 i c Hc Hp). exact Hh1.
Qed.

Lemma handleTurnEnd_returns_cue_ball_witness :
  ballInHand (handleTurnEnd inOffShot) = true.
Proof.
  apply (proj1 (handleTurnEnd_returns_cue_ball inOffShot CueBallPotted 0%nat cueInPocket
                  eq_refl (conj eq_refl eq_refl))).
  reflexivity.
Defined.

(** ** The ball that is on after the turn has passed *)

Lemma switchTurn_target (s : Game) :
  targetState (switchTurn s)
  = if redsExist (ballsRef s) then TRed
    else match sortedOnTable (ballsRef s) with
         | b :: _ => TType (type b)
         | [] => targetState s
         end.
Proof.
  unfold switchTurn. cbv zeta. game_proj.
  destruct (redsExist (ballsRef s)); [reflexivity|].
  destruct (sortedOnTable (ballsRef s)); reflexivity.
Qed.

Lemma redsExist_true (balls : list Ball) :
  redsExist balls = true <-> redsRemain balls.
Proof.
  unfold redsExist, redsRemain. rewrite existsb_exists.
  split; intros [b [Hin H]]; exists b.
  - apply andb_true_iff in H as [Ht Hp]. apply BallType_eqb_eq in Ht.
    apply negb_true_iff in Hp. auto.
  - destruct H as [Ht Hp]. split; [exact Hin|].
    apply andb_true_iff. split; [now apply BallType_eqb_eq | now rewrite Hp].
Qed.

(** X12. When the turn passes, the ball that is on is a ball of the table:
    as long as some object ball is left, [switchTurn] sets a target that a
    ball on the table meets, the reds while a red is left, and afterwards the
    colour of the lowest value. *)
Theorem switchTurn_target_is_on_table :
  forall s : Game,
    (exists b, onTable (ballsRef s) b) ->
    (exists b, In b (ballsRef s) /\ isLegalTarget (targetState (switchTurn s)) b) /\
    (redsRemain (ballsRef s) -> targetState (switchTurn s) = TRed) /\
    (~ redsRemain (ballsRef s) ->
       exists b, lowestOnTable (ballsRef s) b /\ targetState (switchTurn s) = TType (type b)).
Proof.
  intros s [b0 Hb0]. rewrite switchTurn_target.
  destruct (redsExist (ballsRef s)) eqn:Er.
  - apply redsExist_true in Er. split; [|split; [reflexivity | contradiction]].
    destruct Er as [b [Hin [Ht Hp]]]. exists b. split; [exact Hin|]. now split.
  - assert (Hno : ~ redsRemain (ballsRef s)).
    { intros H. apply redsExist_true in H. congruence. }
    destruct (sortedOnTable (ballsRef s)) as [|b rest] eqn:Es.
    { exfalso. exact (sortedOnTable_nil _ Es b0 Hb0). }
    pose proof (sortedOnTable_head _ _ _ Es) as Hlow.
    split; [|split; [contradiction|]].
    + exists b. destruct Hlow as [[Hin [Hp _]] _]. split; [exact Hin|]. now split.
    + intros _. exists b. now split.
Qed.

Lemma switchTurn_target_is_on_table_witness :
  targetState (switchTurn redPotShot) = TRed.
Proof.
  assert (Hon : onTable (ballsRef redPotShot) redOnTable).
  { split; [simpl; auto|]. split; [reflexivity | discriminate]. }
  apply (proj1 (proj2 (switchTurn_target_is_on_table redPotShot (ex_intro _ redOnTable Hon)))).
  exists redOnTable. split; [simpl; auto|]. split; reflexivity.
Defined.

(** ** The offer of a free ball *)

Lemma canSeeLoop_no_object (start dir : Vector2) (dist : R) (target : Ball) (l : list Ball) :
  (forall b, In b l -> type b = CUE \/ potted b = true) ->
  canSeeLoop start dir dist target l = true.
Proof.
  induction l as [|c l IH]; intros H; simpl; [reflexivity|].
  assert (Hc : BallType_eqb (type c) CUE || potted c = true).
  { destruct (H c (or_introl eq_refl)) as [Ht|Hp].
    - apply BallType_eqb_eq in Ht. now rewrite Ht.
    - rewrite Hp. apply orb_true_r. }
  rewrite <- orb_assoc, Hc, orb_true_r. apply IH. intros b Hb. apply H. now right.
Qed.

Lemma checkIsSnookered_no_object (balls : list Ball) (target : TargetState) :
  (forall b, ~ onTable balls b) -> checkIsSnookered balls target = false.
Proof.
  intros Hno. unfold checkIsSnookered.
  destruct (find _ balls) as [cue|]; [|reflexivity].
  cbv zeta. destruct (legalTargetsOf balls target) as [|t ts]; [reflexivity|].
  cbn [forallb]. unfold canSeeBall. rewrite canSeeLoop_no_object; [reflexivity|].
  intros b Hb. destruct (BallType_eqb (type b) CUE) eqn:Et.
  - left. now apply BallType_eqb_eq.
  - right. destruct (potted b) eqn:Ep; [reflexivity|]. exfalso.
    apply (Hno b). split; [exact Hb|]. split; [exact Ep|]. now apply BallType_eqb_neq.
Qed.

(** X13. A free ball is offered exactly when the incoming player is
    snookered: after a foul, [offerFreeBall] is set if and only if the shot
    was not played from hand and [checkIsSnookered] holds of the table as the
    foul leaves it, cue ball and colours back in place, for the ball that is
    on for the incoming player. *)
Theorem handleTurnEnd_offers_free_ball_when_snookered :
  forall (s : Game) (k : FoulKind),
    firstMatchingFoul (turnStatusRef s) (targetState s) (isFreeBall s) = Some k ->
    offerFreeBall (handleTurnEnd s)
    = negb (ballInHand s)
      && checkIsSnookered (ballsRef (handleTurnEnd s)) (targetState (handleTurnEnd s)).
Proof.
  intros s k Hk.
  pose proof (foulCheck_first_match (turnStatusRef s) (targetState s) (isFreeBall s)
                (touchingBall s)) as H.
  rewrite Hk in H.
  assert (E : handleTurnEnd s
              = foulResolution s
                  (foulPenalty (turnStatusRef s) (targetState s) (touchingBall s) k)
                  (foulMessage (turnStatusRef s) (targetState s) k) (setSpin zeroVec s)).
  { unfold handleTurnEnd. rewrite H. reflexivity. }
  rewrite E, foulResolution_steps. cbv zeta.
  set (s3 := respotPotted _ _). clearbody s3.
  cbn [offerFreeBall ballsRef targetState setFoulDecisionNeeded setOfferFreeBall].
  unfold snookeredAfterFoul. cbv zeta.
  destruct (ballInHand s); [reflexivity|]. cbn [negb andb].
  rewrite switchTurn_target.
  destruct (switchTurn_frame s3) as (_ & _ & _ & _ & _ & _ & Hb & _).
  rewrite Hb.
  destruct (redsExist (ballsRef s3)); [reflexivity|].
  destruct (sortedOnTable (ballsRef s3)) as [|b rest] eqn:Es; [|reflexivity].
  pose proof (sortedOnTable_nil _ Es) as Hno.
  now rewrite !checkIsSnookered_no_object.
Qed.

Lemma handleTurnEnd_offers_free_ball_when_snookered_witness :
  offerFreeBall (handleTurnEnd inOffShot)
  = negb (ballInHand inOffShot)
    && checkIsSnookered (ballsRef (handleTurnEnd inOffShot))
         (targetState (handleTurnEnd inOffShot)).
Proof.
  apply (handleTurnEnd_offers_free_ball_when_snookered inOffShot CueBallPotted).
  reflexivity.
Defined.

(** ** The foul decision *)

Lemma foulResolution_mode (s0 : Game) (penalty : Z) (msg : string) (s : Game) :
  gameMode (foulResolution s0 penalty msg s) = gameMode s.
Proof.
  rewrite foulResolution_steps. cbv zeta. cbn [gameMode setFoulDecisionNeeded setOfferFreeBall].
  destruct (switchTurn_frame
              (respotPotted (pottedBall (turnStatusRef s0))
                 (cueBackOnTable (chargeFoul (currentPlayer s0) penalty msg s))))
    as (_ & _ & _ & _ & _ & _ & _ & Hm & _).
  rewrite Hm.
  destruct (respotPotted_frame (pottedBall (turnStatusRef s0))
              (cueBackOnTable (chargeFoul (currentPlayer s0) penalty msg s)))
    as (_ & _ & Hm3 & _).
  rewrite Hm3.
  destruct (cueBackOnTable_frame (chargeFoul (currentPlayer s0) penalty msg s))
    as (_ & _ & Hm2 & _).
  rewrite Hm2.
  destruct (chargeFoul_frame (currentPlayer s0) penalty msg s) as (_ & _ & _ & Hm1 & _).
  exact Hm1.
Qed.

Lemma opponent_involutive (mode : GameMode) (p : Player) :
  playsIn mode p -> opponent mode (opponent mode p) = p.
Proof. destruct mode; intros [->| ->]; reflexivity. Qed.

Lemma opponent_plays (mode : GameMode) (p : Player) : playsIn mode (opponent mode p).
Proof. destruct mode, p; simpl; auto. Qed.

Lemma switchTurn_notification (s : Game) :
  foulDecisionNeeded (switchTurn s) = foulDecisionNeeded s /\
  foulNotification (switchTurn s) = foulNotification s.
Proof.
  unfold switchTurn. cbv zeta. game_proj.
  destruct (redsExist (ballsRef s)); [|destruct (sortedOnTable (ballsRef s))];
    split; reflexivity.
Qed.

(** What a decision writes, outside the online client. *)
Lemma handleFoulDecision_frame (d : Decision) (g : Game) :
  gameMode g <> ONLINE_CLIENT ->
  currentPlayer (fst (handleFoulDecision d g))
  = (match d with AGAIN => opponent (gameMode g) (currentPlayer g) | _ => currentPlayer g end)
  /\ isFreeBall (fst (handleFoulDecision d g))
     = (match d with FREE => true | AGAIN => false | PLAY => isFreeBall g end)
  /\ foulDecisionNeeded (fst (handleFoulDecision d g)) = false
  /\ active (foulNotification (fst (handleFoulDecision d g))) = false
  /\ scoreP1 (fst (handleFoulDecision d g)) = scoreP1 g
  /\ scoreP2 (fst (handleFoulDecision d g)) = scoreP2 g
  /\ snd (handleFoulDecision d g) = [].
Proof.
  intros Hg.
  assert (E : handleFoulDecision d g
              = (match d with
                 | PLAY => setFoulNotification
                             (mkFoulInfo false (message (foulNotification g))
                                         (points_ (foulNotification g)))
                             (setFoulDecisionNeeded false g)
                 | AGAIN => switchTurn
                              (setFoulNotification
                                 (mkFoulInfo false (message (foulNotification g))
                                             (points_ (foulNotification g)))
                                 (setFoulDecisionNeeded false g))
                 | FREE => setIsFreeBall true
                             (setFoulNotification
                                (mkFoulInfo false (message (foulNotification g))
                                            (points_ (foulNotification g)))
                                (setFoulDecisionNeeded false g))
                 end, [])).
  { unfold handleFoulDecision. destruct (gameMode g); try reflexivity. congruence. }
  rewrite E. cbn [fst snd]. destruct d.
  - repeat split; reflexivity.
  - match goal with
    | |- context [switchTurn ?G] =>
        destruct (switchTurn_frame G) as (_ & Sf & _ & Sp & S1 & S2 & _);
        destruct (switchTurn_notification G) as [Sd Sn]
    end.
    rewrite Sp, Sf, Sd, Sn, S1, S2. repeat split; reflexivity.
  - repeat split; reflexivity.
Qed.

(** X14. The three answers to a foul.  After [handleTurnEnd] has ruled a
    foul, outside the online client: PLAY leaves the incoming player at the
    table; AGAIN hands the turn back to the offender; FREE leaves the incoming
    player at the table with a free ball.  Every answer closes the request and
    the notification, and none changes a score or sends a message. *)
Theorem handleFoulDecision_after_foul :
  forall (s : Game) (k : FoulKind) (d : Decision),
    firstMatchingFoul (turnStatusRef s) (targetState s) (isFreeBall s) = Some k ->
    gameMode s <> ONLINE_CLIENT ->
    playsIn (gameMode s) (currentPlayer s) ->
    let s' := fst (handleFoulDecision d (handleTurnEnd s)) in
    currentPlayer s'
    = (match d with AGAIN => currentPlayer s | _ => opponent (gameMode s) (currentPlayer s) end)
    /\ isFreeBall s' = (match d with FREE => true | _ => false end)
    /\ foulDecisionNeeded s' = false
    /\ active (foulNotification s') = false
    /\ scoreP1 s' = scoreP1 (handleTurnEnd s)
    /\ scoreP2 s' = scoreP2 (handleTurnEnd s)
    /\ snd (handleFoulDecision d (handleTurnEnd s)) = [].
Proof.
  intros s k d Hk Hmode Hplays s'. subst s'.
  pose proof (foulCheck_first_match (turnStatusRef s) (targetState s) (isFreeBall s)
                (touchingBall s)) as H.
  rewrite Hk in H.
  assert (E : handleTurnEnd s
              = foulResolution s
                  (foulPenalty (turnStatusRef s) (targetState s) (touchingBall s) k)
                  (foulMessage (turnStatusRef s) (targetState s) k) (setSpin zeroVec s)).
  { unfold handleTurnEnd. rewrite H. reflexivity. }
  pose proof (foulResolution_mode s
                (foulPenalty (turnStatusRef s) (targetState s) (touchingBall s) k)
                (foulMessage (turnStatusRef s) (targetState s) k) (setSpin zeroVec s)) as Hm.
  pose proof (foulResolution_frame s
                (foulPenalty (turnStatusRef s) (targetState s) (touchingBall s) k)
                (foulMessage (turnStatusRef s) (targetState s) k) (setSpin zeroVec s)) as F.
  cbv zeta in F. destruct F as (_ & Hf & _ & Hp & _).
  rewrite <- E in Hm, Hf, Hp. cbn [gameMode currentPlayer setSpin] in Hm, Hp.
  clear E H.
  assert (Hg : gameMode (handleTurnEnd s) <> ONLINE_CLIENT) by now rewrite Hm.
  destruct (handleFoulDecision_frame d (handleTurnEnd s) Hg) as (Dp & Df & Dd & Da & D1 & D2 & Dn).
  rewrite Dp, Df, Dd, Da, D1, D2, Dn, Hm, Hp, Hf.
  rewrite (opponent_involutive _ _ Hplays).
  destruct d; repeat split; reflexivity.
Qed.

Lemma handleFoulDecision_after_foul_witness :
  currentPlayer (fst (handleFoulDecision AGAIN (handleTurnEnd inOffShot))) = AI.
Proof.
  assert (Hm : gameMode inOffShot <> ONLINE_CLIENT) by discriminate.
  assert (Hp : playsIn (gameMode inOffShot) (currentPlayer inOffShot)) by (right; reflexivity).
  exact (proj1 (handleFoulDecision_after_foul inOffShot CueBallPotted AGAIN eq_refl Hm Hp)).
Defined.

(** ** The callbacks over a call to [updatePhysics] *)

Lemma runCallbacks_cons (balls : list Ball) (e : Event) (tr : list Event) (st : TurnStatus) :
  runCallbacks balls (e :: tr) st = runCallbacks balls tr (runCallback balls st e).
Proof. reflexivity. Qed.

(** What one callback does to each field of the turn status. *)
Lemma runCallback_fields (balls : list Ball) (st : TurnStatus) (e : Event) :
  pushShot (runCallback balls st e) = pushShot st /\
  statusFoul (runCallback balls st e) = statusFoul st || cuePot balls e /\
  firstHitType (runCallback balls st e)
  = (match firstHitType st with Some h => Some h | None => cueContact balls e end) /\
  pottedBall (runCallback balls st e)
  = (match objectPot balls e with Some b => Some b | None => pottedBall st end) /\
  statusPotted (runCallback balls st e)
  = statusPotted st || (match objectPot balls e with Some _ => true | None => false end).
Proof.
  destruct e as [i|i j imp]; simpl.
  - destruct (nth_error balls i) as [b|].
    + unfold handlePot. destruct (BallType_eqb (type b) CUE); simpl;
        rewrite ?orb_true_r, ?orb_false_r; destruct (firstHitType st); repeat split; reflexivity.
    + rewrite !orb_false_r. destruct (firstHitType st); repeat split; reflexivity.
  - rewrite !orb_false_r.
    destruct (nth_error balls i) as [b1|]; [destruct (nth_error balls j) as [b2|]|].
    + unfold onCollision. destruct (firstHitType st) eqn:Eh;
        [rewrite Eh; repeat split; reflexivity|].
      destruct (BallType_eqb (type b1) CUE); [simpl; repeat split; reflexivity|].
      destruct (BallType_eqb (type b2) CUE); simpl; rewrite ?Eh; repeat split; reflexivity.
    + destruct (firstHitType st); repeat split; reflexivity.
    + destruct (firstHitType st); repeat split; reflexivity.
Qed.

(** No callback touches the push-shot flag. *)
Lemma runCallbacks_pushShot (balls : list Ball) (tr : list Event) (st : TurnStatus) :
  pushShot (runCallbacks balls tr st) = pushShot st.
Proof.
  revert st. induction tr as [|e tr IH]; intros st; [reflexivity|].
  rewrite runCallbacks_cons, IH. apply runCallback_fields.
Qed.

(** X15. What a shot remembers.  Over the callbacks of a call to
    [updatePhysics]: the push-shot flag is not touched; the foul flag is
    raised by the cue ball going down and never cleared; the first contact is
    the first ball the cue ball met and is not overwritten by later contacts;
    and of the object balls potted only the last one is remembered. *)
Theorem runCallbacks_summary :
  forall (balls : list Ball) (tr : list Event) (st : TurnStatus),
    pushShot (runCallbacks balls tr st) = pushShot st /\
    statusFoul (runCallbacks balls tr st) = statusFoul st || existsb (cuePot balls) tr /\
    firstHitType (runCallbacks balls tr st)
    = (match firstHitType st with Some h => Some h | None => firstContact balls tr end) /\
    pottedBall (runCallbacks balls tr st)
    = (match lastObjectPot balls tr with Some b => Some b | None => pottedBall st end) /\
    statusPotted (runCallbacks balls tr st)
    = statusPotted st || (match lastObjectPot balls tr with Some _ => true | None => false end).
Proof.
  intros balls tr. induction tr as [|e tr IH]; intros st.
  - simpl. rewrite !orb_false_r. destruct (firstHitType st); repeat split; reflexivity.
  - rewrite runCallbacks_cons.
    destruct (IH (runCallback balls st e)) as (Ip & If & Ih & Ib & Is).
    destruct (runCallback_fields balls st e) as (Cp & Cf & Ch & Cb & Cs).
    rewrite Ip, If, Ih, Ib, Is, Cp, Cf, Ch, Cb, Cs. cbn [existsb firstContact lastObjectPot].
    repeat split.
    + now rewrite orb_assoc.
    + destruct (firstHitType st); [reflexivity|]. destruct (cueContact balls e); reflexivity.
    + destruct (lastObjectPot balls tr); [reflexivity|]. destruct (objectPot balls e); reflexivity.
    + destruct (lastObjectPot balls tr); destruct (objectPot balls e);
        rewrite ?orb_true_r, ?orb_false_r; reflexivity.
Qed.

(** ** The shot *)

(** The turn status that [takeShot] leaves. *)
Lemma takeShot_status (dir : Vector2) (power chalkLevel miscueDraw angleDraw : R) (s : Game)
    (i : nat) (cue : Ball) :
  cueBallAt (ballsRef s) i cue ->
  let st := turnStatusRef (takeShot dir power chalkLevel miscueDraw angleDraw s) in
  statusPotted st = false /\ pottedBall st = None /\
  match touchingBall s with
  | Some tb =>
      if Rltb 0.05 (vecDot dir (vecNorm (vecSub (pos tb) (pos cue))))
      then pushShot st = true /\ statusFoul st = true /\ firstHitType st = None
      else pushShot st = false /\ statusFoul st = false /\
           firstHitType st = (if validTouch s tb then Some (type tb) else None)
  | None => pushShot st = false /\ statusFoul st = false /\ firstHitType st = None
  end.
Proof.
  intros [Hf Hn]. unfold takeShot. rewrite Hf, Hn. cbv zeta.
  match goal with
  | |- context [let '(a, b) := ?e in _] => destruct e as [finalPower finalDir]
  end.
  cbn [turnStatusRef setTurnStatusRef].
  destruct (touchingBall s) as [tb|]; [|repeat split; reflexivity].
  destruct (Rltb 0.05 _); [repeat split; reflexivity|].
  unfold validTouch.
  destruct (isFreeBall s); [repeat split; reflexivity|].
  destruct (targetState s) as [|t];
    [destruct (negb _) | destruct (BallType_eqb _ _)]; repeat split; reflexivity.
Qed.

(** The state that [takeShot] leaves, but for the turn status and the balls. *)
Lemma takeShot_frame (dir : Vector2) (power chalkLevel miscueDraw angleDraw : R) (s : Game) :
  let s' := takeShot dir power chalkLevel miscueDraw angleDraw s in
  targetState s' = targetState s /\ isFreeBall s' = isFreeBall s /\
  touchingBall s' = touchingBall s /\ currentPlayer s' = currentPlayer s /\
  gameMode s' = gameMode s /\ scoreP1 s' = scoreP1 s /\ scoreP2 s' = scoreP2 s /\
  foulNotification s' = foulNotification s.
Proof.
  unfold takeShot.
  destruct (findIndex _ _) as [i|]; [|repeat split; reflexivity].
  destruct (nth_error _ _) as [c|]; [|repeat split; reflexivity].
  cbv zeta.
  match goal with
  | |- context [let '(a, b) := ?e in _] => destruct e as [finalPower finalDir]
  end.
  repeat split; reflexivity.
Qed.

(** The balls that [takeShot] leaves. *)
Lemma takeShot_balls (dir : Vector2) (power chalkLevel miscueDraw angleDraw : R) (s : Game)
    (i : nat) (cue : Ball) :
  cueBallAt (ballsRef s) i cue ->
  ballsRef (takeShot dir power chalkLevel miscueDraw angleDraw s)
  = modify i
      (fun b => set_vel b
         (if miscues s chalkLevel miscueDraw
          then vecMult (mkVec (cos (atan2 (y dir) (x dir) + (angleDraw - 0.5)))
                              (sin (atan2 (y dir) (x dir) + (angleDraw - 0.5))))
                       (power * 0.1 * POWER_SCALE)
          else vecMult dir (power * POWER_SCALE)))
      (ballsRef s).
Proof.
  intros [Hf Hn]. unfold takeShot, miscues. rewrite Hf, Hn. cbv zeta.
  destruct (currentPlayer s), (gameMode s);
    try destruct (Rltb chalkLevel 15 && Rltb 0.5 miscueDraw); reflexivity.
Qed.

Lemma pushShot_first_foul (st : TurnStatus) (target : TargetState) (freeBall : bool) :
  pushShot st = true -> firstMatchingFoul st target freeBall = Some PushShotFoul.
Proof.
  intros H. unfold firstMatchingFoul, foulPrecedence. cbn [find foulCondition]. now rewrite H.
Qed.

Lemma handleTurnEnd_foul (g : Game) (k : FoulKind) :
  firstMatchingFoul (turnStatusRef g) (targetState g) (isFreeBall g) = Some k ->
  handleTurnEnd g
  = foulResolution g (foulPenalty (turnStatusRef g) (targetState g) (touchingBall g) k)
      (foulMessage (turnStatusRef g) (targetState g) k) (setSpin zeroVec g).
Proof.
  intros Hk.
  pose proof (foulCheck_first_match (turnStatusRef g) (targetState g) (isFreeBall g)
                (touchingBall g)) as H.
  rewrite Hk in H. unfold handleTurnEnd. rewrite H. reflexivity.
Qed.

(** X16. A push shot cannot be redeemed.  When the cue ball is played into
    the ball it touches (the aim makes more than 0.05 with the unit vector
    towards that ball), [takeShot] records a push shot, and whatever the balls
    then do, contacts and pots included, [handleTurnEnd] rules the foul
    "Push Shot" and passes the turn. *)
Theorem push_shot_is_ruled_a_foul :
  forall (dir : Vector2) (power chalkLevel miscueDraw angleDraw : R) (s : Game)
         (i : nat) (cue tb : Ball),
    cueBallAt (ballsRef s) i cue ->
    touchingBall s = Some tb ->
    playedInto dir cue tb ->
    forall (balls : list Ball) (tr : list Event) (g : Game),
      turnStatusRef g
      = runCallbacks balls tr
          (turnStatusRef (takeShot dir power chalkLevel miscueDraw angleDraw s)) ->
      foulNotification (handleTurnEnd g)
      = mkFoulInfo true "Push Shot (Hit into touching ball)"
          (foulPenalty (turnStatusRef g) (targetState g) (touchingBall g) PushShotFoul) /\
      currentPlayer (handleTurnEnd g) = opponent (gameMode g) (currentPlayer g) /\
      foulDecisionNeeded (handleTurnEnd g) = true.
Proof.
  intros dir power chalk d1 d2 s i cue tb Hc Ht Hin balls tr g Hg.
  pose proof (takeShot_status dir power chalk d1 d2 s i cue Hc) as Hs.
  cbv zeta in Hs. rewrite Ht in Hs. destruct Hs as (_ & _ & Hs).
  unfold playedInto in Hin. apply Rltb_true in Hin. rewrite Hin in Hs.
  destruct Hs as (Hp & _).
  pose proof (runCallbacks_pushShot balls tr
                (turnStatusRef (takeShot dir power chalk d1 d2 s))) as Rp.
  rewrite <- Hg, Hp in Rp.
  pose proof (pushShot_first_foul (turnStatusRef g) (targetState g) (isFreeBall g) Rp) as Hk.
  rewrite (handleTurnEnd_foul g PushShotFoul Hk).
  rewrite foulResolution_foulNotification.
  destruct (foulResolution_frame g
              (foulPenalty (turnStatusRef g) (targetState g) (touchingBall g) PushShotFoul)
              (foulMessage (turnStatusRef g) (targetState g) PushShotFoul) (setSpin zeroVec g))
    as (_ & _ & _ & Hpl & _ & _ & Hd & _).
  rewrite Hpl, Hd. repeat split; reflexivity.
Qed.

Lemma vecNorm_along_x (a : R) : 0 < a -> vecNorm (mkVec a 0) = mkVec 1 0.
Proof.
  intros Ha. rewrite vecNorm_nonzero by (intros E; inversion E; lra).
  rewrite vecLen_axis by lra. cbn [x y]. f_equal; field; lra.
Qed.

Lemma frozenRed_direction :
  vecNorm (vecSub (pos frozenRed) (pos cueAtBreak)) = mkVec 1 0.
Proof.
  replace (vecSub (pos frozenRed) (pos cueAtBreak)) with (mkVec 18.5 0)
    by (unfold vecSub; simpl; f_equal; lra).
  apply vecNorm_along_x. lra.
Qed.

Lemma push_shot_is_ruled_a_foul_witness :
  foulDecisionNeeded
    (handleTurnEnd (takeShot (mkVec 1 0) 50 100 0 0 frozenBallGame)) = true.
Proof.
  assert (Hc : cueBallAt (ballsRef frozenBallGame) 0 cueAtBreak) by (split; reflexivity).
  assert (Hin : playedInto (mkVec 1 0) cueAtBreak frozenRed).
  { unfold playedInto. rewrite frozenRed_direction. unfold vecDot. cbn [x y]. lra. }
  apply (push_shot_is_ruled_a_foul (mkVec 1 0) 50 100 0 0 frozenBallGame 0%nat cueAtBreak
           frozenRed Hc eq_refl Hin [] []
           (takeShot (mkVec 1 0) 50 100 0 0 frozenBallGame) eq_refl).
Defined.

Lemma handleTurnEnd_quiet (g : Game) :
  firstMatchingFoul (turnStatusRef g) (targetState g) (isFreeBall g) = None ->
  pottedBall (turnStatusRef g) = None ->
  handleTurnEnd g = switchTurn (setSpin zeroVec g).
Proof.
  intros Hk Hp.
  pose proof (foulCheck_first_match (turnStatusRef g) (targetState g) (isFreeBall g)
                (touchingBall g)) as H.
  rewrite Hk in H. unfold handleTurnEnd.
  destruct (foulCheck _ _ _ _) as [[isFoul penalty] msg]. cbn [fst] in H. subst isFoul.
  now rewrite Hp.
Qed.

Lemma validTouch_validHit (s : Game) (tb : Ball) :
  type tb <> CUE -> validHit (isFreeBall s) (targetState s) (type tb) = validTouch s tb.
Proof.
  intros Hc. apply BallType_eqb_neq in Hc. unfold validHit, validTouch.
  destruct (isFreeBall s).
  - rewrite Hc. now destruct (BallType_eqb (type tb) RED).
  - destruct (targetState s) as [|t]; [|destruct t; reflexivity].
    rewrite Hc. cbn [negb]. now rewrite andb_true_r.
Qed.

(** X17. Playing away from a touching ball.  When the cue ball touches a
    ball and is not played into it, a touching ball that is on counts as the
    first ball hit: if the cue ball then meets nothing, [handleTurnEnd] finds
    no foul, changes no score and passes the turn.  A touching ball that is
    not on counts for nothing: the same stroke is ruled "Missed all balls". *)
Theorem touching_ball_played_away :
  forall (dir : Vector2) (power chalkLevel miscueDraw angleDraw : R) (s : Game)
         (i : nat) (cue tb : Ball),
    cueBallAt (ballsRef s) i cue ->
    touchingBall s = Some tb ->
    type tb <> CUE ->
    ~ playedInto dir cue tb ->
    let shot := takeShot dir power chalkLevel miscueDraw angleDraw s in
    (validTouch s tb = true ->
       firstHitType (turnStatusRef shot) = Some (type tb) /\
       foulNotification (handleTurnEnd shot) = foulNotification s /\
       currentPlayer (handleTurnEnd shot) = opponent (gameMode s) (currentPlayer s) /\
       scoreP1 (handleTurnEnd shot) = scoreP1 s /\
       scoreP2 (handleTurnEnd shot) = scoreP2 s) /\
    (validTouch s tb = false ->
       foulNotification (handleTurnEnd shot)
       = mkFoulInfo true "Missed all balls" (Z.max 4 (targetValue (targetState s)))).
Proof.
  intros dir power chalk d1 d2 s i cue tb Hc Ht Hty Hout shot.
  pose proof (takeShot_status dir power chalk d1 d2 s i cue Hc) as Hs.
  pose proof (takeShot_frame dir power chalk d1 d2 s) as Hf.
  cbv zeta in Hs, Hf. fold shot in Hs, Hf. rewrite Ht in Hs.
  destruct Hs as (Hpot & Hpb & Hs).
  assert (Hno : Rltb 0.05 (vecDot dir (vecNorm (vecSub (pos tb) (pos cue)))) = false).
  { apply Rltb_false. unfold playedInto in Hout. lra. }
  rewrite Hno in Hs. destruct Hs as (Hpush & Hfoul & Hhit).
  destruct Hf as (Ftar & Ffree & Ftb & Fpl & Fmode & F1 & F2 & Fn).
  clearbody shot.
  split; intros Hv; rewrite Hv in Hhit.
  - assert (Hk : firstMatchingFoul (turnStatusRef shot) (targetState shot) (isFreeBall shot)
                 = None).
    { unfold firstMatchingFoul, foulPrecedence. cbn [find foulCondition].
      rewrite Hpush, Hfoul, Hhit, Hpb, Ftar, Ffree, (validTouch_validHit s tb Hty), Hv.
      reflexivity. }
    rewrite (handleTurnEnd_quiet shot Hk Hpb).
    destruct (switchTurn_frame (setSpin zeroVec shot))
      as (_ & _ & _ & Sp & S1 & S2 & _).
    rewrite switchTurn_foulNotification, Sp, S1, S2.
    cbn [foulNotification currentPlayer gameMode scoreP1 scoreP2 setSpin].
    rewrite Fn, Fpl, Fmode, F1, F2. repeat split; assumption || reflexivity.
  - assert (Hk : firstMatchingFoul (turnStatusRef shot) (targetState shot) (isFreeBall shot)
                 = Some NoBallContacted).
    { unfold firstMatchingFoul, foulPrecedence. cbn [find foulCondition].
      rewrite Hpush, Hfoul, Hhit. reflexivity. }
    rewrite (handleTurnEnd_foul shot NoBallContacted Hk), foulResolution_foulNotification.
    unfold foulPenalty, foulMessage. cbn [involvedValue]. rewrite Ftar.
    f_equal. lia.
Qed.

Lemma touching_ball_played_away_witness :
  foulNotification (handleTurnEnd (takeShot (mkVec (-1) 0) 50 100 0 0 frozenBallGame))
  = foulNotification frozenBallGame.
Proof.
  assert (Hc : cueBallAt (ballsRef frozenBallGame) 0 cueAtBreak) by (split; reflexivity).
  assert (Hout : ~ playedInto (mkVec (-1) 0) cueAtBreak frozenRed).
  { unfold playedInto. rewrite frozenRed_direction. unfold vecDot. cbn [x y]. lra. }
  assert (Hty : type frozenRed <> CUE) by discriminate.
  apply (proj1 (touching_ball_played_away (mkVec (-1) 0) 50 100 0 0 frozenBallGame 0%nat
                  cueAtBreak frozenRed Hc eq_refl Hty Hout) eq_refl).
Defined.

Lemma vecLen_cos_sin (a : R) : vecLen (mkVec (cos a) (sin a)) = 1.
Proof.
  unfold vecLen. cbn [x y].
  replace (cos a * cos a + sin a * sin a) with 1; [apply sqrt_1|].
  pose proof (sin2_cos2 a) as H. unfold Rsqr in H. lra.
Qed.

(** X18. What [takeShot] does to the balls: it sets the cue ball in motion
    and moves nothing.  Every other ball is as it was and the cue ball stays
    where it is; without a miscue its velocity is the aim scaled by 0.23 times
    the power; on a miscue its speed is a tenth of that of a unit aim; and for
    an aim of length at most 1 the speed never exceeds 0.23 times the power. *)
Theorem takeShot_sets_the_cue_ball_in_motion :
  forall (dir : Vector2) (power chalkLevel miscueDraw angleDraw : R) (s : Game)
         (i : nat) (cue : Ball),
    cueBallAt (ballsRef s) i cue ->
    let shot := takeShot dir power chalkLevel miscueDraw angleDraw s in
    (forall j, j <> i -> nth_error (ballsRef shot) j = nth_error (ballsRef s) j) /\
    exists c',
      nth_error (ballsRef shot) i = Some c' /\
      pos c' = pos cue /\ sameBall cue c' /\ potted c' = potted cue /\
      (miscues s chalkLevel miscueDraw = false -> vel c' = vecMult dir (power * POWER_SCALE)) /\
      (miscues s chalkLevel miscueDraw = true -> 0 <= power ->
         vecLen (vel c') = power * 0.1 * POWER_SCALE) /\
      (0 <= power -> vecLen dir <= 1 -> vecLen (vel c') <= power * POWER_SCALE).
Proof.
  intros dir power chalk d1 d2 s i cue Hc shot. subst shot.
  rewrite (takeShot_balls dir power chalk d1 d2 s i cue Hc).
  set (v := if miscues s chalk d1 then _ else _).
  split.
  - intros j Hj. apply nth_error_modify_other. congruence.
  - exists (set_vel cue v). split.
    + apply (nth_error_modify_same i (fun b => set_vel b v) (ballsRef s) cue). apply Hc.
    + split; [reflexivity|]. split; [repeat split; reflexivity|]. split; [reflexivity|].
      cbn [vel set_vel].
      assert (Hps : 0 < POWER_SCALE) by (unfold POWER_SCALE; lra).
      assert (Hmis : 0 <= power ->
                vecLen (vecMult (mkVec (cos (atan2 (y dir) (x dir) + (d2 - 0.5)))
                                       (sin (atan2 (y dir) (x dir) + (d2 - 0.5))))
                                (power * 0.1 * POWER_SCALE))
                = power * 0.1 * POWER_SCALE).
      { intros Hp. rewrite vecLen_scale by (apply Rmult_le_pos; lra).
        rewrite vecLen_cos_sin. lra. }
      split; [|split].
      * intros Hm. unfold v. now rewrite Hm.
      * intros Hm Hp. unfold v. rewrite Hm. now apply Hmis.
      * intros Hp Hd. unfold v. destruct (miscues s chalk d1).
        -- rewrite Hmis by exact Hp.
           assert (0 <= power * POWER_SCALE) by (apply Rmult_le_pos; lra).
           lra.
        -- assert (0 <= power * POWER_SCALE) by (apply Rmult_le_pos; lra).
           rewrite vecLen_scale by assumption.
           rewrite <- (Rmult_1_l (power * POWER_SCALE)) at 2.
           apply Rmult_le_compat_r; assumption.
Qed.

Lemma takeShot_sets_the_cue_ball_in_motion_witness :
  exists c',
    nth_error (ballsRef (takeShot (mkVec 1 0) 50 100 0 0 frozenBallGame)) 0 = Some c' /\
    pos c' = pos cueAtBreak.
Proof.
  assert (Hc : cueBallAt (ballsRef frozenBallGame) 0 cueAtBreak) by (split; reflexivity).
  destruct (proj2 (takeShot_sets_the_cue_ball_in_motion (mkVec 1 0) 50 100 0 0
                     frozenBallGame 0%nat cueAtBreak Hc)) as (c' & Hn & Hp & _).
  exists c'. split; [exact Hn | exact Hp].
Defined.

(** ** Ball in hand *)

Lemma overlapsObject_false (balls : list Ball) (p : Vector2) :
  overlapsObject balls p = false <-> clearOfObjects balls p.
Proof.
  unfold overlapsObject, clearOfObjects.
  induction balls as [|c l IH]; cbn [existsb In].
  - split; [intros _ b [] | reflexivity].
  - rewrite orb_false_iff, IH. split.
    + intros [Hc Hl] b [<-|Hin] Hp Ht; [|now apply Hl].
      apply BallType_eqb_neq in Ht. rewrite Hp, Ht in Hc. cbn [negb andb] in Hc.
      apply Rltb_false in Hc. lra.
    + intros H. split; [|intros b Hin; apply H; now right].
      destruct (potted c) eqn:Ep; [reflexivity|].
      destruct (BallType_eqb (type c) CUE) eqn:Et; [reflexivity|].
      cbn [negb andb]. apply Rltb_false. apply BallType_eqb_neq in Et.
      specialize (H c (or_introl eq_refl) Ep Et). lra.
Qed.

Lemma putCueBall_placed (p : Vector2) (s : Game) (i : nat) (cue : Ball) :
  cueBallAt (ballsRef s) i cue ->
  exists s', putCueBall p s = Some s' /\ cuePlacedAt s s' i cue p.
Proof.
  intros [Hf Hn]. unfold putCueBall. rewrite Hf. eexists. split; [reflexivity|].
  unfold cuePlacedAt. cbn [ballInHand ballsRef setBallInHand set_ballsRef].
  split; [reflexivity|]. split.
  - intros j Hj. apply nth_error_modify_other. congruence.
  - exists (set_vel (set_potted (set_pos cue p) false) zeroVec). split.
    + exact (nth_error_modify_same i
               (fun b => set_vel (set_potted (set_pos b p) false) zeroVec) (ballsRef s) cue Hn).
    + repeat split; reflexivity.
Qed.

(** The guards of [handleMouseDown] all fail exactly when it listens. *)
Lemma takesClicks_guards (c : Controls) (s : Game) :
  takesClicks c s <->
  match gameMode s, currentPlayer s with ONLINE_HOST, TWO => true | _, _ => false end = false /\
  match gameMode s, currentPlayer s with ONLINE_CLIENT, ONE => true | _, _ => false end = false /\
  match gameState s with PLAYING => false | _ => true end
  || match currentPlayer s with AI => true | _ => false end
  || isMoving c || isShooting c || showStatsModal c
  || foulDecisionNeeded s || isInputBlocked c = false.
Proof.
  unfold takesClicks. split.
  - intros (H1 & H2 & Hg & Hp & -> & -> & -> & -> & ->). rewrite Hg.
    destruct (gameMode s), (currentPlayer s); try (now contradiction Hp);
      repeat split; try reflexivity;
      solve [exfalso; apply H1; now split | exfalso; apply H2; now split].
  - intros (E1 & E2 & E3).
    apply orb_false_iff in E3 as [E3 Hib]. apply orb_false_iff in E3 as [E3 Hfd].
    apply orb_false_iff in E3 as [E3 Hst]. apply orb_false_iff in E3 as [E3 Hsh].
    apply orb_false_iff in E3 as [E3 Hmv]. apply orb_false_iff in E3 as [Egs Hai].
    repeat split; try assumption.
    + intros [Hm Hp]. rewrite Hm, Hp in E1. discriminate.
    + intros [Hm Hp]. rewrite Hm, Hp in E2. discriminate.
    + destruct (gameState s); try discriminate; reflexivity.
    + intros Hp. rewrite Hp in Hai. discriminate.
Qed.

Lemma handleColorSelect_frame (t : BallType) (s : Game) :
  ballsRef (fst (handleColorSelect t s)) = ballsRef s /\
  ballInHand (fst (handleColorSelect t s)) = ballInHand s.
Proof. unfold handleColorSelect. destruct (gameMode s); split; reflexivity. Qed.

(** X19. The cue ball in hand is released only on a legal spot.  When
    [handleMouseDown] does not listen (it is not the turn of a player at this
    screen, no frame is being played, balls move, a stroke is played, the
    statistics are shown, a foul decision is due or input is blocked) a click
    changes nothing.  When it listens, no colour is being chosen and the cue
    ball is in hand, a click in the D (with the tolerance of 2) and at least
    two ball radii from every object ball on the table puts the cue ball
    there, on the table and at rest, moves no other ball and ends ball in
    hand; any other click leaves the game as it was; neither starts a drag or
    sends a message.  While a colour is being chosen, or when the cue ball is
    not in hand, no click moves a ball or changes who has the ball in hand. *)
Theorem handleMouseDown_legal_spots_only :
  forall (touch : bool) (p : Vector2) (c : Controls) (s : Game),
    (~ takesClicks c s -> handleMouseDown touch p c s = (s, c, [])) /\
    (takesClicks c s -> showColorSelection s = false -> ballInHand s = true ->
       snd (fst (handleMouseDown touch p c s)) = c /\
       snd (handleMouseDown touch p c s) = [] /\
       (~ acceptsPlacement (ballsRef s) p -> fst (fst (handleMouseDown touch p c s)) = s) /\
       (forall i cue,
          cueBallAt (ballsRef s) i cue -> acceptsPlacement (ballsRef s) p ->
          cuePlacedAt s (fst (fst (handleMouseDown touch p c s))) i cue p)) /\
    (showColorSelection s = true \/ ballInHand s = false ->
       ballsRef (fst (fst (handleMouseDown touch p c s))) = ballsRef s /\
       ballInHand (fst (fst (handleMouseDown touch p c s))) = ballInHand s).
Proof.
  intros touch p c s. split; [|split].
  - intros Hnot. unfold handleMouseDown.
    destruct (match gameMode s, currentPlayer s with ONLINE_HOST, TWO => true | _, _ => false end)
      eqn:E1; [reflexivity|].
    destruct (match gameMode s, currentPlayer s with ONLINE_CLIENT, ONE => true | _, _ => false end)
      eqn:E2; [reflexivity|].
    destruct (match gameState s with PLAYING => false | _ => true end
              || match currentPlayer s with AI => true | _ => false end
              || isMoving c || isShooting c || showStatsModal c
              || foulDecisionNeeded s || isInputBlocked c) eqn:E3; [reflexivity|].
    exfalso. apply Hnot. apply takesClicks_guards. auto.
  - intros Hl Hsel Hhand. apply takesClicks_guards in Hl as (E1 & E2 & E3).
    unfold handleMouseDown. rewrite E1, E2, E3, Hsel, Hhand. cbv zeta.
    change (sqrt ((x p - BAULK_X) * (x p - BAULK_X) + (y p - CENTER_Y) * (y p - CENTER_Y)))
      with (vecDist p (mkVec BAULK_X CENTER_Y)).
    split; [|split; [|split]].
    + destruct (_ && _); [|reflexivity].
      destruct (overlapsObject _ _); [reflexivity|].
      destruct (putCueBall p s); reflexivity.
    + destruct (_ && _); [|reflexivity].
      destruct (overlapsObject _ _); [reflexivity|].
      destruct (putCueBall p s); reflexivity.
    + intros Hnot.
      destruct (Rleb (x p) (BAULK_X + 2)) eqn:Ex; [|reflexivity].
      destruct (Rleb (vecDist p (mkVec BAULK_X CENTER_Y)) (D_RADIUS + 2)) eqn:Ed; [|reflexivity].
      cbn [andb].
      destruct (overlapsObject (ballsRef s) p) eqn:Eo; [reflexivity|].
      exfalso. apply Hnot. apply Rleb_true in Ex. apply Rleb_true in Ed.
      apply overlapsObject_false in Eo. repeat split; assumption.
    + intros i cue Hc (Hx & Hd & Hclear).
      destruct (putCueBall_placed p s i cue Hc) as (s' & Hput & Hplaced).
      apply Rleb_true in Hx. apply Rleb_true in Hd. rewrite Hx, Hd. cbn [andb].
      apply overlapsObject_false in Hclear. rewrite Hclear, Hput. exact Hplaced.
  - intros H. unfold handleMouseDown.
    destruct (match gameMode s, currentPlayer s with ONLINE_HOST, TWO => true | _, _ => false end);
      [now split|].
    destruct (match gameMode s, currentPlayer s with ONLINE_CLIENT, ONE => true | _, _ => false end);
      [now split|].
    destruct (_ || _); [now split|].
    destruct (showColorSelection s) eqn:Es.
    + destruct (find _ (ballsRef s)) as [b|]; [|now split].
      cbn [fst]. apply handleColorSelect_frame.
    + destruct H as [H|H]; [discriminate|]. rewrite H.
      destruct touch; now split.
Qed.

Lemma vecDist_ge (p q : Vector2) (d : R) :
  0 <= d ->
  d * d <= (x p - x q) * (x p - x q) + (y p - y q) * (y p - y q) ->
  d <= vecDist p q.
Proof.
  intros Hd H. unfold vecDist, vecSub, vecLen. cbn [x y].
  rewrite <- (sqrt_square d) by exact Hd. now apply sqrt_le_1_alt.
Qed.

Lemma handleMouseDown_legal_spots_only_witness :
  takesClicks idleControls (ballInHandGame ONE) /\
  ballInHand (ballInHandGame ONE) = true /\
  cuePlacedAt (ballInHandGame ONE)
    (fst (fst (handleMouseDown false (mkVec 140 220) idleControls (ballInHandGame ONE))))
    0 cueInPocket (mkVec 140 220).
Proof.
  assert (Hl : takesClicks idleControls (ballInHandGame ONE)).
  { unfold takesClicks. cbn. repeat split; try reflexivity; try discriminate;
      intros [H _]; discriminate H. }
  assert (Hc : cueBallAt (ballsRef (ballInHandGame ONE)) 0 cueInPocket) by (split; reflexivity).
  split; [exact Hl|]. split; [reflexivity|].
  destruct (proj1 (proj2 (handleMouseDown_legal_spots_only false (mkVec 140 220) idleControls
                            (ballInHandGame ONE))) Hl eq_refl eq_refl) as (_ & _ & _ & Hput).
  apply (Hput 0%nat cueInPocket Hc).
  split; [unfold BAULK_X; cbn [x]; lra|]. split.
  - pose proof spot_140_220_inTheD as [_ H]. lra.
  - intros b Hin Hp Ht. cbn [ballsRef ballInHandGame In] in Hin.
    destruct Hin as [<-|[<-|[<-|[<-|[]]]]]; try discriminate Hp; try (now contradiction Ht).
    + apply vecDist_ge; cbn [x y pos yellowOnSpot];
        unfold BALL_RADIUS, BAULK_X, CENTER_Y, D_RADIUS; lra.
    + apply vecDist_ge; cbn [x y pos redOnTable]; unfold BALL_RADIUS; lra.
Defined.

(** The candidate of an attempt: a point of the disc of radius [D_RADIUS]
    around the brown spot. *)
Lemma candidate_distance (u1 theta : R) :
  0 <= u1 <= 1 ->
  vecDist (mkVec (BAULK_X + sqrt u1 * D_RADIUS * cos theta)
                 (CENTER_Y + sqrt u1 * D_RADIUS * sin theta))
          (mkVec BAULK_X CENTER_Y) <= D_RADIUS.
Proof.
  intros [H0 H1]. unfold vecDist, vecSub, vecLen. cbn [x y].
  set (r := sqrt u1 * D_RADIUS).
  assert (Hr0 : 0 <= r).
  { unfold r, D_RADIUS. apply Rmult_le_pos; [apply sqrt_pos | lra]. }
  assert (Hr1 : r <= D_RADIUS).
  { unfold r. rewrite <- (Rmult_1_l D_RADIUS) at 2.
    apply Rmult_le_compat_r; [unfold D_RADIUS; lra|].
    rewrite <- sqrt_1. apply sqrt_le_1_alt. exact H1. }
  replace ((BAULK_X + r * cos theta - BAULK_X) * (BAULK_X + r * cos theta - BAULK_X)
           + (CENTER_Y + r * sin theta - CENTER_Y) * (CENTER_Y + r * sin theta - CENTER_Y))
    with (r * r).
  - rewrite sqrt_square by exact Hr0. exact Hr1.
  - pose proof (sin2_cos2 theta) as H. unfold Rsqr in H.
    replace (BAULK_X + r * cos theta - BAULK_X) with (r * cos theta) by ring.
    replace (CENTER_Y + r * sin theta - CENTER_Y) with (r * sin theta) by ring.
    replace (r * cos theta * (r * cos theta) + r * sin theta * (r * sin theta))
      with (r * r * (sin theta * sin theta + cos theta * cos theta)) by ring.
    rewrite H. ring.
Qed.

Lemma aiPlaceLoop_some (remaining attempts : nat) (rnd : nat -> R * R) (s s' : Game) :
  (forall n, 0 <= fst (rnd n) <= 1) ->
  aiPlaceLoop remaining attempts rnd s = Some s' ->
  exists p, putCueBall p s = Some s' /\ inTheD p /\ clearOfObjects (ballsRef s) p.
Proof.
  intros Hrnd. revert attempts.
  induction remaining as [|k IH]; intros attempts H; cbn [aiPlaceLoop] in H; [discriminate|].
  cbv zeta in H.
  set (p := mkVec (BAULK_X + sqrt (fst (rnd attempts)) * D_RADIUS
                               * cos (snd (rnd attempts) * PI + PI / 2))
                  (CENTER_Y + sqrt (fst (rnd attempts)) * D_RADIUS
                                * sin (snd (rnd attempts) * PI + PI / 2))) in *.
  destruct (negb (overlapsObject (ballsRef s) p)
            && Rleb (BAULK_X + sqrt (fst (rnd attempts)) * D_RADIUS
                                * cos (snd (rnd attempts) * PI + PI / 2)) BAULK_X) eqn:Ea;
    [|exact (IH _ H)].
  destruct (putCueBall p s) as [s1|] eqn:Ep; [|exact (IH _ H)].
  inversion H; subst s1. exists p. split; [exact Ep|].
  apply andb_true_iff in Ea as [Eo Ex]. apply negb_true_iff in Eo.
  apply Rleb_true in Ex. split.
  - split; [exact Ex | apply candidate_distance, Hrnd].
  - now apply overlapsObject_false.
Qed.

(** X20. The machine always puts the cue ball in the D.  When a frame is
    being played, it is the machine's turn with the cue ball in hand, no
    colour is being chosen, no foul decision is due and input is not blocked,
    then whatever numbers [Math.random] draws from [0, 1] the placement leaves
    the cue ball on the table, at rest, at a point of the D, moves no other
    ball and ends ball in hand; the point is clear of every object ball
    unless all 50 attempts failed, when it is the fall-back point (150, 200).
    In every other situation no placement is scheduled. *)
Theorem aiPlaceBall_in_the_D :
  forall (c : Controls) (rnd : nat -> R * R) (s : Game),
    (aiPlaces c s ->
     forall (i : nat) (cue : Ball),
       cueBallAt (ballsRef s) i cue ->
       (forall n, 0 <= fst (rnd n) <= 1) ->
       exists s' p,
         aiPlaceBall c rnd s = Some s' /\
         cuePlacedAt s s' i cue p /\ inTheD p /\
         (clearOfObjects (ballsRef s) p \/ p = mkVec (BAULK_X - 20) CENTER_Y)) /\
    (~ aiPlaces c s -> aiPlaceBall c rnd s = None).
Proof.
  intros c rnd s. split.
  - intros (Hg & Hsel & Hfd & Hib & Hp & Hh) i cue Hc Hrnd.
    unfold aiPlaceBall. rewrite Hg, Hsel, Hfd, Hib, Hp, Hh. cbn [orb andb].
    destruct (aiPlaceLoop 50 0 rnd s) as [s'|] eqn:El.
    + destruct (aiPlaceLoop_some 50 0 rnd s s' Hrnd El) as (p & Hput & Hd & Hclear).
      destruct (putCueBall_placed p s i cue Hc) as (s2 & Hput2 & Hplaced).
      rewrite Hput in Hput2. inversion Hput2; subst s2.
      exists s', p. split; [reflexivity|]. split; [exact Hplaced|]. split; [exact Hd|].
      now left.
    + destruct (putCueBall_placed (mkVec (BAULK_X - 20) CENTER_Y) s i cue Hc)
        as (s2 & Hput2 & Hplaced).
      rewrite Hput2. exists s2, (mkVec (BAULK_X - 20) CENTER_Y).
      split; [reflexivity|]. split; [exact Hplaced|]. split; [|now right].
      unfold inTheD, BAULK_X, CENTER_Y, D_RADIUS, vecDist, vecSub, vecLen. cbn [x y].
      split; [lra|].
      replace 60 with (sqrt (60 * 60)) by (apply sqrt_square; lra).
      apply sqrt_le_1_alt. lra.
  - intros Hnot. unfold aiPlaceBall.
    destruct (match gameState s with PLAYING => false | _ => true end
              || showColorSelection s || foulDecisionNeeded s || isInputBlocked c) eqn:E1;
      [reflexivity|].
    destruct (match currentPlayer s with AI => true | _ => false end && ballInHand s) eqn:E2;
      [|reflexivity].
    exfalso. apply Hnot.
    apply orb_false_iff in E1 as [E1 Hib]. apply orb_false_iff in E1 as [E1 Hfd].
    apply orb_false_iff in E1 as [Hg Hsel]. apply andb_true_iff in E2 as [Hp Hh].
    unfold aiPlaces. repeat split; try assumption.
    + destruct (gameState s); try discriminate; reflexivity.
    + destruct (currentPlayer s); try discriminate; reflexivity.
Qed.

Lemma aiPlaceBall_in_the_D_witness :
  aiPlaces idleControls (ballInHandGame AI) /\
  exists s' p,
    aiPlaceBall idleControls (fun _ => (0, 0)) (ballInHandGame AI) = Some s' /\
    cuePlacedAt (ballInHandGame AI) s' 0 cueInPocket p /\ inTheD p.
Proof.
  assert (Ha : aiPlaces idleControls (ballInHandGame AI)) by (repeat split; reflexivity).
  assert (Hc : cueBallAt (ballsRef (ballInHandGame AI)) 0 cueInPocket) by (split; reflexivity).
  split; [exact Ha|].
  destruct (proj1 (aiPlaceBall_in_the_D idleControls (fun _ => (0, 0)) (ballInHandGame AI))
              Ha 0%nat cueInPocket Hc) as (s' & p & He & Hp & Hd & _).
  - intros n. cbn [fst]. lra.
  - exists s', p. split; [exact He|]. split; [exact Hp | exact Hd].
Defined.

(** ** The physics branch of the loop *)

Lemma allAtRest_not_moving (balls : list Ball) :
  allAtRest balls -> existsb (fun b => Rltb 0.05 (vecLen (vel b))) balls = false.
Proof.
  unfold allAtRest. induction 1 as [|b l Hb _ IH]; [reflexivity|].
  cbn [existsb]. rewrite IH, Hb, vecLen_zero. rewrite orb_false_r. apply Rltb_false. lra.
Qed.

Lemma not_moving_slow (balls : list Ball) :
  existsb (fun b => Rltb 0.05 (vecLen (vel b))) balls = false ->
  Forall (fun b => vecLen (vel b) <= 0.05) balls.
Proof.
  induction balls as [|b l IH]; cbn [existsb]; intros H; constructor.
  - apply orb_false_iff in H as [H _]. apply Rltb_false in H. lra.
  - apply IH. now apply orb_false_iff in H as [_ H].
Qed.

Lemma slow_not_moving (balls : list Ball) :
  Forall (fun b => vecLen (vel b) <= 0.05) balls ->
  existsb (fun b => Rltb 0.05 (vecLen (vel b))) balls = false.
Proof.
  induction 1 as [|b l Hb _ IH]; [reflexivity|].
  cbn [existsb]. rewrite IH, orb_false_r. now apply Rltb_false.
Qed.

(** X21. No shot lasts for ever.  A frame hands the balls of the table to
    [updatePhysics] for the time of the frame, capped at 0.1 s, with every
    ball stopped first once a shot is in progress and the turn timer,
    advanced by that time, has passed 20 s; it stores the balls that
    [updatePhysics] returns and runs the callbacks of the call on the turn
    status.  The frame ends the turn exactly when a shot is in progress and
    none of the returned balls is faster than 0.05: the state is then what
    [handleTurnEnd] makes of the stored one, and otherwise it is the stored
    one.  Past 20 s the returned balls are all at rest and the turn ends at
    once. *)
Theorem physicsFrame_ends_the_turn :
  forall (wasMoving : bool) (dt turnTimer : R) (s : Game),
    let timer := if wasMoving then turnTimer + Rmin dt 0.1 else turnTimer in
    let balls :=
      if wasMoving && Rltb 20.0 timer
      then map (fun b => set_vel b zeroVec) (ballsRef s)
      else ballsRef s in
    let w := updatePhysics balls TABLE_CONFIG (spin_ s) (Rmin dt 0.1) true in
    let g := setTurnStatusRef (runCallbacks (store w) (trace w) (turnStatusRef s))
               (set_ballsRef (store w) s) in
    let r := physicsFrame wasMoving dt turnTimer s in
    snd (fst r) = timer /\
    (snd r = true <->
     wasMoving = true /\ Forall (fun b => vecLen (vel b) <= 0.05) (store w)) /\
    (snd r = true -> fst (fst r) = handleTurnEnd g) /\
    (snd r = false -> fst (fst r) = g) /\
    (wasMoving = true -> 20 < timer -> allAtRest (store w) /\ snd r = true).
Proof.
  intros wasMoving dt turnTimer s timer balls w g r.
  assert (Hdt : (if Rltb 0.1 dt then 0.1 else dt) = Rmin dt 0.1).
  { unfold Rmin. destruct (Rltb 0.1 dt) eqn:E.
    - apply Rltb_true in E. destruct (Rle_dec dt 0.1); lra.
    - apply Rltb_false in E. destruct (Rle_dec dt 0.1); lra. }
  assert (Hr : r = if wasMoving
                      && negb (existsb (fun b => Rltb 0.05 (vecLen (vel b))) (store w))
                   then (handleTurnEnd g, timer, true) else (g, timer, false)).
  { unfold r, physicsFrame. cbv zeta. rewrite Hdt. reflexivity. }
  assert (Hrest : wasMoving = true -> 20 < timer -> allAtRest (store w)).
  { intros Hm Hlate. unfold w, updatePhysics. cbv zeta. unfold on_store. cbn [store].
    apply friction_rest, iter_subStep_rest. cbn [store]. unfold balls.
    assert (Ht : Rltb 20.0 timer = true) by (apply Rltb_true; lra).
    rewrite Hm, Ht. cbn [andb]. unfold allAtRest. apply Forall_map. apply Forall_forall.
    intros b _. reflexivity. }
  clearbody r g w. rewrite Hr. clear Hr.
  destruct wasMoving; cbn [andb].
  - destruct (existsb _ (store w)) eqn:Em; cbn [negb snd fst].
    + split; [reflexivity|]. split.
      * split; [discriminate|]. intros [_ Hs]. apply slow_not_moving in Hs. congruence.
      * split; [discriminate|]. split; [reflexivity|].
        intros _ Hlate. specialize (Hrest eq_refl Hlate).
        apply allAtRest_not_moving in Hrest. congruence.
    + split; [reflexivity|]. split.
      * split; [|reflexivity]. intros _. split; [reflexivity|]. now apply not_moving_slow.
      * split; [reflexivity|]. split; [discriminate|]. intros _ Hlate. split; auto.
  - cbn [snd fst]. split; [reflexivity|]. split.
    + split; [discriminate|]. intros [H _]. discriminate H.
    + split; [discriminate|]. split; [reflexivity|]. discriminate.
Qed.

Lemma physicsFrame_ends_the_turn_witness :
  allAtRest (store (updatePhysics (map (fun b => set_vel b zeroVec) (ballsRef frozenBallGame))
                      TABLE_CONFIG (spin_ frozenBallGame) (Rmin 0.5 0.1) true)) /\
  snd (physicsFrame true 0.5 19.95 frozenBallGame) = true /\
  snd (fst (physicsFrame true 0.5 19.95 frozenBallGame)) = 19.95 + Rmin 0.5 0.1 /\
  fst (fst (physicsFrame true 0.5 19.95 frozenBallGame))
  = handleTurnEnd
      (setTurnStatusRef
         (runCallbacks
            (store (updatePhysics (map (fun b => set_vel b zeroVec) (ballsRef frozenBallGame))
                      TABLE_CONFIG (spin_ frozenBallGame) (Rmin 0.5 0.1) true))
            (trace (updatePhysics (map (fun b => set_vel b zeroVec) (ballsRef frozenBallGame))
                      TABLE_CONFIG (spin_ frozenBallGame) (Rmin 0.5 0.1) true))
            (turnStatusRef frozenBallGame))
         (set_ballsRef
            (store (updatePhysics (map (fun b => set_vel b zeroVec) (ballsRef frozenBallGame))
                      TABLE_CONFIG (spin_ frozenBallGame) (Rmin 0.5 0.1) true))
            frozenBallGame)).
Proof.
  assert (Hlate : 20 < 19.95 + Rmin 0.5 0.1).
  { unfold Rmin. destruct (Rle_dec 0.5 0.1); lra. }
  pose proof (physicsFrame_ends_the_turn true 0.5 19.95 frozenBallGame) as H.
  cbv zeta in H. cbn [andb] in H.
  replace (Rltb 20.0 (19.95 + Rmin 0.5 0.1)) with true in H
    by (symmetry; apply Rltb_true; lra).
  destruct H as (Ht & _ & Hturn & _ & Hsafe).
  destruct (Hsafe eq_refl Hlate) as [Hrest Hend].
  split; [exact Hrest|]. split; [exact Hend|]. split; [exact Ht|]. exact (Hturn Hend).
Defined.

(** ** The aiming guide *)

Lemma within_along (startPos dir : Vector2) (table : TableConfig) (wall d : R) :
  withinCushions table BALL_RADIUS startPos ->
  nearestWall startPos dir table wall ->
  0 <= d <= wall ->
  withinCushions table BALL_RADIUS (vecAdd startPos (vecMult dir d)).
Proof.
  intros [[Hx0 Hx1] [Hy0 Hy1]] [_ Hmin] [Hd0 Hd1].
  unfold withinCushions, vecAdd, vecMult. cbn [x y].
  assert (Hax : forall s dx lo hi,
            lo <= s <= hi ->
            (0 < dx -> wall <= (hi - s) / dx) ->
            (dx < 0 -> wall <= (lo - s) / dx) ->
            lo <= s + dx * d <= hi).
  { intros s dx lo hi [Hlo Hhi] Hpos Hneg.
    destruct (Rtotal_order dx 0) as [Hn|[Hz|Hp]].
    - specialize (Hneg Hn).
      assert (Hb : dx * ((lo - s) / dx) = lo - s) by (field; lra).
      set (q := (lo - s) / dx) in *.
      assert (0 <= (q - d) * (- dx)) by (apply Rmult_le_pos; lra).
      assert (0 <= d * (- dx)) by (apply Rmult_le_pos; lra).
      lra.
    - subst dx. lra.
    - specialize (Hpos Hp).
      assert (Hb : dx * ((hi - s) / dx) = hi - s) by (field; lra).
      set (q := (hi - s) / dx) in *.
      assert (0 <= (q - d) * dx) by (apply Rmult_le_pos; lra).
      assert (0 <= d * dx) by (apply Rmult_le_pos; lra).
      lra. }
  split.
  - apply Hax; [lra | |]; intros Hs; apply Hmin.
    + left. split; [exact Hs|]. apply reach_exact. lra.
    + right; left. split; [exact Hs|]. apply reach_exact. lra.
  - apply Hax; [lra | |]; intros Hs; apply Hmin.
    + right; right; left. split; [exact Hs|]. apply reach_exact. lra.
    + right; right; right. split; [exact Hs|]. apply reach_exact. lra.
Qed.

Lemma nearestWall_nonneg (startPos dir : Vector2) (table : TableConfig) (wall : R) :
  withinCushions table BALL_RADIUS startPos ->
  nearestWall startPos dir table wall -> 0 <= wall.
Proof.
  intros [[Hx0 Hx1] [Hy0 Hy1]] [Hreach _].
  destruct Hreach as [[Hs H]|[[Hs H]|[[Hs H]|[Hs H]]]];
    [ rewrite (reach_unique _ _ _ _ (Rgt_not_eq _ _ Hs) H)
    | rewrite (reach_unique _ _ _ _ (Rlt_not_eq _ _ Hs) H)
    | rewrite (reach_unique _ _ _ _ (Rgt_not_eq _ _ Hs) H)
    | rewrite (reach_unique _ _ _ _ (Rlt_not_eq _ _ Hs) H) ].
  - apply Rmult_le_pos; [lra | left; now apply Rinv_0_lt_compat].
  - replace ((cushionWidth table + BALL_RADIUS - x startPos) / x dir)
      with ((x startPos - (cushionWidth table + BALL_RADIUS)) / - x dir) by (field; lra).
    apply Rmult_le_pos; [lra | left; apply Rinv_0_lt_compat; lra].
  - apply Rmult_le_pos; [lra | left; now apply Rinv_0_lt_compat].
  - replace ((cushionWidth table + BALL_RADIUS - y startPos) / y dir)
      with ((y startPos - (cushionWidth table + BALL_RADIUS)) / - y dir) by (field; lra).
    apply Rmult_le_pos; [lra | left; apply Rinv_0_lt_compat; lra].
Qed.

(** X22. The guide stays on the table and the ghost ball touches a ball.
    From a start point within the cushions and for a direction that is not
    zero, the path that [calculatePreciseTrajectory] returns ends at a point
    within the cushions; and when it shows a ghost ball, the ghost ball is at
    that end point, exactly two ball radii from the centre of an object ball
    that is on the table. *)
Theorem calculatePreciseTrajectory_stays_on_table :
  forall (startPos direction : Vector2) (balls : list Ball) (table : TableConfig),
    direction <> mkVec 0 0 ->
    withinCushions table BALL_RADIUS startPos ->
    exists p : Vector2,
      points (calculatePreciseTrajectory startPos direction balls table)
      = [At startPos; At p] /\
      withinCushions table BALL_RADIUS p /\
      (ghostBall (calculatePreciseTrajectory startPos direction balls table) = None \/
       (ghostBall (calculatePreciseTrajectory startPos direction balls table) = Some (At p) /\
        exists b, In b balls /\ type b <> CUE /\ potted b = false /\
                  vecDist p (pos b) = 2 * BALL_RADIUS)).
Proof.
  intros startPos direction balls table Hnz Hin.
  pose proof (vecNorm_unit direction Hnz) as Hu.
  set (dir := vecNorm direction) in *.
  destruct (wallDistance_nearest startPos dir table (unit_has_component dir Hu))
    as [wall [Hw Hnear]].
  pose proof (nearestWall_nonneg _ _ _ _ Hin Hnear) as Hwall.
  unfold calculatePreciseTrajectory. fold dir. rewrite Hw. unfold closestHit.
  destruct (closestHit_fold startPos dir balls (Infinity, None)) as (_ & _ & Hsrc).
  cbv zeta in Hsrc. cbn [fst] in Hsrc.
  destruct Hsrc as [Hr|(b & t & Hb & He & Hr)]; rewrite Hr; cbn [Dmin Dltb points ghostBall].
  - exists (vecAdd startPos (vecMult dir wall)). split; [reflexivity|].
    split; [|now left]. apply (within_along _ _ _ wall); [assumption..|lra].
  - destruct (entryDistance_some startPos dir b t Hu He) as ((Ht & Hp & _) & (Hpos & Hmeet) & _).
    exists (vecAdd startPos (vecMult dir (Rmin wall t))). split; [reflexivity|].
    split.
    + apply (within_along _ _ _ wall); [assumption..|].
      split; [apply Rmin_glb; lra | apply Rmin_l].
    + destruct (Rltb t wall) eqn:El; [|now left].
      right. split; [reflexivity|]. apply Rltb_true in El.
      rewrite Rmin_right by lra. exists b. repeat split; assumption.
Qed.

Lemma calculatePreciseTrajectory_stays_on_table_witness :
  exists p : Vector2,
    points (calculatePreciseTrajectory (mkVec 150 230) (mkVec 1 0) [cueAtBreak] TABLE_CONFIG)
    = [At (mkVec 150 230); At p] /\
    withinCushions TABLE_CONFIG BALL_RADIUS p.
Proof.
  destruct (calculatePreciseTrajectory_stays_on_table (mkVec 150 230) (mkVec 1 0)
              [cueAtBreak] TABLE_CONFIG) as (p & Hp & Hw & _).
  - intros E. inversion E. lra.
  - unfold withinCushions, TABLE_CONFIG, TABLE_WIDTH, TABLE_HEIGHT, BALL_RADIUS.
    cbn [x y cushionWidth width height]. lra.
  - exists p. split; [exact Hp | exact Hw].
Defined.

Lemma entryDistance_zero_dir (startPos : Vector2) (b : Ball) :
  entryDistance startPos zeroVec b = None.
Proof.
  unfold entryDistance. destruct (BallType_eqb (type b) CUE || potted b); [reflexivity|].
  cbv zeta.
  replace (vecDot (vecSub startPos (pos b)) zeroVec) with 0
    by (unfold vecDot, zeroVec; cbn [x y]; ring).
  destruct (Rleb 0 _) eqn:Ed; [|reflexivity].
  match goal with
  | |- (if Rltb 0 ?t then _ else _) = _ => assert (Ht : Rltb 0 t = false)
  end.
  { apply Rltb_false.
    match goal with |- (- (2 * 0) - sqrt ?d) / (2 * 1) <= 0 => pose proof (sqrt_pos d) end.
    lra. }
  now rewrite Ht.
Qed.

Lemma closestHit_zero_dir (startPos : Vector2) (balls : list Ball) (acc : Dist * option Ball) :
  fold_left (hitStep startPos zeroVec) balls acc = acc.
Proof.
  revert acc. induction balls as [|b l IH]; intros acc; [reflexivity|].
  cbn [fold_left]. rewrite hitStep_entry, entryDistance_zero_dir. apply IH.
Qed.

(** X23. No direction, no guide.  For the zero direction
    [calculatePreciseTrajectory] finds no wall and no ball, wherever the start
    point and the balls are: the path is the start point followed by a point
    that is not a number, and there is no ghost ball. *)
Theorem calculatePreciseTrajectory_zero_direction :
  forall (startPos : Vector2) (balls : list Ball) (table : TableConfig),
    calculatePreciseTrajectory startPos (mkVec 0 0) balls table
    = mkTrajectory [At startPos; NaNPoint] None 1.
Proof.
  intros startPos balls table. unfold calculatePreciseTrajectory.
  change (mkVec 0 0) with zeroVec. rewrite vecNorm_zero.
  unfold closestHit. rewrite closestHit_zero_dir.
  assert (Hw : wallDistance startPos zeroVec table = Infinity).
  { unfold wallDistance, zeroVec. cbn [x y].
    assert (H0 : Rltb 0 0 = false) by (apply Rltb_false; lra).
    now rewrite H0. }
  rewrite Hw. reflexivity.
Qed.

(** ** The machine's aim *)

Lemma vecLen_rotate (v : Vector2) (a : R) : vecLen (rotate v a) = vecLen v.
Proof.
  unfold vecLen, rotate. cbn [x y]. f_equal.
  pose proof (sin2_cos2 a) as H. unfold Rsqr in H.
  replace ((x v * cos a - y v * sin a) * (x v * cos a - y v * sin a)
           + (x v * sin a + y v * cos a) * (x v * sin a + y v * cos a))
    with ((x v * x v + y v * y v) * (sin a * sin a + cos a * cos a)) by ring.
  rewrite H. ring.
Qed.

Lemma rotate_zero (a : R) : rotate zeroVec a = zeroVec.
Proof. unfold rotate, zeroVec. cbn [x y]. f_equal; ring. Qed.

Lemma rotate_vecNorm (u : Vector2) (a : R) :
  rotate (vecNorm u) a = zeroVec \/ vecLen (rotate (vecNorm u) a) = 1.
Proof.
  destruct (Req_dec_T (vecLen u) 0) as [H|H].
  - left. apply vecLen_eq_0 in H. subst u. rewrite vecNorm_zero. apply rotate_zero.
  - right. rewrite vecLen_rotate. apply vecLen_vecNorm.
    intros E. apply H. rewrite E. apply vecLen_zero.
Qed.

Lemma furthestTarget_some (cueBall : Ball) (l : list Ball) :
  l <> [] -> exists t, furthestTarget cueBall l = Some t /\ In t l.
Proof.
  intros Hl. unfold furthestTarget.
  assert (Hinv : forall (l' : list Ball) (acc : option Ball * R),
            (forall t, In t l' -> In t l) ->
            (exists t, fst acc = Some t /\ In t l) ->
            exists t,
              fst (fold_left (fun (acc : option Ball * R) t =>
                                let d := vecDist (pos t) (pos cueBall) in
                                if Rltb (snd acc) d then (Some t, d) else acc) l' acc)
              = Some t /\ In t l).
  { induction l' as [|b l' IH]; intros acc Hsub Hacc; [exact Hacc|].
    cbn [fold_left]. apply IH; [intros t Ht; apply Hsub; now right|].
    cbv zeta. destruct (Rltb _ _); [|exact Hacc].
    exists b. split; [reflexivity | apply Hsub; now left]. }
  apply Hinv; [auto|].
  destruct l as [|b l]; [contradiction|]. exists b. split; [reflexivity | now left].
Qed.

Lemma aiTargets_nonempty (balls : list Ball) (target : TargetState) :
  (exists b, In b balls /\ potted b = false /\ type b <> CUE) ->
  aiTargets balls target <> [].
Proof.
  intros (b & Hin & Hp & Ht). unfold aiTargets. cbv zeta.
  set (A := filter (fun b => negb (potted b) && negb (BallType_eqb (type b) CUE)) balls).
  assert (HA : In b A).
  { unfold A. apply filter_In. split; [exact Hin|].
    apply BallType_eqb_neq in Ht. now rewrite Hp, Ht. }
  destruct A as [|a A']; [contradiction|].
  match goal with
  | |- match ?l with _ => _ end <> _ => destruct l; discriminate
  end.
Qed.

(** The aim: the direction chosen, turned by the error angle. *)
Lemma calculateAIShot_aim (cueBall : Ball) (balls : list Ball) (table : TableConfig)
    (difficulty : Difficulty) (target : TargetState) (rnd : Draws) :
  aiTargets balls target <> [] ->
  exists u a, aimDir (calculateAIShot cueBall balls table difficulty target rnd)
              = rotate (vecNorm u) a.
Proof.
  intros Hne. unfold calculateAIShot. cbv zeta. fold (aiTargets balls target).
  destruct (furthestTarget_some cueBall (aiTargets balls target) Hne) as (t & Ht & _).
  rewrite Ht.
  destruct (findBestPot cueBall table (aiTargets balls target)) as [best|];
    [destruct (Rltb _ (confidence best))|];
    destruct difficulty; cbn [aimDir]; eexists; eexists; reflexivity.
Qed.

(** X24. The machine aims with a unit vector.  Whenever an object ball is
    on the table, the aim that [calculateAIShot] returns has length 1, the
    error angle turning it without stretching it, or is the zero vector, when
    the point aimed at is the centre of the cue ball. *)
Theorem calculateAIShot_aim_is_unit :
  forall (cueBall : Ball) (balls : list Ball) (table : TableConfig)
         (difficulty : Difficulty) (target : TargetState) (rnd : Draws),
    (exists b, In b balls /\ potted b = false /\ type b <> CUE) ->
    aimDir (calculateAIShot cueBall balls table difficulty target rnd) = zeroVec \/
    vecLen (aimDir (calculateAIShot cueBall balls table difficulty target rnd)) = 1.
Proof.
  intros cueBall balls table difficulty target rnd Hon.
  destruct (calculateAIShot_aim cueBall balls table difficulty target rnd
              (aiTargets_nonempty balls target Hon)) as (u & a & ->).
  apply rotate_vecNorm.
Qed.

Lemma calculateAIShot_aim_is_unit_witness :
  aimDir (calculateAIShot cueAtBreak [cueAtBreak; redOnTable] TABLE_CONFIG HARD (TType RED)
            (mkDraws 0 0 0 0 0)) = zeroVec \/
  vecLen (aimDir (calculateAIShot cueAtBreak [cueAtBreak; redOnTable] TABLE_CONFIG HARD
                    (TType RED) (mkDraws 0 0 0 0 0))) = 1.
Proof.
  apply calculateAIShot_aim_is_unit.
  exists redOnTable. split; [simpl; auto|]. split; [reflexivity | discriminate].
Defined.

(** ** The colour to nominate *)

Lemma colourOnTable_filter (balls : list Ball) (b : Ball) :
  In b (filter (fun b => negb (potted b) && negb (BallType_eqb (type b) CUE)
                         && negb (BallType_eqb (type b) RED)) balls)
  <-> colourOnTable balls b.
Proof.
  unfold colourOnTable. rewrite filter_In, !andb_true_iff, !negb_true_iff,
    !BallType_eqb_neq. tauto.
Qed.

(** The loop keeps the first ball of the highest score seen so far. *)
Lemma pickStep_fold (fl : Ball -> Vector2 -> R -> R) (cueBall : Ball) (table : TableConfig)
    (l : list Ball) :
  forall (h : R) (b : Ball),
    colorScore fl cueBall table b = h ->
    exists b',
      fold_left (pickStep fl cueBall table) l (Some h, type b)
      = (Some (colorScore fl cueBall table b'), type b') /\
      (b' = b \/ In b' l) /\
      colorScore fl cueBall table b <= colorScore fl cueBall table b' /\
      forall c, In c l -> colorScore fl cueBall table c <= colorScore fl cueBall table b'.
Proof.
  induction l as [|a l IH]; intros h b Hb.
  - exists b. subst h. repeat split; auto; [lra | intros c []].
  - cbn [fold_left]. unfold pickStep at 2. cbv zeta. cbn [fst].
    destruct (Rltb h (colorScore fl cueBall table a)) eqn:E.
    + apply Rltb_true in E.
      destruct (IH (colorScore fl cueBall table a) a eq_refl) as (b' & Hf & Hin & Hle & Hall).
      exists b'. split; [exact Hf|]. split; [right; destruct Hin as [->|Hin]; [now left | now right]|].
      split; [lra|]. intros c [<-|Hc]; [exact Hle | now apply Hall].
    + apply Rltb_false in E.
      destruct (IH h b Hb) as (b' & Hf & Hin & Hle & Hall).
      exists b'. split; [exact Hf|]. split; [destruct Hin as [->|Hin]; [now left | right; now right]|].
      split; [exact Hle|]. intros c [<-|Hc]; [lra | now apply Hall].
Qed.

(** A colour in a straight line with the cue ball and the first pocket, the
    cosine of the cut not rounded above 1, scores 2000 less its distance. *)
Lemma colorScore_straight (cueBall b : Ball) (table : TableConfig) (d : Vector2) :
  vecNorm (vecSub (pos b) (pos cueBall)) = d ->
  vecNorm (vecSub (mkVec (cushionWidth table) (cushionWidth table)) (pos b)) = d ->
  vecDot d d = 1 ->
  colorScore noRounding cueBall table b = 2000 - vecDist (pos cueBall) (pos b).
Proof.
  intros H1 H2 Hd. unfold colorScore, nominationPockets. cbv zeta. cbn [pottableScore].
  rewrite H1, H2. unfold noRounding. rewrite Hd. unfold Math_acos.
  replace (Rleb (-1) 1) with true by (symmetry; apply Rleb_true; lra).
  replace (Rleb 1 1) with true by (symmetry; apply Rleb_true; lra).
  cbn [andb]. rewrite acos_1.
  replace (Rltb 0 1.0) with true by (symmetry; apply Rltb_true; lra).
  lra.
Qed.

Lemma vecLen_3_4 (k : R) : 0 <= k -> vecLen (mkVec (- (3 * k)) (- (4 * k))) = 5 * k.
Proof.
  intros Hk. unfold vecLen. cbn [x y].
  replace (- (3 * k) * - (3 * k) + - (4 * k) * - (4 * k)) with ((5 * k) * (5 * k)) by ring.
  apply sqrt_square. lra.
Qed.

Lemma vecNorm_3_4 (k : R) : 0 < k -> vecNorm (mkVec (- (3 * k)) (- (4 * k))) = mkVec (-0.6) (-0.8).
Proof.
  intros Hk. rewrite vecNorm_nonzero by (intros E; inversion E; lra).
  rewrite vecLen_3_4 by lra. cbn [x y].
  assert (H3 : - (3 * k) / (5 * k) = - (3 / 5)) by (field; lra).
  assert (H4 : - (4 * k) / (5 * k) = - (4 / 5)) by (field; lra).
  rewrite H3, H4. f_equal; lra.
Qed.

(** X25. [pickBestColor] nominates a colour that is there and scores best.
    However the cosines of the cut angles are rounded, even above 1, where
    [Math.acos] answers NaN and the pocket is passed over: without a colour on
    the table the answer is BLACK; otherwise it is the type of a colour ball
    on the table, never the cue ball or a red, whose score is at least that
    of every colour on the table. *)
Theorem pickBestColor_best_colour :
  forall (fl : Ball -> Vector2 -> R -> R) (cueBall : Ball) (balls : list Ball)
         (table : TableConfig),
    ((forall b, ~ colourOnTable balls b) -> pickBestColor fl cueBall balls table = BLACK) /\
    ((exists b, colourOnTable balls b) ->
       exists b, colourOnTable balls b /\
                 pickBestColor fl cueBall balls table = type b /\
                 forall c, colourOnTable balls c ->
                           colorScore fl cueBall table c <= colorScore fl cueBall table b).
Proof.
  intros fl cueBall balls table. unfold pickBestColor. cbv zeta.
  pose proof (colourOnTable_filter balls) as Hf.
  destruct (filter _ balls) as [|b0 rest] eqn:El.
  - split; [reflexivity|]. intros [b Hb]. apply Hf in Hb. contradiction.
  - split.
    + intros Hno. exfalso. apply (Hno b0), Hf. now left.
    + intros _. cbn [fold_left]. unfold pickStep at 2. cbv zeta. cbn [fst].
      destruct (pickStep_fold fl cueBall table rest (colorScore fl cueBall table b0) b0 eq_refl)
        as (b' & Hfold & Hin & Hle & Hall).
      rewrite Hfold. cbn [snd]. exists b'. split.
      * apply Hf. destruct Hin as [->|Hin]; [now left | now right].
      * split; [reflexivity|]. intros c Hc. apply Hf in Hc.
        destruct Hc as [<-|Hc]; [exact Hle | now apply Hall].
Qed.

Lemma pickBestColor_best_colour_witness :
  colourOnTable [cueOnLine; redOnTable; greenOnLine; yellowOnLine; pottedBrown] yellowOnLine /\
  pickBestColor noRounding cueOnLine
    [cueOnLine; redOnTable; greenOnLine; yellowOnLine; pottedBrown] TABLE_CONFIG = YELLOW.
Proof.
  assert (Hy : colourOnTable [cueOnLine; redOnTable; greenOnLine; yellowOnLine; pottedBrown]
                 yellowOnLine).
  { split; [cbn [In]; tauto|]. repeat split; discriminate. }
  assert (Hg : colourOnTable [cueOnLine; redOnTable; greenOnLine; yellowOnLine; pottedBrown]
                 greenOnLine).
  { split; [cbn [In]; tauto|]. repeat split; discriminate. }
  assert (Hu : vecDot (mkVec (-0.6) (-0.8)) (mkVec (-0.6) (-0.8)) = 1)
    by (unfold vecDot; cbn [x y]; lra).
  assert (Sy : colorScore noRounding cueOnLine TABLE_CONFIG yellowOnLine = 1900).
  { rewrite (colorScore_straight _ _ _ (mkVec (-0.6) (-0.8))); [| | |exact Hu].
    - unfold vecDist, vecSub, cueOnLine, yellowOnLine. cbn [pos x y].
      unfold vecLen. cbn [x y].
      replace ((162 - 102) * (162 - 102) + (202 - 122) * (202 - 122)) with (100 * 100) by lra.
      rewrite sqrt_square by lra. lra.
    - unfold vecSub, cueOnLine, yellowOnLine. cbn [pos x y].
      replace (mkVec (102 - 162) (122 - 202)) with (mkVec (- (3 * 20)) (- (4 * 20)))
        by (f_equal; lra).
      apply vecNorm_3_4. lra.
    - unfold vecSub, yellowOnLine, TABLE_CONFIG. cbn [pos x y cushionWidth].
      replace (mkVec (42 - 102) (42 - 122)) with (mkVec (- (3 * 20)) (- (4 * 20)))
        by (f_equal; lra).
      apply vecNorm_3_4. lra. }
  assert (Sg : colorScore noRounding cueOnLine TABLE_CONFIG greenOnLine = 1850).
  { rewrite (colorScore_straight _ _ _ (mkVec (-0.6) (-0.8))); [| | |exact Hu].
    - unfold vecDist, vecSub, cueOnLine, greenOnLine. cbn [pos x y].
      unfold vecLen. cbn [x y].
      replace ((162 - 72) * (162 - 72) + (202 - 82) * (202 - 82)) with (150 * 150) by lra.
      rewrite sqrt_square by lra. lra.
    - unfold vecSub, cueOnLine, greenOnLine. cbn [pos x y].
      replace (mkVec (72 - 162) (82 - 202)) with (mkVec (- (3 * 30)) (- (4 * 30)))
        by (f_equal; lra).
      apply vecNorm_3_4. lra.
    - unfold vecSub, greenOnLine, TABLE_CONFIG. cbn [pos x y cushionWidth].
      replace (mkVec (42 - 72) (42 - 82)) with (mkVec (- (3 * 10)) (- (4 * 10)))
        by (f_equal; lra).
      apply vecNorm_3_4. lra. }
  split; [exact Hy|].
  destruct (proj2 (pickBestColor_best_colour noRounding cueOnLine
                     [cueOnLine; redOnTable; greenOnLine; yellowOnLine; pottedBrown]
                     TABLE_CONFIG) (ex_intro _ yellowOnLine Hy))
    as (b & (Hin & Hp & Hc & Hr) & Hres & Hbest).
  etransitivity; [exact Hres|].
  cbn [In] in Hin.
  destruct Hin as [<-|[<-|[<-|[<-|[<-|[]]]]]];
    [now contradiction Hc | now contradiction Hr | | reflexivity | discriminate Hp].
  exfalso. specialize (Hbest yellowOnLine Hy). rewrite Sy, Sg in Hbest. lra.
Defined.

(** ** The fixed-step accumulator *)

Lemma FIXED_DT_pos : 0 < FIXED_DT.
Proof. unfold FIXED_DT. lra. Qed.

Lemma MAX_FRAME_DT_steps : MAX_FRAME_DT = 8 * FIXED_DT.
Proof. unfold MAX_FRAME_DT, FIXED_DT. lra. Qed.

Lemma drain_ends (fuel : nat) :
  forall (acc : R) (steps : nat),
    0 <= acc < (INR fuel + 1) * FIXED_DT ->
    exists (acc' : R) (n : nat),
      drain fuel acc steps = Some (acc', (steps + n)%nat) /\
      (n <= fuel)%nat /\ 0 <= acc' < FIXED_DT /\ acc = INR n * FIXED_DT + acc'.
Proof.
  pose proof FIXED_DT_pos as HF.
  induction fuel as [|k IH]; intros acc steps [H0 H1].
  - cbn [INR] in H1. cbn [drain].
    assert (E : Rleb FIXED_DT acc = false) by (apply Rleb_false; lra).
    rewrite E. exists acc, O. rewrite Nat.add_0_r. cbn [INR].
    repeat split; try lra. lia.
  - cbn [drain]. destruct (Rleb FIXED_DT acc) eqn:E.
    + apply Rleb_true in E. rewrite S_INR in H1.
      destruct (IH (acc - FIXED_DT) (S steps)) as (acc' & n & Hd & Hn & Ha & He); [lra|].
      exists acc', (S n). rewrite Hd. rewrite S_INR.
      repeat split; try lra; try lia. f_equal. f_equal. lia.
    + apply Rleb_false in E. exists acc, O. rewrite Nat.add_0_r. cbn [INR].
      repeat split; try lra. lia.
Qed.

(** X26. The accumulator conserves time.  When the accumulator holds less
    than one fixed step and the clock has not gone back, a tick ends within 8
    iterations of its loop, whatever fuel above 8 it is given: it runs at most
    8 fixed steps, leaves less than one fixed step in the accumulator, and the
    time simulated plus the time left over is the time that was in the
    accumulator plus the time of the frame, capped at 1/15 s. *)
Theorem tick_conserves_time :
  forall (fuel : nat) (t : R) (r : LoopRefs),
    (8 <= fuel)%nat ->
    0 <= acc_current r < FIXED_DT ->
    last_current r = 0 \/ last_current r <= t ->
    exists (r' : LoopRefs) (n : nat),
      tick fuel true t r = Some (r', n) /\
      (n <= 8)%nat /\
      last_current r' = t /\
      0 <= acc_current r' < FIXED_DT /\
      acc_current r + frameTime t r = INR n * FIXED_DT + acc_current r'.
Proof.
  intros fuel t r Hfuel [Ha0 Ha1] Hclock.
  pose proof FIXED_DT_pos as HF. pose proof MAX_FRAME_DT_steps as HM.
  unfold tick, frameTime. cbn [negb]. cbv zeta.
  set (last0 := if Reqb (last_current r) 0 then t else last_current r).
  assert (Hl : 0 <= t - last0).
  { unfold last0. destruct (Reqb (last_current r) 0) eqn:E; [lra|].
    apply Reqb_false in E. destruct Hclock; [contradiction | lra]. }
  assert (Hf : (if Rltb MAX_FRAME_DT (t - last0) then MAX_FRAME_DT else t - last0)
               = Rmin (t - last0) MAX_FRAME_DT).
  { unfold Rmin. destruct (Rltb MAX_FRAME_DT (t - last0)) eqn:E.
    - apply Rltb_true in E. destruct (Rle_dec (t - last0) MAX_FRAME_DT); lra.
    - apply Rltb_false in E. destruct (Rle_dec (t - last0) MAX_FRAME_DT); lra. }
  rewrite Hf.
  set (fd := Rmin (t - last0) MAX_FRAME_DT).
  assert (Hfd : 0 <= fd <= 8 * FIXED_DT).
  { unfold fd. split; [apply Rmin_glb; lra | rewrite <- HM; apply Rmin_r]. }
  assert (Hsame : forall k, drain (8 + k) (acc_current r + fd) 0
                            = drain 8 (acc_current r + fd) 0).
  { intros k.
    destruct (drain_ends 8 (acc_current r + fd) 0) as (a8 & n8 & H8 & Hn8 & Hb8 & He8).
    { cbn [INR]. lra. }
    destruct (drain_ends (8 + k) (acc_current r + fd) 0) as (ak & nk & Hk & Hnk & Hbk & Hek).
    { rewrite plus_INR. cbn [INR]. pose proof (pos_INR k). nra. }
    rewrite H8, Hk.
    assert (Hn : nk = n8).
    { assert (Hd : INR nk * FIXED_DT + ak = INR n8 * FIXED_DT + a8) by lra.
      destruct (Nat.lt_trichotomy nk n8) as [Hlt|[Heq|Hgt]]; [|exact Heq|]; exfalso.
      - apply lt_INR in Hlt. assert (INR nk + 1 <= INR n8).
        { rewrite <- S_INR. apply le_INR. apply INR_lt in Hlt. lia. }
        nra.
      - apply lt_INR in Hgt. assert (INR n8 + 1 <= INR nk).
        { rewrite <- S_INR. apply le_INR. apply INR_lt in Hgt. lia. }
        nra. }
    subst nk. f_equal. f_equal. lra. }
  replace fuel with (8 + (fuel - 8))%nat by lia. rewrite Hsame.
  destruct (drain_ends 8 (acc_current r + fd) 0) as (a' & n & Hd & Hn & Hb & He).
  { cbn [INR]. lra. }
  rewrite Hd. cbn [Nat.add]. exists (mkLoopRefs t a'), n.
  cbn [last_current acc_current]. repeat split; try assumption; try lra.
Qed.

Lemma tick_conserves_time_witness :
  exists (r' : LoopRefs) (n : nat),
    tick 8 true 1020 (mkLoopRefs 1000 0) = Some (r', n) /\ (n <= 8)%nat.
Proof.
  destruct (tick_conserves_time 8 1020 (mkLoopRefs 1000 0)) as (r' & n & Ht & Hn & _).
  - lia.
  - cbn [acc_current]. pose proof FIXED_DT_pos. lra.
  - right. cbn [last_current]. lra.
  - exists r', n. split; assumption.
Defined.

(** ** Contacts: the law of restitution *)

(** X27. Balls in contact part at 92% of their closing speed.  For two
    overlapping balls with distinct centres, with no spin applied or no cue
    ball involved: when they approach along the line of centres, the
    contact reverses the relative velocity along that line and scales it by
    the restitution 0.92; when they are already parting, their velocities are
    left as they are. *)
Theorem collide_restitution :
  forall (spin : Spin) (b1 b2 : Ball),
    vecDist (pos b1) (pos b2) < radius b1 + radius b2 ->
    pos b1 <> pos b2 ->
    spin = mkVec 0 0 \/ (type b1 <> CUE /\ type b2 <> CUE) ->
    let n := vecNorm (vecSub (pos b1) (pos b2)) in
    let closing := vecDot (vecSub (vel b1) (vel b2)) n in
    let b1' := fst (fst (collide spin b1 b2)) in
    let b2' := snd (fst (collide spin b1 b2)) in
    (closing <= 0 ->
       vecDot (vecSub (vel b1') (vel b2')) n = - BALL_RESTITUTION * closing) /\
    (0 < closing -> vel b1' = vel b1 /\ vel b2' = vel b2).
Proof.
  intros spin b1 b2 Hd Hne Hs n closing b1' b2'.
  assert (Hnz : vecSub (pos b1) (pos b2) <> zeroVec).
  { intros E. apply Hne. destruct (pos b1) as [p1 q1], (pos b2) as [p2 q2].
    unfold vecSub, zeroVec in E. cbn [x y] in E. inversion E. f_equal; lra. }
  pose proof (vecNorm_unit _ Hnz) as Hu. fold n in Hu.
  subst b1' b2'. unfold collide. cbv zeta.
  apply Rltb_true in Hd. rewrite Hd. fold n.
  set (c1 := if Rltb 0 _ then set_pos b1 _ else b1).
  set (c2 := if Rltb 0 _ then set_pos b2 _ else b2).
  assert (Hc1 : vel c1 = vel b1 /\ type c1 = type b1)
    by (unfold c1; destruct (Rltb 0 _); split; reflexivity).
  assert (Hc2 : vel c2 = vel b2 /\ type c2 = type b2)
    by (unfold c2; destruct (Rltb 0 _); split; reflexivity).
  clearbody c1 c2. destruct Hc1 as [Hv1 Ht1]. destruct Hc2 as [Hv2 Ht2].
  cbn [type set_vel]. rewrite Ht1, Ht2, Hv1, Hv2. fold closing.
  assert (Hnospin : (BallType_eqb (type b1) CUE || BallType_eqb (type b2) CUE)
                    && (negb (Reqb (x spin) 0) || negb (Reqb (y spin) 0)) = false).
  { destruct Hs as [->|[H1 H2]].
    - cbn [x y]. rewrite Reqb_refl. apply andb_false_r.
    - apply BallType_eqb_neq in H1, H2. now rewrite H1, H2. }
  rewrite Hnospin.
  split.
  - intros Hc. assert (E : Rltb 0 closing = false) by (apply Rltb_false; lra).
    rewrite E. cbn [fst snd vel set_vel].
    unfold vecDot, vecSub, vecAdd, vecMult in *. cbn [x y] in *.
    unfold closing, vecDot, vecSub. cbn [x y].
    set (nx := x n) in *. set (ny := y n) in *.
    set (rx := x (vel b1) - x (vel b2)). set (ry := y (vel b1) - y (vel b2)).
    replace ((x (vel b1) + nx * (- (1 + BALL_RESTITUTION) * (rx * nx + ry * ny) / 2)
              - (x (vel b2) - nx * (- (1 + BALL_RESTITUTION) * (rx * nx + ry * ny) / 2))) * nx
             + (y (vel b1) + ny * (- (1 + BALL_RESTITUTION) * (rx * nx + ry * ny) / 2)
                - (y (vel b2) - ny * (- (1 + BALL_RESTITUTION) * (rx * nx + ry * ny) / 2))) * ny)
      with ((rx * nx + ry * ny)
            - (1 + BALL_RESTITUTION) * (rx * nx + ry * ny) * (nx * nx + ny * ny))
      by (unfold rx, ry; field).
    rewrite Hu. ring.
  - intros Hc. apply Rltb_true in Hc. rewrite Hc. cbn [fst snd]. now split.
Qed.

Lemma collide_restitution_witness :
  vecDot (vecSub (vel (fst (fst (collide (mkVec 0 0) cueAgainstRed touchingRed))))
                 (vel (snd (fst (collide (mkVec 0 0) cueAgainstRed touchingRed)))))
         (vecNorm (vecSub (pos cueAgainstRed) (pos touchingRed)))
  = - BALL_RESTITUTION
    * vecDot (vecSub (vel cueAgainstRed) (vel touchingRed))
             (vecNorm (vecSub (pos cueAgainstRed) (pos touchingRed))).
Proof.
  assert (Hs : vecSub (pos cueAgainstRed) (pos touchingRed) = mkVec (-18.46) 0)
    by (unfold vecSub; simpl; f_equal; lra).
  assert (Hl : vecLen (mkVec (-18.46) 0) = 18.46).
  { unfold vecLen. cbn [x y].
    replace (-18.46 * -18.46 + 0 * 0) with (18.46 * 18.46) by lra.
    apply sqrt_square. lra. }
  assert (Hn : vecNorm (vecSub (pos cueAgainstRed) (pos touchingRed)) = mkVec (-1) 0).
  { rewrite Hs. rewrite vecNorm_nonzero by (intros E; inversion E; lra).
    rewrite Hl. cbn [x y]. f_equal; lra. }
  assert (Hd : vecDist (pos cueAgainstRed) (pos touchingRed) < radius cueAgainstRed + radius touchingRed).
  { unfold vecDist. rewrite Hs, Hl. simpl. unfold BALL_RADIUS. lra. }
  assert (Hne : pos cueAgainstRed <> pos touchingRed).
  { simpl. intros E. inversion E. lra. }
  pose proof (collide_restitution (mkVec 0 0) cueAgainstRed touchingRed Hd Hne (or_introl eq_refl)) as H.
  cbv zeta in H. apply (proj1 H).
  rewrite Hn. unfold vecDot, vecSub. simpl. lra.
Defined.

(** ** The touching ball *)

(** X28. What the touching-ball check reports.  While a frame is being
    played, the balls are at rest and the cue ball is not in hand, the ball
    reported as touching is an object ball on the table whose centre is within
    two ball radii and a half unit of the centre of the cue ball, and no ball
    is reported only when there is no such ball; a shot aimed at the centre
    of the reported ball is played into it.  In every other situation no
    touching ball is reported. *)
Theorem checkTouchingBall_reports :
  forall (balls : list Ball) (isMoving : bool) (s : Game),
    (forall cue,
       gameState s = PLAYING -> isMoving = false -> ballInHand s = false ->
       find (fun b => BallType_eqb (type b) CUE) balls = Some cue ->
       (forall tb, touchingBall (checkTouchingBall balls isMoving s) = Some tb ->
          In tb balls /\ potted tb = false /\ type tb <> CUE /\
          vecDist (pos cue) (pos tb) <= BALL_RADIUS * 2 + 0.5 /\
          (pos tb <> pos cue ->
           playedInto (vecNorm (vecSub (pos tb) (pos cue))) cue tb)) /\
       (touchingBall (checkTouchingBall balls isMoving s) = None ->
          forall b, In b balls -> potted b = false -> type b <> CUE ->
                    BALL_RADIUS * 2 + 0.5 < vecDist (pos cue) (pos b))) /\
    (gameState s <> PLAYING \/ isMoving = true \/ ballInHand s = true ->
       touchingBall (checkTouchingBall balls isMoving s) = None).
Proof.
  intros balls isMoving s. split.
  - intros cue Hg Hm Hh Hc. unfold checkTouchingBall. rewrite Hg, Hm, Hh, Hc.
    cbn [negb andb touchingBall setTouchingBall]. split.
    + intros tb Hf. apply find_some in Hf as [Hin Hp].
      apply andb_true_iff in Hp as [Hp Hd]. apply andb_true_iff in Hp as [Hp Ht].
      apply negb_true_iff in Hp, Ht. apply BallType_eqb_neq in Ht. apply Rleb_true in Hd.
      repeat split; try assumption.
      intros Hne. unfold playedInto.
      assert (Hnz : vecSub (pos tb) (pos cue) <> zeroVec).
      { intros E. apply Hne. destruct (pos tb) as [p1 q1], (pos cue) as [p2 q2].
        unfold vecSub, zeroVec in E. cbn [x y] in E. inversion E. f_equal; lra. }
      rewrite (vecNorm_unit _ Hnz). lra.
    + intros Hf b Hin Hp Ht. pose proof (find_none _ _ Hf b Hin) as Hb. cbv beta in Hb.
      apply BallType_eqb_neq in Ht. rewrite Hp, Ht in Hb. cbn [negb andb] in Hb.
      now apply Rleb_false in Hb.
  - intros H. unfold checkTouchingBall.
    destruct (gameState s); try reflexivity.
    destruct isMoving; [reflexivity|]. destruct (ballInHand s); [reflexivity|].
    destruct H as [H|[H|H]]; congruence.
Qed.

Lemma checkTouchingBall_reports_witness :
  touchingBall (checkTouchingBall [cueAtBreak; frozenRed; yellowOnSpot] false
                  (setTouchingBall None frozenBallGame)) = Some frozenRed /\
  In frozenRed [cueAtBreak; frozenRed; yellowOnSpot] /\
  potted frozenRed = false /\ type frozenRed <> CUE /\
  vecDist (pos cueAtBreak) (pos frozenRed) <= BALL_RADIUS * 2 + 0.5 /\
  playedInto (vecNorm (vecSub (pos frozenRed) (pos cueAtBreak))) cueAtBreak frozenRed.
Proof.
  assert (Hd : vecDist (pos cueAtBreak) (pos frozenRed) = 18.5).
  { unfold vecDist, vecSub, vecLen. cbn [pos cueAtBreak frozenRed x y].
    replace ((150 - 168.5) * (150 - 168.5) + (230 - 230) * (230 - 230))
      with (18.5 * 18.5) by lra.
    apply sqrt_square. lra. }
  assert (Hf : touchingBall (checkTouchingBall [cueAtBreak; frozenRed; yellowOnSpot] false
                               (setTouchingBall None frozenBallGame)) = Some frozenRed).
  { unfold checkTouchingBall. cbn [gameState ballInHand setTouchingBall frozenBallGame negb andb].
    cbn [find type cueAtBreak BallType_eqb]. cbn [touchingBall setTouchingBall].
    cbn [find potted type cueAtBreak frozenRed BallType_eqb negb andb].
    fold cueAtBreak. fold frozenRed. rewrite Hd.
    replace (Rleb 18.5 (BALL_RADIUS * 2 + 0.5)) with true
      by (symmetry; apply Rleb_true; unfold BALL_RADIUS; lra).
    reflexivity. }
  split; [exact Hf|].
  destruct (proj1 (checkTouchingBall_reports [cueAtBreak; frozenRed; yellowOnSpot] false
                     (setTouchingBall None frozenBallGame))
              cueAtBreak eq_refl eq_refl eq_refl eq_refl) as [Hsome _].
  destruct (Hsome frozenRed Hf) as (Hin & Hp & Ht & Hle & Hplay).
  repeat (split; [assumption|]).
  apply Hplay. cbn [pos cueAtBreak frozenRed]. intros E. inversion E. lra.
Defined.

(** ** The machine's choice of a pot *)











(** ** Colours come back until the clearance *)

(** The ball that [respawnBall] was asked for is on the table afterwards. *)
Lemma respawnBall_found (k : nat) (balls : list Ball) (i : nat) (b : Ball) :
  findIndex (fun c => (id c =? k)%nat) balls = Some i ->
  nth_error balls i = Some b ->
  exists b', nth_error (respawnBall k balls) i = Some b' /\
             sameBall b b' /\ potted b' = false /\ vel b' = zeroVec.
Proof.
  intros Hf Hn. unfold respawnBall. rewrite Hf. cbv zeta.
  set (f := fun b0 : Ball => set_vel (set_potted b0 false) zeroVec).
  rewrite (nth_error_modify_same i f balls b Hn).
  assert (Hres : forall g : Ball -> Ball,
             (forall u, sameBall u (g u) /\ potted (g u) = potted u /\ vel (g u) = vel u) ->
             exists b', nth_error (modify i g (modify i f balls)) i = Some b' /\
                        sameBall b b' /\ potted b' = false /\ vel b' = zeroVec).
  { intros g Hg. rewrite modify_modify.
    rewrite (nth_error_modify_same i _ balls b Hn).
    destruct (Hg (f b)) as (Hs & Hp & Hv).
    exists (g (f b)). split; [reflexivity|]. rewrite Hp, Hv. split; [|split; reflexivity].
    destruct Hs as (s1 & s2 & s3 & s4 & s5 & s6). unfold sameBall.
    rewrite s1, s2, s3, s4, s5, s6. repeat split; reflexivity. }
  assert (Hset : forall q u, sameBall u (set_pos u q) /\ potted (set_pos u q) = potted u /\
                             vel (set_pos u q) = vel u)
    by (intros q u; repeat split; reflexivity).
  destruct (find _ spots) as [sp|].
  2:{ exists (f b). split; [apply (nth_error_modify_same i f balls b Hn)|].
      repeat split; reflexivity. }
  destruct (negb _); [apply (Hres (fun u => set_pos u (snd sp))), Hset|].
  match goal with
  | |- context [match find ?p spots with _ => _ end] => destruct (find p spots) as [spot|]
  end.
  - apply (Hres (fun u => set_pos u (snd spot))), Hset.
  - apply (Hres (fun u => set_pos u overflowSpot)), Hset.
Qed.

(** The balls after the pot branch: re-spotted or left alone. *)
Lemma potResolution_balls (s0 : Game) (pb : Ball) (s : Game) :
  type pb <> RED ->
  ballsRef (fst (potResolution s0 pb s))
  = if isFreeBall s0 then respawnBall (id pb) (ballsRef s)
    else match targetState s0 with
         | TColor => respawnBall (id pb) (ballsRef s)
         | TType _ =>
             if (0 <? List.length (filter (fun b => BallType_eqb (type b) RED && negb (potted b))
                                          (ballsRef s)))%nat
             then respawnBall (id pb) (ballsRef s)
             else ballsRef s
         end.
Proof.
  intros Hr. apply BallType_eqb_neq in Hr. unfold potResolution. cbv zeta. rewrite Hr.
  destruct (currentPlayer s0); game_proj.
  all: destruct (isFreeBall s0); [reflexivity|].
  all: destruct (targetState s0) as [|t]; [destruct (0 <? _)%nat; reflexivity|].
  all: destruct (0 <? _)%nat; [reflexivity|].
  all: destruct (BallType_eqb (type pb) t); [|reflexivity].
  all: destruct (sortedOnTable (ballsRef s)); reflexivity.
Qed.

(** X30. A potted colour comes back until the clearance.  After a legal pot
    of a ball that is not a red: under a free ball, under the generic COLOR
    target, or while a red remains, [handleTurnEnd] re-spots it, so that the
    ball is on the table again, at rest, and the other balls are what
    [respawnBall] leaves; once no red remains and a single colour is on, the
    balls are left as they are and the colour stays down. *)
Theorem potted_colour_is_respotted :
  forall (s : Game) (pb b : Ball) (i : nat),
    legitimatePot s pb ->
    type pb <> RED ->
    findIndex (fun c => (id c =? id pb)%nat) (ballsRef s) = Some i ->
    nth_error (ballsRef s) i = Some b ->
    (isFreeBall s = true \/ targetState s = TColor \/ redsRemain (ballsRef s) ->
       ballsRef (handleTurnEnd s) = respawnBall (id pb) (ballsRef s) /\
       exists b', nth_error (ballsRef (handleTurnEnd s)) i = Some b' /\
                  sameBall b b' /\ potted b' = false /\ vel b' = zeroVec) /\
    (isFreeBall s = false -> targetState s <> TColor -> ~ redsRemain (ballsRef s) ->
       ballsRef (handleTurnEnd s) = ballsRef s).
Proof.
  intros s pb b i Hl Hr Hf Hn.
  rewrite (handleTurnEnd_legitimatePot s pb Hl).
  rewrite (potResolution_balls s pb (setSpin zeroVec s) Hr).
  cbn [ballsRef setSpin].
  pose proof (remainingReds_pos (ballsRef s)) as Hreds.
  split.
  - intros Hcase.
    assert (E : (if isFreeBall s then respawnBall (id pb) (ballsRef s)
                 else match targetState s with
                      | TColor => respawnBall (id pb) (ballsRef s)
                      | TType _ =>
                          if (0 <? List.length
                                     (filter (fun b => BallType_eqb (type b) RED
                                                       && negb (potted b)) (ballsRef s)))%nat
                          then respawnBall (id pb) (ballsRef s)
                          else ballsRef s
                      end) = respawnBall (id pb) (ballsRef s)).
    { destruct (isFreeBall s); [reflexivity|].
      destruct (targetState s) as [|t]; [reflexivity|].
      destruct (0 <? _)%nat eqn:E0; [reflexivity|].
      destruct Hcase as [H|[H|H]]; try discriminate.
      apply Hreds in H. congruence. }
    rewrite E. split; [reflexivity|]. now apply respawnBall_found.
  - intros Hfree Htar Hno. rewrite Hfree.
    destruct (targetState s) as [|t]; [contradiction|].
    destruct (0 <? _)%nat eqn:E0; [|reflexivity].
    exfalso. apply Hno, Hreds. reflexivity.
Qed.

Lemma potted_colour_is_respotted_witness :
  exists b', nth_error (ballsRef (handleTurnEnd freeBallShot)) 2 = Some b' /\
             potted b' = false.
Proof.
  assert (Hl : legitimatePot freeBallShot pottedBrown) by (repeat split; reflexivity).
  assert (Hr : type pottedBrown <> RED) by discriminate.
  destruct (proj1 (potted_colour_is_respotted freeBallShot pottedBrown pottedBrown 2%nat
                     Hl Hr eq_refl eq_refl) (or_introl eq_refl))
    as (_ & b' & Hn & _ & Hp & _).
  exists b'. split; [exact Hn | exact Hp].
Defined.
